(** * learnpod: chunker, script merger, retry loops, WAV header, orchestrator

    A shallow embedding of the parts of the [learnpod] package that its
    specification talks about, and the properties of that code.

    Python values are modelled as follows.
    - [str] is a list of Unicode code points (a Python [str] is a sequence of
      code points; [len] is the length of that list).
    - [int] is [Z].
    - an exception is a value of [exc]; a computation that may raise returns
      an [outcome].
    - calls to the remote services are oracles: functions given from outside
      (a [Variable] of a section or a field of a client record). *)

From Stdlib Require Import ZArith List Bool Lia.
From Stdlib Require Import Strings.String Strings.Ascii Strings.Byte.
From Stdlib Require Import DecimalString.
From stdpp Require Import gmap strings.
Import ListNotations.
Local Open Scope Z_scope.

(* ===================================================================== *)
(** ** Python strings and builtins *)
(* ===================================================================== *)

Module Py.

Definition char := Z.
Definition str := list char.

(** Truth value of a string: non-empty. *)
Definition truthy (s : str) : bool :=
  match s with [] => false | _ :: _ => true end.

Definition LF : char := 10.

(** [str.isspace] for one code point, which is also the class [\s] of [re]
    on [str] patterns and the set removed by [str.strip()]. *)
Definition isspace (c : char) : bool :=
  ((9 <=? c) && (c <=? 13)) || ((28 <=? c) && (c <=? 32))
  || (c =? 133) || (c =? 160) || (c =? 5760)
  || ((8192 <=? c) && (c <=? 8202))
  || (c =? 8232) || (c =? 8233) || (c =? 8239) || (c =? 8287) || (c =? 12288).

(** Code points of the digit zero of every decimal-digit block (category Nd,
    Unicode 14): the ten digits of a block are consecutive. *)
Definition decimal_zeros : list char :=
  [48; 1632; 1776; 1984; 2406; 2534; 2662; 2790; 2918; 3046; 3174; 3302;
   3430; 3558; 3664; 3792; 3872; 4160; 4240; 6112; 6160; 6470; 6608; 6784;
   6800; 6992; 7088; 7232; 7248; 42528; 43216; 43264; 43472; 43504; 43600;
   44016; 65296; 66720; 68912; 69734; 69872; 69942; 70096; 70384; 70736;
   70864; 71248; 71360; 71472; 71904; 72016; 72784; 73040; 73120; 92768;
   92864; 93008; 120782; 120792; 120802; 120812; 120822; 123200; 123632;
   125264; 130032].

(** Value of a decimal digit, [None] for any other code point. *)
Definition decimal_value (c : char) : option Z :=
  match List.find (fun z => (z <=? c) && (c <=? z + 9)) decimal_zeros with
  | Some z => Some (c - z)
  | None => None
  end.

(** The class [\d] of [re] on [str] patterns. *)
Definition isdecimal (c : char) : bool :=
  match decimal_value c with Some _ => true | None => false end.

Fixpoint lstrip (s : str) : str :=
  match s with
  | [] => []
  | c :: s' => if isspace c then lstrip s' else s
  end.

Definition rstrip (s : str) : str := rev (lstrip (rev s)).

(** [s.strip()] *)
Definition strip (s : str) : str := rstrip (lstrip s).

(** Splitting at every code point of a class: [s.split(c)] for a one
    character separator, and [re.split] on a one-character class. The result
    has one more piece than there are separators; pieces may be empty. *)
Fixpoint split_on (p : char -> bool) (s : str) : list str :=
  match s with
  | [] => [[]]
  | c :: s' =>
      if p c then [] :: split_on p s'
      else match split_on p s' with
           | piece :: rest => (c :: piece) :: rest
           | [] => [[c]]
           end
  end.

Definition split_char (sep : char) (s : str) : list str :=
  split_on (Z.eqb sep) s.

(** [sep.join(l)] *)
Fixpoint join (sep : str) (l : list str) : str :=
  match l with
  | [] => []
  | x :: l' =>
      match l' with
      | [] => x
      | _ :: _ => x ++ sep ++ join sep l'
      end
  end.

(** [s.startswith(prefix)] *)
Fixpoint startswith (prefix s : str) : bool :=
  match prefix, s with
  | [], _ => true
  | _ :: _, [] => false
  | a :: prefix', b :: s' => (a =? b) && startswith prefix' s'
  end.

(** [needle in s] *)
Fixpoint contains (needle s : str) : bool :=
  startswith needle s
  || match s with
     | [] => false
     | _ :: s' => contains needle s'
     end.

(** Decoding of UTF-8 bytes, used to write string constants of the source
    as Rocq string literals. *)
Fixpoint utf8_decode (bs : list Z) : str :=
  match bs with
  | [] => []
  | b0 :: r0 =>
      if b0 <? 192 then b0 :: utf8_decode r0
      else match r0 with
      | [] => [b0]
      | b1 :: r1 =>
          if b0 <? 224 then ((b0 - 192) * 64 + (b1 - 128)) :: utf8_decode r1
          else match r1 with
          | [] => [b0; b1]
          | b2 :: r2 =>
              if b0 <? 240
              then ((b0 - 224) * 4096 + (b1 - 128) * 64 + (b2 - 128))
                   :: utf8_decode r2
              else match r2 with
              | [] => [b0; b1; b2]
              | b3 :: r3 =>
                  ((b0 - 240) * 262144 + (b1 - 128) * 4096
                   + (b2 - 128) * 64 + (b3 - 128)) :: utf8_decode r3
              end
          end
      end
  end.

Definition lit (s : string) : str :=
  utf8_decode (List.map (fun b => Z.of_N (Byte.to_N b)) (list_byte_of_string s)).

(** *** [int(len(text) * 0.7)]

    The product is a binary64 floating-point product. [0.7] denotes the
    double [m07 * 2^-53]; a product is rounded to 53 significant bits, ties
    to even; [int] truncates. *)

Definition m07 : Z := 6305039478318694.

(** [round53 n = (m, e)]: the double nearest to the natural number [n] is
    [m * 2^e]. *)
Definition round53 (n : Z) : Z * Z :=
  let bits := Z.log2 n + 1 in
  if bits <=? 53 then (n, 0)
  else
    let s := bits - 53 in
    let q := Z.shiftr n s in
    let r := n - Z.shiftl q s in
    let half := Z.shiftl 1 (s - 1) in
    if (half <? r) || ((r =? half) && Z.odd q) then (q + 1, s) else (q, s).

Definition int_mul_07 (n : Z) : Z :=
  let '(m1, e1) := round53 n in
  let '(m2, e2) := round53 (m1 * m07) in
  Z.shiftl m2 (e1 + e2 - 53).

(** [str.lower] on strings of ASCII code points. (On other strings
    [str.lower] follows the Unicode case mapping of the interpreter, which
    the functions below take as a parameter.) *)
Definition ascii_lower (s : str) : str :=
  List.map (fun c => if (65 <=? c) && (c <=? 90) then c + 32 else c) s.

(** Exceptions. [BaseExc] stands for the exceptions that are not instances
    of [Exception] (KeyboardInterrupt, SystemExit): [except Exception] does
    not catch them. *)
Inductive exc : Type :=
  | ValueError (msg : string)
  | IndexError
  | TypeError
  | FileNotFoundError (msg : string)
  | StructError
  | YAMLError
  | UnicodeDecodeError
  | Exception (msg : string)
  | BaseExc (name : string).

Definition is_Exception (e : exc) : bool :=
  match e with BaseExc _ => false | _ => true end.

Inductive outcome (A : Type) : Type :=
  | Ok (a : A)
  | Raise (e : exc).
Arguments Ok {A} a.
Arguments Raise {A} e.

End Py.
Import Py.

Example lit_ascii : lit "S1: a" = [83; 49; 58; 32; 97].
Proof. reflexivity. Qed.

Example lit_kuten : lit "。！？" = [12290; 65281; 65311].
Proof. reflexivity. Qed.

Example int_mul_07_values :
  List.map int_mul_07 [0; 1; 2; 3; 10; 90; 100; 1143] = [0; 0; 1; 2; 7; 62; 70; 800].
Proof. reflexivity. Qed.

(* ===================================================================== *)
(** ** What a run does to the outside world *)
(* ===================================================================== *)

Module World.

(** The requests sent to the remote services, the waits and the files
    written, in the order they happen. *)
Inductive event : Type :=
  | LLMRequest (prompt : str)     (* [client.models.generate_content] *)
  | TTSRequest (text : str)       (* [client.models.generate_content_stream] *)
  | Sleep (seconds : Z)           (* [time.sleep] *)
  | WriteFile (name : str) (data : list Z).

Definition trace := list event.

(** [range(n)] *)
Definition range (n : Z) : list Z :=
  List.map Z.of_nat (seq 0 (Z.to_nat n)).

Section Retry.

Context {A : Type}.

(** The [try] block of one attempt: the events it adds to the history it
    starts from, and its result. *)
Variable body : trace -> list event * outcome A.

(** The error raised after the loop. *)
Variable exhausted : exc.

(** The retry loop of [LLMClient.generate] and of
    [TTSClient.generate_audio] (the two loops have the same text):
<<
    for attempt in range(max_retries):
        try:
            ... return ...
        except Exception as e:
            if attempt < max_retries - 1:
                time.sleep(2 ** attempt)
            else:
                raise
    raise Exception(...)
>>
    [attempts] is what is left of [range(max_retries)], [tr] the history so
    far. *)
Fixpoint retry_loop (max_retries : Z) (attempts : list Z) (tr : trace)
    : trace * outcome A :=
  match attempts with
  | [] => (tr, Raise exhausted)
  | attempt :: rest =>
      let '(evs, result) := body tr in
      match result with
      | Ok v => (tr ++ evs, Ok v)
      | Raise e =>
          if is_Exception e && (attempt <? max_retries - 1)
          then retry_loop max_retries rest (tr ++ evs ++ [Sleep (2 ^ attempt)])
          else (tr ++ evs, Raise e)
      end
  end.

Definition retry (max_retries : Z) (tr : trace) : trace * outcome A :=
  retry_loop max_retries (range max_retries) tr.

End Retry.

End World.
Import World.

(* ===================================================================== *)
(** ** generator/llm_client.py *)
(* ===================================================================== *)

Module LLMClient.

(** The remote model behind a client.
    - [count_api text] is [self.client.models.count_tokens(...).total_tokens],
      [None] when that request raises an exception;
    - [generate_content history prompt] is the [text] field of the response
      to a generation request (it may be [None]), or the exception the
      request raises; the answer may depend on all that happened before. *)
Record t : Type := {
  count_api : str -> option Z;
  generate_content : trace -> str -> outcome (option str)
}.

(** [count_tokens]: the exact count, and [int(len(text) * 0.7)] when the
    request fails. *)
Definition count_tokens (c : t) (text : str) : Z :=
  match count_api c text with
  | Some total_tokens => total_tokens
  | None => int_mul_07 (Z.of_nat (length text))
  end.

Definition default_limit : Z := 30000.

(** [is_token_limit_exceeded(text, limit)] *)
Definition is_token_limit_exceeded (c : t) (text : str) (limit : Z) : bool :=
  limit <? count_tokens c text.

(** The [try] block of [generate]: one request; an empty or missing text
    raises [ValueError]. *)
Definition response_text (response : outcome (option str)) : outcome str :=
  match response with
  | Ok (Some text) =>
      if truthy text then Ok text
      else Raise (ValueError "空のレスポンスが返されました")
  | Ok None => Raise (ValueError "空のレスポンスが返されました")
  | Raise e => Raise e
  end.

Definition generate_attempt (c : t) (prompt : str) (tr : trace)
    : list event * outcome str :=
  ([LLMRequest prompt], response_text (generate_content c tr prompt)).

Definition default_max_retries : Z := 3.

(** [generate(prompt, max_retries)] *)
Definition generate (c : t) (prompt : str) (max_retries : Z) (tr : trace)
    : trace * outcome str :=
  retry (generate_attempt c prompt) (Exception "LLM生成に失敗しました")
        max_retries tr.

End LLMClient.

(* ===================================================================== *)
(** ** config.py *)
(* ===================================================================== *)

Module Config.

Record t : Type := { chunk_size : Z }.

(** The values set by [Config.__init__]. *)
Definition default : t := {| chunk_size := 800 |}.

End Config.

(* ===================================================================== *)
(** ** generator/splitter.py *)
(* ===================================================================== *)

Module TextSplitter.

Record t : Type := { chunk_size : Z }.

(** [TextSplitter(chunk_size)]: [chunk_size or config.chunk_size]. *)
Definition init (config : Config.t) (chunk_size : option Z) : t :=
  match chunk_size with
  | Some n => if n =? 0 then {| chunk_size := Config.chunk_size config |}
              else {| chunk_size := n |}
  | None => {| chunk_size := Config.chunk_size config |}
  end.

(** [_estimate_tokens] *)
Definition _estimate_tokens (text : str) : Z :=
  int_mul_07 (Z.of_nat (length text)).

(** The cost the splitter measures a text with: the client's count when a
    client is passed, the estimate otherwise. *)
Definition cost (llm_client : option LLMClient.t) (text : str) : Z :=
  match llm_client with
  | Some c => LLMClient.count_tokens c text
  | None => _estimate_tokens text
  end.

(** The test of both branches of the loops:
    [llm_client.is_token_limit_exceeded(test_chunk, self.chunk_size)] with a
    client, [self._estimate_tokens(test_chunk) > self.chunk_size] without. *)
Definition exceeds (self : t) (llm_client : option LLMClient.t) (text : str) : bool :=
  match llm_client with
  | Some c => LLMClient.is_token_limit_exceeded c text (chunk_size self)
  | None => chunk_size self <? _estimate_tokens text
  end.

(** *** [re.split(r'\n\s*\n', text)] *)

(** Length of the greedy match of [\s*\n] at the head of [s]: the longest
    run of white space that ends in a line feed. *)
Fixpoint match_ws_nl (s : str) : option nat :=
  match s with
  | [] => None
  | c :: s' =>
      if isspace c then
        match match_ws_nl s' with
        | Some n => Some (S n)
        | None => if c =? LF then Some 1%nat else None
        end
      else None
  end.

(** The scan of [re.split]: [skip] code points of [s] still belong to the
    separator matched last, [piece] is the text since the end of that
    separator. A separator starts at the leftmost line feed that
    [match_ws_nl] can extend. *)
Fixpoint re_split_blank (s : str) (skip : nat) (piece : str) : list str :=
  match s with
  | [] => [piece]
  | c :: s' =>
      match skip with
      | S k => re_split_blank s' k piece
      | O =>
          if c =? LF then
            match match_ws_nl s' with
            | Some n => piece :: re_split_blank s' n []
            | None => re_split_blank s' 0 (piece ++ [c])
            end
          else re_split_blank s' 0 (piece ++ [c])
      end
  end.

(** [[p.strip() for p in pieces if p.strip()]] *)
Definition strip_nonblank (pieces : list str) : list str :=
  List.filter truthy (List.map strip pieces).

(** [_split_by_paragraphs] *)
Definition _split_by_paragraphs (text : str) : list str :=
  strip_nonblank (re_split_blank text 0 []).

(** *** [_split_by_sentences] *)

Definition KUTEN : char := 12290.        (* 。 *)
Definition EXCLAMATION : char := 65281.  (* ！ *)
Definition QUESTION : char := 65311.     (* ？ *)

Definition is_terminator (c : char) : bool :=
  (c =? KUTEN) || (c =? EXCLAMATION) || (c =? QUESTION).

(** [[s.strip() + '。' for s in re.split(r'[。！？]', text) if s.strip()]] *)
Definition sentences_of (text : str) : list str :=
  List.map (fun s => s ++ [KUTEN]) (strip_nonblank (split_on is_terminator text)).

(** One turn of the sentence loop on the state [(chunks, current_chunk)]. *)
Definition sentence_step (self : t) (llm_client : option LLMClient.t)
    (st : list str * str) (sentence : str) : list str * str :=
  let '(chunks, current_chunk) := st in
  let test_chunk :=
    if truthy current_chunk then current_chunk ++ sentence else sentence in
  if exceeds self llm_client test_chunk then
    if truthy current_chunk then (chunks ++ [strip current_chunk], sentence)
    else (chunks ++ [sentence], current_chunk)
  else (chunks, test_chunk).

(** The statement after both loops: the last chunk is added when it is not
    empty. *)
Definition flush (st : list str * str) : list str :=
  let '(chunks, current_chunk) := st in
  if truthy current_chunk then chunks ++ [strip current_chunk] else chunks.

Definition _split_by_sentences (self : t) (llm_client : option LLMClient.t)
    (text : str) : list str :=
  match sentences_of text with
  | [] => [text]
  | sentences =>
      flush (fold_left (sentence_step self llm_client) sentences ([], []))
  end.

(** *** [split_by_tokens] *)

(** One turn of the paragraph loop on the state [(chunks, current_chunk)]. *)
Definition paragraph_step (self : t) (llm_client : option LLMClient.t)
    (st : list str * str) (paragraph : str) : list str * str :=
  let '(chunks, current_chunk) := st in
  let test_chunk :=
    if truthy current_chunk then current_chunk ++ [LF; LF] ++ paragraph
    else paragraph in
  if exceeds self llm_client test_chunk then
    if truthy current_chunk then (chunks ++ [strip current_chunk], paragraph)
    else (chunks ++ _split_by_sentences self llm_client paragraph, current_chunk)
  else (chunks, test_chunk).

Definition split_paragraphs (self : t) (llm_client : option LLMClient.t)
    (text : str) : list str :=
  flush (fold_left (paragraph_step self llm_client)
                   (_split_by_paragraphs text) ([], [])).

Definition split_by_tokens (self : t) (llm_client : option LLMClient.t)
    (text : str) : list str :=
  match llm_client with
  | Some c =>
      if negb (LLMClient.is_token_limit_exceeded c text (chunk_size self))
      then [text]
      else split_paragraphs self llm_client text
  | None => split_paragraphs self llm_client text
  end.

End TextSplitter.

Example split_paragraphs_example :
  TextSplitter._split_by_paragraphs (lit "  one
two

 
  three  
x

") = [lit "one
two"; lit "three  
x"].
Proof. reflexivity. Qed.

(* ===================================================================== *)
(** ** Facts about the string builtins *)
(* ===================================================================== *)

Module PyFacts.

(** A string that neither starts nor ends with white space. *)
Definition head_ok (s : str) : bool :=
  match s with [] => true | c :: _ => negb (isspace c) end.

Definition stripped (s : str) : Prop :=
  head_ok s = true /\ head_ok (rev s) = true.

Lemma lstrip_split (s : str) :
  exists ws, s = ws ++ lstrip s /\ forallb isspace ws = true.
Proof.
  induction s as [|c s IH]; simpl.
  - exists []. split; reflexivity.
  - destruct (isspace c) eqn:Hc.
    + destruct IH as [ws [H1 H2]]. exists (c :: ws). simpl.
      rewrite Hc, H2. split; [congruence | reflexivity].
    + exists []. split; reflexivity.
Qed.

Lemma head_ok_lstrip (s : str) : head_ok (lstrip s) = true.
Proof.
  induction s as [|c s IH]; simpl; [reflexivity|].
  destruct (isspace c) eqn:Hc; [exact IH|]. simpl. now rewrite Hc.
Qed.

Lemma lstrip_id (s : str) : head_ok s = true -> lstrip s = s.
Proof.
  destruct s as [|c s]; simpl; [reflexivity|].
  intros H. apply negb_true_iff in H. now rewrite H.
Qed.

Lemma rstrip_split (s : str) :
  exists ws, s = rstrip s ++ ws /\ forallb isspace ws = true.
Proof.
  unfold rstrip. destruct (lstrip_split (rev s)) as [ws [H1 H2]].
  exists (rev ws). split.
  - rewrite <- rev_app_distr, <- H1. now rewrite rev_involutive.
  - rewrite forallb_forall in *. intros x Hx. apply H2.
    now apply in_rev.
Qed.

Lemma head_ok_prefix (a b : str) : head_ok (a ++ b) = true -> head_ok a = true.
Proof. destruct a; simpl; auto. Qed.

Lemma stripped_strip (s : str) : stripped (strip s).
Proof.
  unfold stripped, strip. split.
  - destruct (rstrip_split (lstrip s)) as [ws [H1 _]].
    apply head_ok_prefix with (b := ws). rewrite <- H1. apply head_ok_lstrip.
  - unfold rstrip. rewrite rev_involutive. apply head_ok_lstrip.
Qed.

Lemma strip_id (s : str) : stripped s -> strip s = s.
Proof.
  intros [H1 H2]. unfold strip, rstrip.
  rewrite (lstrip_id s H1), (lstrip_id (rev s) H2). apply rev_involutive.
Qed.

Lemma head_ok_app (a b : str) :
  a <> [] -> head_ok a = true -> head_ok (a ++ b) = true.
Proof. destruct a; simpl; [congruence | auto]. Qed.

(** Gluing two stripped, non-empty strings with anything in between gives a
    stripped string. *)
Lemma stripped_glue (a m b : str) :
  stripped a -> stripped b -> a <> [] -> b <> [] -> stripped (a ++ m ++ b).
Proof.
  intros [Ha _] [_ Hb] Na Nb. split.
  - now apply head_ok_app.
  - rewrite !rev_app_distr, <- app_assoc. apply head_ok_app; [|exact Hb].
    intros E. apply Nb. apply (f_equal (@rev _)) in E.
    now rewrite rev_involutive in E.
Qed.

Lemma stripped_snoc (a : str) (c : char) :
  stripped a -> isspace c = false -> stripped (a ++ [c]).
Proof.
  intros [Ha _] Hc. split.
  - destruct a; simpl in *; [now rewrite Hc | exact Ha].
  - rewrite rev_app_distr. simpl. now rewrite Hc.
Qed.

Lemma truthy_true (s : str) : truthy s = true <-> s <> [].
Proof. destruct s; simpl; split; congruence. Qed.

Lemma truthy_false (s : str) : truthy s = false <-> s = [].
Proof. destruct s; simpl; split; congruence. Qed.

(** *** [join] *)

Lemma join_snoc (sep : str) (l : list str) (x : str) :
  l <> [] -> join sep (l ++ [x]) = join sep l ++ sep ++ x.
Proof.
  induction l as [|a l IH]; [congruence|]. intros _.
  destruct l as [|b l].
  - reflexivity.
  - change (join sep ((a :: b :: l) ++ [x]))
      with (a ++ sep ++ join sep ((b :: l) ++ [x])).
    rewrite IH by congruence.
    change (join sep (a :: b :: l)) with (a ++ sep ++ join sep (b :: l)).
    now rewrite <- !app_assoc.
Qed.

Lemma join_nil_concat (l : list str) : join [] l = concat l.
Proof.
  induction l as [|a l IH]; [reflexivity|].
  destruct l as [|b l].
  - simpl. now rewrite app_nil_r.
  - change (join [] (a :: b :: l)) with (a ++ [] ++ join [] (b :: l)).
    rewrite IH. reflexivity.
Qed.

Lemma join_nonempty (sep : str) (l : list str) :
  Forall (fun u => u <> []) l -> l <> [] -> join sep l <> [].
Proof.
  intros HF Hl. destruct l as [|a l]; [congruence|].
  inversion HF as [|? ? Ha _]; subst.
  destruct l; simpl; [exact Ha|].
  destruct a; [congruence | discriminate].
Qed.

Lemma stripped_join (sep : str) (l : list str) :
  Forall (fun u => stripped u /\ u <> []) l -> l <> [] -> stripped (join sep l).
Proof.
  induction l as [|a l IH]; [congruence|]. intros HF _.
  inversion HF as [|? ? [Sa Na] HF']; subst.
  destruct l as [|b l]; [exact Sa|].
  change (join sep (a :: b :: l)) with (a ++ sep ++ join sep (b :: l)).
  apply stripped_glue; [exact Sa | | exact Na | ].
  - apply IH; [exact HF' | congruence].
  - apply join_nonempty; [|congruence].
    eapply List.Forall_impl; [|exact HF']. simpl. tauto.
Qed.

(** *** Runs: consecutive elements of a list *)

Definition run {A : Type} (xs l : list A) : Prop :=
  exists pre post, l = pre ++ xs ++ post.

Lemma run_In {A : Type} (x : A) (l : list A) : In x l -> run [x] l.
Proof.
  intros H. apply in_split in H. destruct H as [pre [post ->]].
  now exists pre, post.
Qed.

Lemma run_single_In {A : Type} (x : A) (l : list A) : run [x] l -> In x l.
Proof.
  intros [pre [post ->]]. apply in_or_app. right. now left.
Qed.

(** *** Invariants of a left fold *)

Lemma fold_left_invariant {A B : Type} (f : A -> B -> A)
    (P : list B -> A -> Prop) (l : list B) (a : A) :
  P [] a ->
  (forall done x rest s, l = done ++ x :: rest -> P done s -> P (done ++ [x]) (f s x)) ->
  P l (fold_left f l a).
Proof.
  intros H0 Hstep.
  assert (G : forall rest done s, l = done ++ rest -> P done s ->
                                  P l (fold_left f rest s)).
  { induction rest as [|x rest IH]; intros done s E Hs.
    - simpl. rewrite app_nil_r in E. now subst.
    - simpl. apply (IH (done ++ [x])).
      + rewrite <- app_assoc. exact E.
      + eapply Hstep; eauto. }
  now apply (G l [] a).
Qed.

End PyFacts.
Import PyFacts.

(* ===================================================================== *)
(** ** The greedy accumulation of the two splitter loops *)
(* ===================================================================== *)

Module Greedy.

(** The common shape of [paragraph_step] and [sentence_step]: units are
    glued with [sep]; a unit that exceeds the budget while the running chunk
    is empty is handed to [fallback]. *)
Definition greedy_step (sep : str) (fallback : str -> list str)
    (ex : str -> bool) (st : list str * str) (u : str) : list str * str :=
  let '(chunks, current_chunk) := st in
  let test_chunk :=
    if truthy current_chunk then current_chunk ++ sep ++ u else u in
  if ex test_chunk then
    if truthy current_chunk then (chunks ++ [strip current_chunk], u)
    else (chunks ++ fallback u, current_chunk)
  else (chunks, test_chunk).

Lemma paragraph_step_greedy self client st p :
  TextSplitter.paragraph_step self client st p
  = greedy_step [LF; LF] (TextSplitter._split_by_sentences self client)
                (TextSplitter.exceeds self client) st p.
Proof. destruct st. reflexivity. Qed.

Lemma sentence_step_greedy self client st s :
  TextSplitter.sentence_step self client st s
  = greedy_step [] (fun u => [u]) (TextSplitter.exceeds self client) st s.
Proof. destruct st. reflexivity. Qed.

Lemma fold_left_ext {A B : Type} (f g : A -> B -> A) (l : list B) (a : A) :
  (forall s x, f s x = g s x) -> fold_left f l a = fold_left g l a.
Proof.
  intros E. revert a. induction l as [|x l IH]; intros a; simpl; [reflexivity|].
  now rewrite E, IH.
Qed.

Section Invariant.

Variables (sep : str) (fallback : str -> list str) (ex : str -> bool).
Variable units : list str.
Variable Good : str -> Prop.

(** The state of the loop after the units [done]: the emitted chunks are
    good, and the running chunk glues the last units of [done], within the
    budget unless it is one unit. *)
Definition loop_inv (done : list str) (st : list str * str) : Prop :=
  Forall Good (fst st)
  /\ exists pre us, done = pre ++ us /\ snd st = join sep us
      /\ (ex (snd st) = false \/ (length us <= 1)%nat).

Lemma greedy_chunks :
  Forall (fun u => stripped u /\ u <> []) units ->
  (forall u, In u units -> ex u = true -> Forall Good (fallback u)) ->
  (forall us, us <> [] -> run us units ->
              ex (join sep us) = false \/ length us = 1%nat ->
              Good (join sep us)) ->
  Forall Good
    (TextSplitter.flush (fold_left (greedy_step sep fallback ex) units ([], []))).
Proof.
  intros Hunits Hfb Hrun.
  assert (Hsub : forall pre us post, units = pre ++ us ++ post ->
                 Forall (fun u => stripped u /\ u <> []) us).
  { intros pre us post E. rewrite E in Hunits.
    apply Forall_app in Hunits. destruct Hunits as [_ H].
    apply Forall_app in H. tauto. }
  assert (Hne : forall pre us post, units = pre ++ us ++ post ->
                us <> [] -> join sep us <> []).
  { intros pre us post E N. apply join_nonempty; [|exact N].
    eapply List.Forall_impl; [|exact (Hsub _ _ _ E)]. simpl. tauto. }
  assert (Hemit : forall pre us post, units = pre ++ us ++ post -> us <> [] ->
                  ex (join sep us) = false \/ (length us <= 1)%nat ->
                  Good (strip (join sep us))).
  { intros pre us post E N Hb.
    rewrite strip_id by (apply stripped_join; [exact (Hsub _ _ _ E) | exact N]).
    apply Hrun; [exact N | now exists pre, post |].
    destruct Hb as [Hb|Hb]; [now left | right].
    destruct us as [|a [|b us]]; simpl in *; [congruence | reflexivity | lia]. }
  pose proof (fold_left_invariant (greedy_step sep fallback ex) loop_inv
                units ([], [])) as F.
  assert (Hfin : loop_inv units
                   (fold_left (greedy_step sep fallback ex) units ([], []))).
  { apply F.
    - split; [constructor|]. exists [], []. simpl. repeat split. right. lia.
    - intros done x rest [chunks cur] E [Hg [pre [us [Ed [Ec Hb]]]]].
      simpl in Hg, Ec, Hb. subst done.
      assert (Eu : units = pre ++ us ++ x :: rest)
        by (rewrite E; now rewrite <- app_assoc).
      unfold greedy_step.
      destruct (truthy cur) eqn:Tc.
      + (* the running chunk is not empty *)
        assert (Nus : us <> []).
        { intros ->. simpl in Ec. subst cur. discriminate. }
        destruct (ex (cur ++ sep ++ x)) eqn:Ex.
        * split; simpl.
          -- apply Forall_app. split; [exact Hg|]. constructor; [|constructor].
             subst cur. apply (Hemit pre us (x :: rest)); assumption.
          -- exists (pre ++ us), [x]. repeat split. right. simpl. lia.
        * split; simpl; [exact Hg|].
          exists pre, (us ++ [x]). rewrite app_assoc. repeat split.
          -- rewrite join_snoc by exact Nus. now subst cur.
          -- now left.
      + (* the running chunk is empty *)
        assert (Eus : us = []).
        { destruct us as [|a us]; [reflexivity|]. exfalso.
          apply truthy_false in Tc.
          apply (Hne pre (a :: us) (x :: rest) Eu); [congruence|].
          now rewrite <- Ec. }
        subst us. rewrite app_nil_r in *.
        destruct (ex x) eqn:Ex.
        * split; simpl.
          -- apply Forall_app. split; [exact Hg|]. apply Hfb; [|exact Ex].
             rewrite E. apply in_or_app. right. now left.
          -- exists (pre ++ [x]), []. rewrite app_nil_r. repeat split.
             ++ exact Ec.
             ++ right. simpl. lia.
        * split; simpl; [exact Hg|].
          exists pre, [x]. repeat split. now left. }
  destruct (fold_left (greedy_step sep fallback ex) units ([], []))
    as [chunks cur].
  destruct Hfin as [Hg [pre [us [Ed [Ec Hb]]]]]. simpl in Hg, Ec, Hb.
  unfold TextSplitter.flush. destruct (truthy cur) eqn:Tc; [|exact Hg].
  apply Forall_app. split; [exact Hg|]. constructor; [|constructor].
  assert (Nus : us <> []).
  { intros ->. simpl in Ec. subst cur. discriminate. }
  subst cur. apply (Hemit pre us []); [|exact Nus|exact Hb].
  now rewrite app_nil_r.
Qed.

End Invariant.

End Greedy.

(* ===================================================================== *)
(** ** The chunk budget (splitter.py) *)
(* ===================================================================== *)

Module ChunkBudget.

Import TextSplitter Greedy.

Lemma exceeds_cost self client text :
  exceeds self client text = (chunk_size self <? cost client text).
Proof. destruct client; reflexivity. Qed.

Lemma not_exceeds self client text :
  exceeds self client text = false <-> cost client text <= chunk_size self.
Proof. rewrite exceeds_cost. rewrite Z.ltb_ge. reflexivity. Qed.

Lemma exceeds_true self client text :
  exceeds self client text = true <-> chunk_size self < cost client text.
Proof. rewrite exceeds_cost. apply Z.ltb_lt. Qed.

Lemma strip_nonblank_units (pieces : list str) :
  Forall (fun u => stripped u /\ u <> []) (strip_nonblank pieces).
Proof.
  apply List.Forall_forall. intros u Hu. unfold strip_nonblank in Hu.
  apply List.filter_In in Hu. destruct Hu as [Hin Ht].
  apply List.in_map_iff in Hin. destruct Hin as [s [<- _]].
  split; [apply stripped_strip | now apply truthy_true].
Qed.

Lemma paragraphs_units (text : str) :
  Forall (fun u => stripped u /\ u <> []) (_split_by_paragraphs text).
Proof. apply strip_nonblank_units. Qed.

Lemma sentences_units (text : str) :
  Forall (fun u => stripped u /\ u <> []) (sentences_of text).
Proof.
  unfold sentences_of. apply List.Forall_forall. intros u Hu.
  apply List.in_map_iff in Hu. destruct Hu as [s [<- Hs]].
  pose proof (strip_nonblank_units (split_on is_terminator text)) as F.
  rewrite List.Forall_forall in F. destruct (F s Hs) as [Ss Ns].
  split; [now apply stripped_snoc | now destruct s].
Qed.

(** Where a chunk comes from: the whole text (returned at once), a run of
    consecutive paragraphs glued by blank lines, or a run of consecutive
    sentences of one paragraph that is over the budget. A run of two or more
    units is within the budget. *)
Inductive origin (self : t) (client : option LLMClient.t) (text c : str) : Prop :=
  | origin_text :
      c = text -> cost client c <= chunk_size self ->
      origin self client text c
  | origin_paragraphs (ps : list str) :
      ps <> [] -> run ps (_split_by_paragraphs text) ->
      c = join [LF; LF] ps ->
      cost client c <= chunk_size self \/ length ps = 1%nat ->
      origin self client text c
  | origin_sentences (p : str) (ss : list str) :
      In p (_split_by_paragraphs text) -> chunk_size self < cost client p ->
      ss <> [] -> run ss (sentences_of p) ->
      c = concat ss ->
      cost client c <= chunk_size self \/ length ss = 1%nat ->
      origin self client text c.

Lemma sentence_chunks_origin self client text p :
  In p (_split_by_paragraphs text) ->
  exceeds self client p = true ->
  Forall (origin self client text) (_split_by_sentences self client p).
Proof.
  intros Hp Hex. unfold _split_by_sentences.
  destruct (sentences_of p) as [|s0 ss0] eqn:Es.
  - constructor; [|constructor].
    apply (origin_paragraphs _ _ _ _ [p]); [congruence | now apply run_In | reflexivity | now right].
  - rewrite <- Es.
    rewrite (fold_left_ext _ _ _ _ (sentence_step_greedy self client)).
    apply greedy_chunks.
    + apply sentences_units.
    + intros u Hu Hexu. constructor; [|constructor].
      apply (origin_sentences _ _ _ _ p [u]).
      * exact Hp.
      * now apply exceeds_true.
      * congruence.
      * now apply run_In.
      * simpl. now rewrite app_nil_r.
      * now right.
    + intros us Nus Hrun Hb.
      apply (origin_sentences _ _ _ _ p us).
      * exact Hp.
      * now apply exceeds_true.
      * exact Nus.
      * exact Hrun.
      * apply join_nil_concat.
      * destruct Hb as [Hb|Hb]; [left | now right].
        now apply not_exceeds.
Qed.

Lemma paragraph_chunks_origin self client text :
  Forall (origin self client text) (split_paragraphs self client text).
Proof.
  unfold split_paragraphs.
  rewrite (fold_left_ext _ _ _ _ (paragraph_step_greedy self client)).
  apply greedy_chunks.
  - apply paragraphs_units.
  - intros u Hu Hex. now apply sentence_chunks_origin.
  - intros us Nus Hrun Hb.
    apply (origin_paragraphs _ _ _ _ us); [exact Nus | exact Hrun | reflexivity |].
    destruct Hb as [Hb|Hb]; [left | now right].
    now apply not_exceeds.
Qed.

(** C1, as the code has it. Every chunk returned by [split_by_tokens] is
    within the budget unless it is a single paragraph or a single sentence:
    a chunk is the whole text within the budget, or a run of paragraphs, or
    a run of sentences of one paragraph that was cut into sentences, and a
    run of several paragraphs or of several such sentences never exceeds the
    budget. A chunk over the budget is one paragraph of the text or one
    sentence of one of its paragraphs; such a paragraph may hold several
    sentences. *)
Theorem chunk_budget_invariant self client text c :
  In c (split_by_tokens self client text) ->
  origin self client text c
  /\ (chunk_size self < cost client c ->
      In c (_split_by_paragraphs text)
      \/ exists p, In p (_split_by_paragraphs text) /\ In c (sentences_of p)).
Proof.
  intros Hc.
  assert (Ho : origin self client text c).
  { unfold split_by_tokens in Hc.
    pose proof (paragraph_chunks_origin self client text) as F.
    rewrite List.Forall_forall in F.
    destruct client as [cl|]; [|now apply F].
    destruct (LLMClient.is_token_limit_exceeded cl text (chunk_size self)) eqn:E;
      simpl in Hc; [now apply F|].
    destruct Hc as [<-|[]]. apply origin_text; [reflexivity|].
    now apply (not_exceeds self (Some cl)). }
  split; [exact Ho|]. intros Hover.
  destruct Ho as [E Hle | ps N R E [Hle|Hlen] | p ss Hp Hpo N R E [Hle|Hlen]];
    try lia.
  - left. destruct ps as [|a [|b ps]]; simpl in Hlen; try lia.
    subst c. simpl. now apply run_single_In.
  - right. exists p. split; [exact Hp|].
    destruct ss as [|a [|b ss]]; simpl in Hlen; try lia.
    subst c. simpl. rewrite app_nil_r. now apply run_single_In.
Qed.

End ChunkBudget.

Module ChunkBudgetExamples.

Import TextSplitter.

(** A client whose token count is the number of code points. *)
Definition counting_client : LLMClient.t :=
  {| LLMClient.count_api := fun text => Some (Z.of_nat (length text));
     LLMClient.generate_content := fun _ _ => Ok None |}.

(** Three paragraphs of cost 3 with budget 5: three chunks. *)
Example three_paragraphs :
  split_by_tokens {| chunk_size := 5 |} (Some counting_client)
    (lit "aaa

bbb

ccc")
  = [lit "aaa"; lit "bbb"; lit "ccc"].
Proof. reflexivity. Qed.

(** A paragraph over the budget is split by sentences when the running
    chunk is empty ... *)
Example oversized_first :
  split_by_tokens {| chunk_size := 1 |} None (lit "い。う。

あ")
  = [lit "い。"; lit "う。"; lit "あ"].
Proof. reflexivity. Qed.

(** ... and becomes the running chunk, whole, when it is not. *)
Example oversized_second :
  split_by_tokens {| chunk_size := 1 |} None (lit "あ

い。う。")
  = [lit "あ"; lit "い。う。"].
Proof. reflexivity. Qed.

(** C1, as stated, fails in its last clause: a paragraph over the budget
    that is met with a running chunk becomes the running chunk, whole. Here
    the second chunk is one paragraph of two sentences and of cost 2, with
    the budget 1. *)
Lemma several_sentences_over_budget :
  let self := {| chunk_size := 1 |} in
  let text := lit "あ

い。う。" in
  let c := lit "い。う。" in
  In c (split_by_tokens self None text)
  /\ sentences_of c = [lit "い。"; lit "う。"]
  /\ chunk_size self < cost None c.
Proof. cbv zeta. split; [right; left; reflexivity|]. split; reflexivity. Qed.

Lemma chunk_budget_invariant_witness :
  ChunkBudget.origin {| chunk_size := 1 |} None (lit "あ

い。う。") (lit "い。う。").
Proof.
  apply (proj1 (ChunkBudget.chunk_budget_invariant
                  {| chunk_size := 1 |} None (lit "あ

い。う。") (lit "い。う。") ltac:(right; left; reflexivity))).
Defined.

End ChunkBudgetExamples.

(* ===================================================================== *)
(** ** What the splitter keeps of the text (splitter.py) *)
(* ===================================================================== *)

Module Reassembly.

Import TextSplitter Greedy.

(** The non-blank content of a string. *)
Definition content (s : str) : str :=
  List.filter (fun c => negb (isspace c)) s.

(** The content without the sentence terminators. *)
Definition skeleton (s : str) : str :=
  List.filter (fun c => negb (isspace c) && negb (is_terminator c)) s.

Section Kept.

(** [keep] selects code points; white space is never selected. *)
Variable keep : char -> bool.
Hypothesis keep_ws : forall c, isspace c = true -> keep c = false.

Lemma filter_spaces (ws : str) :
  forallb isspace ws = true -> List.filter keep ws = [].
Proof using keep_ws.
  induction ws as [|c ws IH]; simpl; [reflexivity|].
  intros H. apply andb_true_iff in H. destruct H as [Hc Hws].
  rewrite (keep_ws c Hc). auto.
Qed.

Lemma filter_lstrip (s : str) : List.filter keep (lstrip s) = List.filter keep s.
Proof using keep_ws.
  destruct (lstrip_split s) as [ws [E H]]. rewrite E at 2.
  rewrite List.filter_app, (filter_spaces ws H). reflexivity.
Qed.

Lemma filter_rstrip (s : str) : List.filter keep (rstrip s) = List.filter keep s.
Proof using keep_ws.
  destruct (rstrip_split s) as [ws [E H]]. rewrite E at 2.
  rewrite List.filter_app, (filter_spaces ws H). now rewrite app_nil_r.
Qed.

Lemma filter_strip (s : str) : List.filter keep (strip s) = List.filter keep s.
Proof using keep_ws. unfold strip. now rewrite filter_rstrip, filter_lstrip. Qed.

Lemma filter_strip_nonblank (pieces : list str) :
  List.filter keep (concat (strip_nonblank pieces))
  = List.filter keep (concat pieces).
Proof using keep_ws.
  unfold strip_nonblank. induction pieces as [|p pieces IH]; [reflexivity|].
  simpl concat. rewrite List.filter_app, <- IH, <- (filter_strip p).
  simpl List.map. simpl List.filter. destruct (truthy (strip p)) eqn:T.
  - simpl concat. now rewrite List.filter_app.
  - apply truthy_false in T. now rewrite T.
Qed.

Lemma filter_join (sep : str) (l : list str) :
  List.filter keep sep = [] ->
  List.filter keep (join sep l) = List.filter keep (concat l).
Proof.
  intros Hsep. induction l as [|a l IH]; [reflexivity|].
  destruct l as [|b l].
  - simpl. now rewrite app_nil_r.
  - change (join sep (a :: b :: l)) with (a ++ sep ++ join sep (b :: l)).
    change (concat (a :: b :: l)) with (a ++ concat (b :: l)).
    rewrite !List.filter_app, Hsep, IH. reflexivity.
Qed.

(** *** The paragraph scan drops white space only *)

Lemma match_ws_nl_spaces (s : str) (n : nat) :
  match_ws_nl s = Some n -> forallb isspace (firstn n s) = true.
Proof.
  revert n. induction s as [|c s IH]; intros n; simpl; [discriminate|].
  destruct (isspace c) eqn:Hc; [|discriminate].
  destruct (match_ws_nl s) as [m|].
  - intros [= <-]. simpl. rewrite Hc. now apply IH.
  - destruct (c =? LF); [|discriminate]. intros [= <-]. simpl. now rewrite Hc.
Qed.

Lemma re_split_blank_kept (s : str) (skip : nat) (piece : str) :
  forallb isspace (firstn skip s) = true ->
  List.filter keep (concat (re_split_blank s skip piece))
  = List.filter keep piece ++ List.filter keep s.
Proof using keep_ws.
  revert skip piece. induction s as [|c s IH]; intros skip piece Hskip.
  - simpl. now rewrite !app_nil_r.
  - destruct skip as [|k].
    + assert (Hplain : List.filter keep (concat (re_split_blank s 0 (piece ++ [c])))
                       = List.filter keep piece ++ List.filter keep (c :: s)).
      { rewrite IH by reflexivity. rewrite List.filter_app, <- app_assoc.
        f_equal. simpl. destruct (keep c); reflexivity. }
      simpl re_split_blank. destruct (c =? LF) eqn:Ec; [|exact Hplain].
      destruct (match_ws_nl s) as [n|] eqn:Em; [|exact Hplain].
      simpl concat. rewrite List.filter_app, IH by now apply match_ws_nl_spaces.
      apply Z.eqb_eq in Ec. subst c. simpl.
      rewrite (keep_ws LF) by reflexivity. reflexivity.
    + simpl in Hskip. apply andb_true_iff in Hskip. destruct Hskip as [Hc Hk].
      simpl re_split_blank. rewrite IH by exact Hk.
      simpl. now rewrite (keep_ws c Hc).
Qed.

Lemma paragraphs_kept (text : str) :
  List.filter keep (concat (_split_by_paragraphs text)) = List.filter keep text.
Proof using keep_ws.
  unfold _split_by_paragraphs.
  rewrite filter_strip_nonblank, re_split_blank_kept by reflexivity.
  reflexivity.
Qed.

(** *** The greedy loop keeps what its fallback keeps *)

Lemma greedy_kept (sep : str) (fallback : str -> list str) (ex : str -> bool)
    (units : list str) :
  List.filter keep sep = [] ->
  (forall u, In u units ->
             List.filter keep (concat (fallback u)) = List.filter keep u) ->
  List.filter keep
    (concat (flush (fold_left (greedy_step sep fallback ex) units ([], []))))
  = List.filter keep (concat units).
Proof using keep_ws.
  intros Hsep Hfb.
  pose (P := fun (done : list str) (st : list str * str) =>
               List.filter keep (concat (fst st) ++ snd st)
               = List.filter keep (concat done)).
  assert (Hfin : P units (fold_left (greedy_step sep fallback ex) units ([], []))).
  { apply fold_left_invariant; [reflexivity|].
    intros done x rest [chunks cur] E Hst. unfold P in *. simpl in Hst.
    assert (Hd : List.filter keep (concat (done ++ [x]))
                 = List.filter keep (concat chunks) ++ List.filter keep cur
                   ++ List.filter keep x).
    { rewrite List.concat_app, List.filter_app, <- Hst. simpl concat.
      now rewrite app_nil_r, List.filter_app, <- app_assoc. }
    rewrite Hd. clear Hd Hst. unfold greedy_step.
    assert (Hin : In x units) by (rewrite E; apply in_or_app; right; now left).
    destruct (truthy cur) eqn:Tc.
    - destruct (ex (cur ++ sep ++ x)); cbn [fst snd].
      + rewrite List.concat_app. cbn [concat].
        now rewrite app_nil_r, !List.filter_app, filter_strip, <- app_assoc.
      + now rewrite !List.filter_app, Hsep.
    - apply truthy_false in Tc. subst cur.
      destruct (ex x); cbn [fst snd].
      + rewrite List.concat_app, app_nil_r, List.filter_app, (Hfb x Hin).
        reflexivity.
      + now rewrite List.filter_app. }
  destruct (fold_left (greedy_step sep fallback ex) units ([], []))
    as [chunks cur].
  unfold P in Hfin. simpl in Hfin. rewrite <- Hfin. unfold flush.
  destruct (truthy cur) eqn:Tc.
  - rewrite List.concat_app. cbn [concat].
    now rewrite app_nil_r, !List.filter_app, filter_strip.
  - apply truthy_false in Tc. subst cur. now rewrite app_nil_r.
Qed.

(** *** The sentence splitter drops white space and terminators only *)

Hypothesis keep_term : forall c, is_terminator c = true -> keep c = false.

Lemma split_on_terminators_kept (s : str) :
  List.filter keep (concat (split_on is_terminator s)) = List.filter keep s.
Proof using keep_term.
  induction s as [|c s IH]; [reflexivity|]. simpl.
  destruct (is_terminator c) eqn:Hc.
  - simpl. now rewrite (keep_term c Hc).
  - destruct (split_on is_terminator s) as [|piece rest]; simpl in *.
    + rewrite <- IH. reflexivity.
    + rewrite <- IH. reflexivity.
Qed.

Lemma concat_map_snoc_kept (l : list str) (c : char) :
  keep c = false ->
  List.filter keep (concat (List.map (fun s => s ++ [c]) l))
  = List.filter keep (concat l).
Proof.
  intros Hc. induction l as [|a l IH]; [reflexivity|]. simpl.
  rewrite !List.filter_app, IH. simpl. rewrite Hc. now rewrite app_nil_r.
Qed.

Lemma sentences_kept (text : str) :
  List.filter keep (concat (sentences_of text)) = List.filter keep text.
Proof using keep_ws keep_term.
  unfold sentences_of.
  rewrite concat_map_snoc_kept by (apply keep_term; reflexivity).
  rewrite filter_strip_nonblank. apply split_on_terminators_kept.
Qed.

Lemma split_by_sentences_kept self client (text : str) :
  List.filter keep (concat (_split_by_sentences self client text))
  = List.filter keep text.
Proof using keep_ws keep_term.
  unfold _split_by_sentences.
  destruct (sentences_of text) as [|s0 ss0] eqn:Es.
  - simpl. now rewrite app_nil_r.
  - rewrite <- Es.
    rewrite (fold_left_ext _ _ _ _ (sentence_step_greedy self client)).
    rewrite greedy_kept; [apply sentences_kept | reflexivity |].
    intros u _. simpl. now rewrite app_nil_r.
Qed.

Lemma split_paragraphs_kept self client (text : str) :
  List.filter keep (concat (split_paragraphs self client text))
  = List.filter keep text.
Proof using keep_ws keep_term.
  unfold split_paragraphs.
  rewrite (fold_left_ext _ _ _ _ (paragraph_step_greedy self client)).
  rewrite greedy_kept; [apply paragraphs_kept | |].
  - simpl. rewrite (keep_ws LF) by reflexivity. reflexivity.
  - intros u _. apply split_by_sentences_kept.
Qed.

End Kept.

End Reassembly.

Module ReassemblyResults.

Import TextSplitter Reassembly.

Lemma skeleton_keep_ws (c : char) :
  isspace c = true -> negb (isspace c) && negb (is_terminator c) = false.
Proof. intros ->. reflexivity. Qed.

Lemma skeleton_keep_term (c : char) :
  is_terminator c = true -> negb (isspace c) && negb (is_terminator c) = false.
Proof. intros ->. apply andb_false_r. Qed.

Lemma content_keep_ws (c : char) : isspace c = true -> negb (isspace c) = false.
Proof. intros ->. reflexivity. Qed.

(** Splitting into paragraphs loses white space only. *)
Lemma paragraphs_content (text : str) :
  content (concat (_split_by_paragraphs text)) = content text.
Proof. apply paragraphs_kept. exact content_keep_ws. Qed.

(** What is kept whatever the path taken: the chunks of [split_by_tokens],
    concatenated, are the text, in order, up to white space and the sentence
    terminators 。！？; no other code point is dropped, added or moved. *)
Lemma reassembly_up_to_terminators self client text :
  skeleton (concat (split_by_tokens self client text)) = skeleton text.
Proof.
  assert (H : skeleton (concat (split_paragraphs self client text))
              = skeleton text).
  { apply split_paragraphs_kept; [exact skeleton_keep_ws | exact skeleton_keep_term]. }
  unfold split_by_tokens. destruct client as [cl|]; [|exact H].
  destruct (negb (LLMClient.is_token_limit_exceeded cl text (chunk_size self)));
    [|exact H].
  simpl. now rewrite app_nil_r.
Qed.

(** C2 fails on a paragraph that is cut into sentences: [re.split] drops
    the terminator and [_split_by_sentences] puts 。 behind every sentence,
    whatever the terminator was. Here the text is one paragraph of cost 2,
    over the budget 1; its ？ is in no chunk. *)
Lemma reassembly_drops_terminator :
  let text := lit "あ？い" in
  let chunks := split_by_tokens {| chunk_size := 1 |} None text in
  chunks = [lit "あ。"; lit "い。"]
  /\ content (concat chunks) <> content text
  /\ In QUESTION text /\ ~ In QUESTION (concat chunks).
Proof.
  cbv zeta. split; [reflexivity|]. split; [|split].
  - vm_compute. discriminate.
  - vm_compute. tauto.
  - vm_compute. intros H. repeat (destruct H as [H|H]; [discriminate H|]).
    exact H.
Qed.

End ReassemblyResults.

Module EarlyReturn.

Import TextSplitter.

(** C4, as the code has it. When a client is passed and the text costs no
    more than the budget by the client's count (the exact count, or the
    estimate when the count request fails), the text is returned alone and
    unchanged. *)
Theorem within_budget_with_client self (c : LLMClient.t) text :
  LLMClient.count_tokens c text <= chunk_size self ->
  split_by_tokens self (Some c) text = [text].
Proof.
  intros H. unfold split_by_tokens, LLMClient.is_token_limit_exceeded.
  apply Z.ltb_ge in H. now rewrite H.
Qed.

(** A client whose count request always fails: the cost is the estimate. *)
Definition failing_counter : LLMClient.t :=
  {| LLMClient.count_api := fun _ => None;
     LLMClient.generate_content := fun _ _ => Ok None |}.

Lemma within_budget_with_client_witness :
  split_by_tokens (init Config.default None) (Some failing_counter) (lit "a


b")
  = [lit "a


b"].
Proof.
  apply within_budget_with_client. vm_compute. discriminate.
Defined.

(** C4, as stated, fails when no client is passed: the test before the
    loop is skipped, and a text within the budget (estimate 2, budget 800)
    still goes through the paragraph loop, which normalises it. *)
Lemma within_budget_without_client :
  let self := init Config.default None in
  let text := lit "a


b" in
  cost None text <= chunk_size self
  /\ split_by_tokens self None text = [lit "a

b"]
  /\ split_by_tokens self None text <> [text].
Proof.
  cbv zeta. split; [|split].
  - vm_compute. discriminate.
  - reflexivity.
  - vm_compute. discriminate.
Qed.

(** Without a client an empty text gives no chunk at all. *)
Example empty_text_without_client :
  split_by_tokens (init Config.default None) None [] = [].
Proof. reflexivity. Qed.

End EarlyReturn.

(* ===================================================================== *)
(** ** splitter.py: [split_script_for_tts] *)
(* ===================================================================== *)

Module ScriptSplitter.

Import TextSplitter.

(** [s] without the prefix [prefix], when it starts with it. *)
Fixpoint strip_prefix (prefix s : str) : option str :=
  match prefix, s with
  | [], _ => Some s
  | _ :: _, [] => None
  | a :: prefix', b :: s' => if a =? b then strip_prefix prefix' s' else None
  end.

Fixpoint skip_decimals (s : str) : str :=
  match s with
  | [] => []
  | c :: s' => if isdecimal c then skip_decimals s' else s
  end.

(** [\s*(.+)$] under [re.MULTILINE] at the head of [r]: some code point
    other than a line feed follows leading white space ([.] does not match a
    line feed, [$] holds at the end and in front of a line feed). *)
Fixpoint utterance_matches (r : str) : bool :=
  match r with
  | [] => false
  | c :: r' => negb (c =? LF) || (isspace c && utterance_matches r')
  end.

Definition COLON : char := 58.

(** One alternative of the label, [prefix] followed by [\d+], then
    [:\s*(.+)$]. *)
Definition label_matches (prefix line : str) : bool :=
  match strip_prefix prefix line with
  | Some (d :: r) =>
      isdecimal d
      && match skip_decimals r with
         | c :: rest => (c =? COLON) && utterance_matches rest
         | [] => false
         end
  | _ => false
  end.

(** [re.match(r'^(Speaker \d+|S\d+):\s*(.+)$', line, re.MULTILINE)] is not
    [None]. *)
Definition is_speaker_line (line : str) : bool :=
  label_matches (lit "Speaker ") line || label_matches (lit "S") line.

Definition nonempty {A : Type} (l : list A) : bool :=
  match l with [] => false | _ :: _ => true end.

(** One turn of the loop over [script.split('\n')], on the state
    [(chunks, current_chunk, current_tokens)]. *)
Definition line_step (self : t) (st : list str * list str * Z) (raw : str)
    : list str * list str * Z :=
  let '(chunks, current_chunk, current_tokens) := st in
  let line := strip raw in
  if negb (truthy line) then st
  else if is_speaker_line line then
    let line_tokens := _estimate_tokens line in
    if (chunk_size self <? current_tokens + line_tokens) && nonempty current_chunk
    then (chunks ++ [join [LF] current_chunk], [line], line_tokens)
    else (chunks, current_chunk ++ [line], current_tokens + line_tokens)
  else (chunks, current_chunk ++ [line], current_tokens + _estimate_tokens line).

Definition split_script_for_tts (self : t) (script : str) : list str :=
  let '(chunks, current_chunk, _) :=
    fold_left (line_step self) (split_char LF script) ([], [], 0) in
  if nonempty current_chunk then chunks ++ [join [LF] current_chunk]
  else chunks.

(** The lines the loop works on: stripped, blank lines dropped. *)
Definition script_lines (script : str) : list str :=
  strip_nonblank (split_char LF script).

(** The sum the loop keeps in [current_tokens]. *)
Definition sum_tokens (lines : list str) : Z :=
  fold_right Z.add 0 (List.map _estimate_tokens lines).

(** The budget test as it bears on a chunk: up to every speaker line that
    is not the first line of the chunk, the per-line estimates add up to the
    budget at most. *)
Definition speaker_bounded (self : t) (lines : list str) : Prop :=
  forall pre l post,
    lines = pre ++ l :: post -> pre <> [] -> is_speaker_line l = true ->
    sum_tokens (pre ++ [l]) <= chunk_size self.

(** A chunk is a run of lines of the script, joined by line feeds. *)
Definition chunk_of_lines (self : t) (script c : str) : Prop :=
  exists lines, lines <> [] /\ run lines (script_lines script)
                /\ c = join [LF] lines /\ speaker_bounded self lines.

End ScriptSplitter.

Module ScriptSplitterExamples.

Import TextSplitter ScriptSplitter.

Example speaker_lines :
  List.map is_speaker_line
    [lit "Speaker 1: hello"; lit "S2: はい"; lit "S12:x"; lit "Speaker: x";
     lit "S1:"; lit "Speaker 1 : x"; lit "(music)"; lit "S１: x"]
  = [true; true; true; false; false; false; false; true].
Proof. reflexivity. Qed.

Example tts_chunks :
  split_script_for_tts {| chunk_size := 8 |}
    (lit "Speaker 1: a
   
  S2: bb
note
S1: c")
  = [lit "Speaker 1: a"; lit "S2: bb
note"; lit "S1: c"].
Proof. reflexivity. Qed.

End ScriptSplitterExamples.

Module ScriptBudget.

Import TextSplitter ScriptSplitter.

Lemma sum_tokens_app (a b : list str) :
  sum_tokens (a ++ b) = sum_tokens a + sum_tokens b.
Proof.
  unfold sum_tokens. induction a as [|x a IH]; simpl; [reflexivity|].
  rewrite IH. lia.
Qed.

Lemma nonempty_true {A : Type} (l : list A) : nonempty l = true <-> l <> [].
Proof. destruct l; simpl; split; congruence. Qed.

(** The two ways a line sits in a list that ends with [x]. *)
Lemma snoc_split {A : Type} (cur pre post : list A) (x l : A) :
  cur ++ [x] = pre ++ l :: post ->
  (post = [] /\ pre = cur /\ l = x)
  \/ exists post', post = post' ++ [x] /\ cur = pre ++ l :: post'.
Proof.
  intros E. destruct (exists_last (l := l :: post)) as [q [y Eq]]; [congruence|].
  rewrite Eq, app_assoc in E. apply app_inj_tail in E. destruct E as [E1 E2].
  subst y. destruct post as [|p post].
  - left. destruct q as [|? [|? ?]]; simpl in Eq; try discriminate.
    injection Eq as ->. rewrite app_nil_r in E1. auto.
  - right. destruct (exists_last (l := p :: post)) as [q' [y' Eq']]; [congruence|].
    rewrite Eq' in Eq.
    change (l :: q' ++ [y']) with ((l :: q') ++ [y']) in Eq.
    apply app_inj_tail in Eq. destruct Eq as [Eq1 Eq2]. subst q y'.
    exists q'. split; [exact Eq'|]. exact E1.
Qed.

Lemma speaker_bounded_single self (l : str) : speaker_bounded self [l].
Proof.
  intros pre l' post E N _. exfalso.
  destruct pre as [|a pre]; [congruence|].
  destruct pre; discriminate.
Qed.

Lemma speaker_bounded_nil self : speaker_bounded self [].
Proof. intros pre l post E. destruct pre; discriminate. Qed.

Lemma strip_nonblank_app (a b : list str) :
  strip_nonblank (a ++ b) = strip_nonblank a ++ strip_nonblank b.
Proof. unfold strip_nonblank. now rewrite List.map_app, List.filter_app. Qed.

(** The state of the loop after the raw lines [done]. *)
Definition loop_inv (self : t) (script : str) (done : list str)
    (st : list str * list str * Z) : Prop :=
  let '(chunks, cur, tokens) := st in
  Forall (chunk_of_lines self script) chunks
  /\ tokens = sum_tokens cur
  /\ (exists pre, strip_nonblank done = pre ++ cur)
  /\ speaker_bounded self cur.

Lemma strip_nonblank_one (raw : str) :
  strip_nonblank [raw] = if truthy (strip raw) then [strip raw] else [].
Proof. unfold strip_nonblank. simpl. now destruct (truthy (strip raw)). Qed.

Lemma line_step_inv self script done raw rest st :
  split_char LF script = done ++ raw :: rest ->
  loop_inv self script done st ->
  loop_inv self script (done ++ [raw]) (line_step self st raw).
Proof.
  intros E. destruct st as [[chunks cur] tokens].
  intros [Hg [Ht [[pre Hpre] Hb]]].
  assert (Hall : script_lines script
                 = strip_nonblank done ++ strip_nonblank [raw] ++ strip_nonblank rest).
  { unfold script_lines. rewrite E.
    change (raw :: rest) with ([raw] ++ rest). now rewrite !strip_nonblank_app. }
  assert (Hdone : strip_nonblank (done ++ [raw])
                  = strip_nonblank done ++ strip_nonblank [raw])
    by apply strip_nonblank_app.
  rewrite strip_nonblank_one in Hall, Hdone. rewrite Hpre in Hall, Hdone.
  unfold line_step.
  destruct (truthy (strip raw)) eqn:Tl; simpl negb; cbv iota.
  - (* a line that is not blank *)
    assert (Hext : (cur <> [] -> is_speaker_line (strip raw) = true ->
                    tokens + _estimate_tokens (strip raw) <= chunk_size self) ->
                   speaker_bounded self (cur ++ [strip raw])).
    { intros Hlast pre' l post E' N S.
      apply snoc_split in E'. destruct E' as [[-> [-> ->]]|[post' [-> ->]]].
      - rewrite sum_tokens_app, <- Ht. unfold sum_tokens. simpl.
        specialize (Hlast N S). lia.
      - apply (Hb pre' l post'); auto. }
    assert (Hnext : exists pre0,
               strip_nonblank (done ++ [raw]) = pre0 ++ cur ++ [strip raw]).
    { exists pre. rewrite Hdone. now rewrite app_assoc. }
    assert (Hsum : tokens + _estimate_tokens (strip raw)
                   = sum_tokens (cur ++ [strip raw])).
    { rewrite sum_tokens_app, <- Ht. unfold sum_tokens. simpl. lia. }
    destruct (is_speaker_line (strip raw)) eqn:Sp.
    + destruct ((chunk_size self <? tokens + _estimate_tokens (strip raw))
                && nonempty cur) eqn:Over.
      * apply andb_true_iff in Over. destruct Over as [_ Ne].
        apply nonempty_true in Ne.
        split; [|split; [|split]].
        -- apply Forall_app. split; [exact Hg|]. constructor; [|constructor].
           exists cur. split; [exact Ne|]. split; [|split; [reflexivity|exact Hb]].
           exists pre, ([strip raw] ++ strip_nonblank rest).
           rewrite Hall. now rewrite <- !app_assoc.
        -- unfold sum_tokens. simpl. lia.
        -- exists (pre ++ cur). exact Hdone.
        -- apply speaker_bounded_single.
      * split; [exact Hg|]. split; [exact Hsum|]. split; [exact Hnext|].
        apply Hext. intros N _.
        apply andb_false_iff in Over. destruct Over as [Over|Over].
        -- apply Z.ltb_ge in Over. exact Over.
        -- apply nonempty_true in N. congruence.
    + split; [exact Hg|]. split; [exact Hsum|]. split; [exact Hnext|].
      apply Hext. intros _ S. congruence.
  - (* a blank line is skipped *)
    rewrite app_nil_r in Hdone.
    split; [exact Hg|]. split; [exact Ht|]. split; [now exists pre | exact Hb].
Qed.

(** C3, as the code has it. Every chunk of [split_script_for_tts] is a run
    of the script's non-blank lines, joined by line feeds, in which the
    per-line estimates summed up to any speaker line that is not the first
    line of the chunk stay within the budget. Nothing is said of lines
    without a speaker label (they are added without a test), nor of the
    estimate of the joined chunk. So, in a script whose lines all carry a
    speaker label, a chunk of two or more lines has per-line estimates that
    add up to the budget at most. *)
Theorem script_chunk_invariant self script c :
  In c (split_script_for_tts self script) ->
  chunk_of_lines self script c
  /\ (Forall (fun l => is_speaker_line l = true) (script_lines script) ->
      exists lines, c = join [LF] lines
        /\ ((length lines = 1)%nat \/ sum_tokens lines <= chunk_size self)).
Proof.
  intros Hc.
  assert (Hl : chunk_of_lines self script c).
  { unfold split_script_for_tts in Hc.
    pose proof (fold_left_invariant (line_step self) (loop_inv self script)
                  (split_char LF script) ([], [], 0)) as F.
    assert (Hfin : loop_inv self script (split_char LF script)
                     (fold_left (line_step self) (split_char LF script) ([], [], 0))).
    { apply F.
      - repeat split; [constructor | now exists [] | apply speaker_bounded_nil].
      - intros done x rest st E Hst. eapply line_step_inv; eauto. }
    destruct (fold_left (line_step self) (split_char LF script) ([], [], 0))
      as [[chunks cur] tokens].
    destruct Hfin as [Hg [Ht [[pre Hpre] Hb]]].
    rewrite List.Forall_forall in Hg.
    destruct (nonempty cur) eqn:Ne; [|now apply Hg].
    apply in_app_or in Hc. destruct Hc as [Hc|[<-|[]]]; [now apply Hg|].
    exists cur. split; [now apply nonempty_true|].
    split; [|split; [reflexivity|exact Hb]].
    exists pre, []. unfold script_lines. now rewrite app_nil_r. }
  split; [exact Hl|]. intros Hall.
  destruct Hl as [lines [Ne [[pre [post Hrun]] [E Hb]]]].
  exists lines. split; [exact E|].
  destruct (exists_last Ne) as [q [l El]]. subst lines.
  destruct q as [|a q]; [now left | right].
  apply (Hb (a :: q) l []); [reflexivity | congruence |].
  rewrite List.Forall_forall in Hall. apply Hall. rewrite Hrun.
  apply in_or_app. right. apply in_or_app. left. apply in_or_app. right. now left.
Qed.

End ScriptBudget.

Module ScriptBudgetExamples.

Import TextSplitter ScriptSplitter.

Lemma script_chunk_invariant_witness :
  chunk_of_lines {| chunk_size := 8 |}
    (lit "Speaker 1: a
S2: bb
note
S1: c")
    (lit "S2: bb
note").
Proof.
  apply (proj1 (ScriptBudget.script_chunk_invariant {| chunk_size := 8 |}
                  (lit "Speaker 1: a
S2: bb
note
S1: c")
                  (lit "S2: bb
note") ltac:(right; left; reflexivity))).
Defined.

(** C3, as stated, fails. Lines without a speaker label are added to the
    running chunk without a test: two such lines of 2 tokens each make one
    chunk of estimate 4 under the budget 3. *)
Lemma unlabelled_lines_over_budget :
  let self := {| chunk_size := 3 |} in
  let script := lit "abc
def" in
  let c := lit "abc
def" in
  split_script_for_tts self script = [c]
  /\ script_lines script = [lit "abc"; lit "def"]
  /\ chunk_size self < _estimate_tokens c
  /\ chunk_size self < sum_tokens (script_lines script)
  /\ ~ In c (script_lines script).
Proof.
  cbv zeta. repeat split; try reflexivity.
  vm_compute. intros [H|[H|[]]]; discriminate H.
Qed.

(** The test adds per-line estimates; the estimate of the joined chunk can
    be over the budget for speaker lines too: two lines of 3 tokens each
    pass the test under the budget 6 and make a chunk of estimate 7. *)
Example speaker_lines_over_budget :
  let self := {| chunk_size := 6 |} in
  let script := lit "S1: a
S2: b" in
  split_script_for_tts self script = [script]
  /\ sum_tokens (script_lines script) = 6
  /\ _estimate_tokens script = 7.
Proof. cbv zeta. repeat split; reflexivity. Qed.

End ScriptBudgetExamples.

(* ===================================================================== *)
(** ** pipeline/build_script.py: the script merger *)
(* ===================================================================== *)

Module ScriptMerger.

Section Merger.

(** [str.lower], the Unicode case mapping of the interpreter. *)
Variable lower : str -> str.

Definition intro_words : list str :=
  [lit "こんにちは"; lit "はじめに"; lit "今回は"; lit "welcome"; lit "hello"].

(** The test of the loop of [_remove_introduction]:
    [line.strip() and not any(intro_word in line.lower() for ...)]. *)
Definition is_content_line (line : str) : bool :=
  truthy (strip line)
  && negb (existsb (fun intro_word => contains intro_word (lower line)) intro_words).

(** The loop with its [break]: [start_index] is the index of the first line
    that passes the test, and stays 0 when no line does. [i] is the index of
    the head of [lines]. *)
Fixpoint start_index_from (i : nat) (lines : list str) : nat :=
  match lines with
  | [] => 0%nat
  | line :: rest =>
      if is_content_line line then i else start_index_from (S i) rest
  end.

(** [_remove_introduction] *)
Definition _remove_introduction (script : str) : str :=
  let lines := split_char LF script in
  join [LF] (skipn (start_index_from 0 lines) lines).

(** One turn of the loop of [_merge_script_parts] on
    [(merged_script, i)]. *)
Definition merge_step (st : list str * nat) (part : str) : list str * nat :=
  let '(merged_script, i) := st in
  if Nat.eqb i 0 then (merged_script ++ [part], S i)
  else
    let cleaned_part := _remove_introduction part in
    if truthy cleaned_part
    then (merged_script ++ [[LF; LF] ++ cleaned_part], S i)
    else (merged_script, S i).

(** [_merge_script_parts] *)
Definition _merge_script_parts (script_parts : list str) : str :=
  match script_parts with
  | [] => []
  | [part] => part
  | _ => concat (fst (fold_left merge_step script_parts ([], 0%nat)))
  end.

(** What the merger appends for a fragment that is not the first. *)
Definition appended (part : str) : str :=
  if truthy (_remove_introduction part)
  then [LF; LF] ++ _remove_introduction part
  else [].

(** The stripped form of a fragment: it starts at the first line that is
    not blank and holds no intro word; the whole fragment when there is no
    such line. *)
Definition stripped_form (fragment result : str) : Prop :=
  let lines := split_char LF fragment in
  (exists pre l post,
      lines = pre ++ l :: post
      /\ Forall (fun x => is_content_line x = false) pre
      /\ is_content_line l = true
      /\ result = join [LF] (l :: post))
  \/ (Forall (fun x => is_content_line x = false) lines /\ result = fragment).

End Merger.

End ScriptMerger.

Module ScriptMergerFacts.

Import ScriptMerger.

Lemma split_on_nonempty (p : char -> bool) (s : str) : split_on p s <> [].
Proof.
  destruct s as [|c s]; simpl; [discriminate|].
  destruct (p c); [discriminate|]. destruct (split_on p s); discriminate.
Qed.

(** Splitting at a separator and joining with it gives the string back. *)
Lemma join_split_char (sep : char) (s : str) :
  join [sep] (split_char sep s) = s.
Proof.
  unfold split_char. induction s as [|c s IH]; [reflexivity|].
  simpl split_on. pose proof (split_on_nonempty (Z.eqb sep) s) as N.
  destruct (sep =? c) eqn:E.
  - apply Z.eqb_eq in E. subst c.
    destruct (split_on (Z.eqb sep) s) as [|x l]; [congruence|].
    change (join [sep] ([] :: x :: l)) with ([] ++ [sep] ++ join [sep] (x :: l)).
    rewrite IH. reflexivity.
  - destruct (split_on (Z.eqb sep) s) as [|x l]; [congruence|].
    rewrite <- IH. destruct l; reflexivity.
Qed.

Lemma skipn_length_app {A : Type} (pre l : list A) :
  skipn (length pre) (pre ++ l) = l.
Proof. induction pre as [|a pre IH]; [reflexivity | exact IH]. Qed.

Section Merger.

Variable lower : str -> str.

Lemma start_index_from_spec (lines : list str) (i : nat) :
  (exists pre l post,
      lines = pre ++ l :: post
      /\ Forall (fun x => is_content_line lower x = false) pre
      /\ is_content_line lower l = true
      /\ start_index_from lower i lines = (i + length pre)%nat)
  \/ (Forall (fun x => is_content_line lower x = false) lines
      /\ start_index_from lower i lines = 0%nat).
Proof.
  revert i. induction lines as [|line rest IH]; intros i.
  - right. split; [constructor | reflexivity].
  - simpl. destruct (is_content_line lower line) eqn:T.
    + left. exists [], line, rest. simpl. repeat split; auto.
    + destruct (IH (S i)) as [[pre [l [post [E [F [C S']]]]]]|[F S']].
      * left. exists (line :: pre), l, post. simpl. rewrite S', E.
        repeat split; auto; lia.
      * right. split; [now constructor | exact S'].
Qed.

Lemma remove_introduction_stripped_form (fragment : str) :
  stripped_form lower fragment (_remove_introduction lower fragment).
Proof.
  unfold stripped_form, _remove_introduction. cbv zeta.
  destruct (start_index_from_spec (split_char LF fragment) 0)
    as [[pre [l [post [E [F [C S']]]]]]|[F S']].
  - left. exists pre, l, post. repeat split; auto.
    rewrite S', E. change (0 + length pre)%nat with (length pre).
    now rewrite skipn_length_app.
  - right. split; [exact F|]. rewrite S'. simpl. apply join_split_char.
Qed.

Lemma merge_fold_rest (parts : list str) (merged : list str) (i : nat) :
  i <> 0%nat ->
  concat (fst (fold_left (merge_step lower) parts (merged, i)))
  = concat merged ++ concat (List.map (appended lower) parts).
Proof.
  revert merged i. induction parts as [|p parts IH]; intros merged i Hi.
  - simpl. now rewrite app_nil_r.
  - cbn [fold_left].
    assert (Hstep : merge_step lower (merged, i) p
                    = (merged ++ (if truthy (_remove_introduction lower p)
                                  then [[LF; LF] ++ _remove_introduction lower p]
                                  else []), S i)).
    { unfold merge_step. destruct (Nat.eqb_spec i 0) as [->|_]; [congruence|].
      destruct (truthy (_remove_introduction lower p));
        [reflexivity | now rewrite app_nil_r]. }
    rewrite Hstep, IH by lia. cbn [List.map concat]. unfold appended.
    rewrite List.concat_app.
    destruct (truthy (_remove_introduction lower p)); cbn [concat];
      now rewrite ?app_nil_r, <- ?app_assoc.
Qed.

(** C5. The merger keeps the first fragment and appends, after a blank
    line, the stripped form of every later fragment (nothing when that form
    is empty); the stripped form starts at the first line that is not blank
    and holds none of the intro words, in any case, and is the whole
    fragment when every line is blank or holds an intro word. *)
Theorem intro_stripping (first second : str) (rest : list str) :
  _merge_script_parts lower (first :: second :: rest)
  = first ++ concat (List.map (appended lower) (second :: rest))
  /\ forall fragment,
       stripped_form lower fragment (_remove_introduction lower fragment).
Proof.
  split; [|exact remove_introduction_stripped_form].
  unfold _merge_script_parts.
  change (fold_left (merge_step lower) (first :: second :: rest) ([], 0%nat))
    with (fold_left (merge_step lower) (second :: rest) ([first], 1%nat)).
  rewrite merge_fold_rest by lia. simpl concat at 1. now rewrite app_nil_r.
Qed.

End Merger.

Example remove_greeting :
  _remove_introduction ascii_lower (lit "S1: Hello, 今日は
  
S2: こんにちは
S1: 本題です
S2: Welcome back") = lit "S1: 本題です
S2: Welcome back".
Proof. reflexivity. Qed.

Example all_intro_kept :
  _remove_introduction ascii_lower (lit "S1: HELLO

S2: こんにちは") = lit "S1: HELLO

S2: こんにちは".
Proof. reflexivity. Qed.

Example merge_two :
  _merge_script_parts ascii_lower
    [lit "S1: hello
S2: a"; lit "S1: こんにちは、今回は
S2: b"]
  = lit "S1: hello
S2: a

S2: b".
Proof. reflexivity. Qed.

Example merge_single : _merge_script_parts ascii_lower [lit "x"] = lit "x".
Proof. reflexivity. Qed.

End ScriptMergerFacts.

(* ===================================================================== *)
(** ** generator/tts_client.py *)
(* ===================================================================== *)

Module PyInt.

(** [int(s)] for a string, base 10: white space around, an optional sign,
    decimal digits of any script, single underscores between digits.
    [None] stands for [ValueError]. The white space of [int] is that of
    [str.isspace] without the separators U+001C to U+001F. Interpreters from
    3.11 on reject more than 4300 digits. *)

Definition MINUS : char := 45.
Definition PLUS : char := 43.
Definition UNDERSCORE : char := 95.
Definition max_str_digits : Z := 4300.

Definition int_space (c : char) : bool :=
  ((9 <=? c) && (c <=? 13)) || (c =? 32) || ((127 <=? c) && isspace c).

Fixpoint ltrim (s : str) : str :=
  match s with
  | [] => []
  | c :: s' => if int_space c then ltrim s' else s
  end.

Definition trim (s : str) : str := rev (ltrim (rev (ltrim s))).

(** [acc] is the value of the digits read, [n] their number, [after_digit]
    tells whether the last code point read was a digit. *)
Fixpoint digits_from (acc n : Z) (after_digit : bool) (s : str) : option Z :=
  match s with
  | [] => if after_digit && (n <=? max_str_digits) then Some acc else None
  | c :: s' =>
      if c =? UNDERSCORE then
        if after_digit then digits_from acc n false s' else None
      else
        match decimal_value c with
        | Some d => digits_from (10 * acc + d) (n + 1) true s'
        | None => None
        end
  end.

Definition digits (s : str) : option Z := digits_from 0 0 false s.

Definition py_int (s : str) : option Z :=
  match trim s with
  | [] => None
  | c :: r =>
      if c =? MINUS then option_map Z.opp (digits r)
      else if c =? PLUS then digits r
      else digits (c :: r)
  end.

End PyInt.

Module Struct.

(** [struct.pack] with a little-endian format of [4s], [I] and [H] items.
    [None] stands for [struct.error]: a value out of the range of its
    item. *)
Inductive item : Type :=
  | Bytes4 (b : list Z)   (* 4s *)
  | U32 (v : Z)           (* I *)
  | U16 (v : Z).          (* H *)

Fixpoint le_bytes (n : nat) (v : Z) : list Z :=
  match n with
  | O => []
  | S n' => (v mod 256) :: le_bytes n' (v / 256)
  end.

Definition pack_item (i : item) : option (list Z) :=
  match i with
  | Bytes4 b => Some (firstn 4 (b ++ [0; 0; 0; 0]))
  | U32 v => if (0 <=? v) && (v <? 4294967296) then Some (le_bytes 4 v) else None
  | U16 v => if (0 <=? v) && (v <? 65536) then Some (le_bytes 2 v) else None
  end.

Fixpoint pack (items : list item) : option (list Z) :=
  match items with
  | [] => Some []
  | i :: rest =>
      match pack_item i, pack rest with
      | Some b, Some bs => Some (b ++ bs)
      | _, _ => None
      end
  end.

(** Reading a little-endian unsigned number of [n] bytes at an offset. *)
Fixpoint le_value (bytes : list Z) : Z :=
  match bytes with
  | [] => 0
  | b :: rest => b + 256 * le_value rest
  end.

Definition read_le (n offset : nat) (bytes : list Z) : Z :=
  le_value (firstn n (skipn offset bytes)).

End Struct.

Module TTSClient.

Import PyInt Struct.

Section Client.

(** [str.lower], the Unicode case mapping of the interpreter. *)
Variable lower : str -> str.

(** [mimetypes.guess_extension] *)
Variable guess_extension : str -> option str.

Definition SEMICOLON : char := 59.
Definition EQUALS : char := 61.
Definition UPPER_L : char := 76.

(** [s.split(sep, 1)[1]]: what follows the first [sep]; [None] stands for
    [IndexError], when [sep] does not occur. *)
Fixpoint after_first (sep : char) (s : str) : option str :=
  match s with
  | [] => None
  | c :: s' => if c =? sep then Some s' else after_first sep s'
  end.

(** The value of a parameter after its first [sep], when [int] accepts
    it. *)
Definition int_after (sep : char) (param : str) : option Z :=
  match after_first sep param with
  | Some value => py_int value
  | None => None
  end.

(** One turn of the loop of [_parse_audio_mime_type] on
    [(bits_per_sample, rate)]. *)
Definition param_step (st : Z * Z) (raw : str) : Z * Z :=
  let '(bits_per_sample, rate) := st in
  let param := strip raw in
  if startswith (lit "rate=") (lower param) then
    match int_after EQUALS param with
    | Some r => (bits_per_sample, r)
    | None => st
    end
  else if startswith (lit "audio/L") param then
    match int_after UPPER_L param with
    | Some b => (b, rate)
    | None => st
    end
  else st.

(** [_parse_audio_mime_type]: [(bits_per_sample, rate)]. *)
Definition _parse_audio_mime_type (mime_type : str) : Z * Z :=
  fold_left param_step (split_char SEMICOLON mime_type) (16, 24000).

(** The header items of [_convert_to_wav], in the order of the format
    [<4sI4s4sIHHIIHH4sI]. *)
Definition wav_header_items (bits_per_sample sample_rate data_size : Z) : list item :=
  let num_channels := 1 in
  let bytes_per_sample := bits_per_sample / 8 in
  let block_align := num_channels * bytes_per_sample in
  let byte_rate := sample_rate * block_align in
  let chunk_size := 36 + data_size in
  [ Bytes4 (lit "RIFF"); U32 chunk_size; Bytes4 (lit "WAVE"); Bytes4 (lit "fmt ");
    U32 16; U16 1; U16 num_channels; U32 sample_rate; U32 byte_rate;
    U16 block_align; U16 bits_per_sample; Bytes4 (lit "data"); U32 data_size ].

(** [_convert_to_wav] *)
Definition _convert_to_wav (audio_data : list Z) (mime_type : str)
    : outcome (list Z) :=
  let '(bits_per_sample, sample_rate) := _parse_audio_mime_type mime_type in
  match pack (wav_header_items bits_per_sample sample_rate
                               (Z.of_nat (length audio_data))) with
  | Some header => Ok (header ++ audio_data)
  | None => Raise StructError
  end.

(** *** [generate_audio] *)

(** One element of the response stream. *)
Inductive stream_chunk : Type :=
  | NoContent                                   (* candidates, content or parts is None *)
  | NoParts                                     (* parts is empty: parts[0] raises *)
  | InlineData (data : list Z) (mime_type : str)
  | TextOnly.

(** The remote speech model: the elements a request streams, and the
    exception that ends the stream, if any. *)
Record t : Type := {
  generate_content_stream : trace -> str -> list stream_chunk * option exc
}.

Definition decimal_of_nat (n : nat) : str :=
  lit (NilEmpty.string_of_uint (Nat.to_uint n)).

(** One turn of the loop over the stream, on
    [(audio_files, file_index, events)]; the turn may raise. *)
Definition chunk_step (output_dir : str)
    (st : list str * nat * list event) (chunk : stream_chunk)
    : outcome (list str * nat * list event) :=
  let '(audio_files, file_index, evs) := st in
  match chunk with
  | NoContent => Ok st
  | NoParts => Raise IndexError
  | TextOnly => Ok st
  | InlineData data mime_type =>
      match data with
      | [] => Ok st
      | _ :: _ =>
          let file_name := lit "audio_chunk_" ++ decimal_of_nat file_index in
          let saved :=
            match guess_extension mime_type with
            | Some file_extension => Ok (file_extension, data)
            | None =>
                match _convert_to_wav data mime_type with
                | Ok wav => Ok (lit ".wav", wav)
                | Raise e => Raise e
                end
            end in
          match saved with
          | Ok (file_extension, data_buffer) =>
              let audio_path :=
                output_dir ++ lit "/" ++ file_name ++ file_extension in
              Ok (audio_files ++ [audio_path], S file_index,
                  evs ++ [WriteFile audio_path data_buffer])
          | Raise e => Raise e
          end
      end
  end.

Fixpoint stream_loop (output_dir : str) (chunks : list stream_chunk)
    (stream_error : option exc) (st : list str * nat * list event)
    : list event * outcome (list str) :=
  match chunks with
  | [] =>
      let '(audio_files, _, evs) := st in
      match stream_error with
      | Some e => (evs, Raise e)
      | None =>
          match audio_files with
          | [] => (evs, Raise (ValueError "音声データが生成されませんでした"))
          | _ :: _ => (evs, Ok audio_files)
          end
      end
  | chunk :: rest =>
      match chunk_step output_dir st chunk with
      | Ok st' => stream_loop output_dir rest stream_error st'
      | Raise e => (snd st, Raise e)
      end
  end.

(** The [try] block of [generate_audio]. *)
Definition audio_attempt (c : t) (text output_dir : str) (tr : trace)
    : list event * outcome (list str) :=
  let '(chunks, stream_error) := generate_content_stream c tr text in
  stream_loop output_dir chunks stream_error ([], 0%nat, [TTSRequest text]).

Definition default_max_retries : Z := 3.

(** [generate_audio(text, speaker_configs, output_dir, max_retries)] *)
Definition generate_audio (c : t) (text output_dir : str) (max_retries : Z)
    (tr : trace) : trace * outcome (list str) :=
  retry (audio_attempt c text output_dir) (Exception "TTS生成に失敗しました")
        max_retries tr.

End Client.

End TTSClient.

Example py_int_values :
  List.map PyInt.py_int
    [lit "24000"; lit " 16 "; lit "-5"; lit "+7"; lit "1_000"; lit "１２";
     lit ""; lit "1__0"; lit "_1"; lit "1_"; lit "0x10"; lit "24000.0";
     lit "+ 5"; lit "007"; [49; 28]]
  = [Some 24000; Some 16; Some (-5); Some 7; Some 1000; Some 12;
     None; None; None; None; None; None; None; Some 7; None].
Proof. reflexivity. Qed.

(* ===================================================================== *)
(** ** The retry loops (llm_client.py, tts_client.py) *)
(* ===================================================================== *)

Module RetryFacts.

Section Retry.

Context {A : Type}.
Variable body : trace -> list event * outcome A.
Variable exhausted : exc.

(** The history at the start of attempt [j] (counted from 0) when every
    earlier attempt has failed: each of them added its events and was
    followed by a wait of [2 ^ attempt]. *)
Fixpoint history (tr : trace) (j : nat) : trace :=
  match j with
  | O => tr
  | S j' =>
      let h := history tr j' in
      h ++ fst (body h) ++ [Sleep (2 ^ Z.of_nat j')]
  end.

(** The attempt started from [tr] raises the exception [e]. *)
Definition fails_with (tr : trace) (e : exc) : Prop :=
  snd (body tr) = Raise e /\ is_Exception e = true.

Lemma retry_loop_cons (max_retries attempt : Z) (rest : list Z) (tr : trace) :
  retry_loop body exhausted max_retries (attempt :: rest) tr
  = let '(evs, result) := body tr in
    match result with
    | Ok v => (tr ++ evs, Ok v)
    | Raise e =>
        if is_Exception e && (attempt <? max_retries - 1)
        then retry_loop body exhausted max_retries rest
                        (tr ++ evs ++ [Sleep (2 ^ attempt)])
        else (tr ++ evs, Raise e)
    end.
Proof. reflexivity. Qed.

Lemma retry_loop_all_fail (max_retries : Z) (errs : nat -> exc) (tr : trace)
    (m k : nat) :
  Z.of_nat (k + S m) = max_retries ->
  (forall j, (k <= j <= k + m)%nat -> fails_with (history tr j) (errs j)) ->
  retry_loop body exhausted max_retries
             (List.map Z.of_nat (seq k (S m))) (history tr k)
  = (history tr (k + m) ++ fst (body (history tr (k + m))),
     Raise (errs (k + m)%nat)).
Proof.
  revert k. induction m as [|m IH]; intros k Hn Hf.
  - destruct (Hf k) as [He Hx]; [lia|].
    simpl. destruct (body (history tr k)) as [evs result] eqn:Eb.
    simpl in He. subst result. rewrite Hx.
    replace (Z.of_nat k <? max_retries - 1) with false
      by (symmetry; apply Z.ltb_ge; lia).
    rewrite Nat.add_0_r, Eb. reflexivity.
  - destruct (Hf k) as [He Hx]; [lia|].
    change (List.map Z.of_nat (seq k (S (S m))))
      with (Z.of_nat k :: List.map Z.of_nat (seq (S k) (S m))).
    rewrite retry_loop_cons.
    destruct (body (history tr k)) as [evs result] eqn:Eb.
    simpl in He. subst result. rewrite Hx.
    replace (Z.of_nat k <? max_retries - 1) with true
      by (symmetry; apply Z.ltb_lt; lia).
    cbn [andb].
    replace (history tr k ++ evs ++ [Sleep (2 ^ Z.of_nat k)])
      with (history tr (S k)) by (simpl; now rewrite Eb).
    rewrite (IH (S k)).
    + replace (S k + m)%nat with (k + S m)%nat by lia. reflexivity.
    + lia.
    + intros j Hj. apply Hf. lia.
Qed.

(** When every attempt fails, the loop makes [max_retries] attempts, waits
    [2 ^ attempt] after each but the last, and raises the error of the last
    attempt. *)
Lemma retry_all_fail (max_retries : Z) (errs : nat -> exc) (tr : trace) :
  1 <= max_retries ->
  (forall j, (j < Z.to_nat max_retries)%nat -> fails_with (history tr j) (errs j)) ->
  retry body exhausted max_retries tr
  = (history tr (Z.to_nat max_retries - 1)
       ++ fst (body (history tr (Z.to_nat max_retries - 1))),
     Raise (errs (Z.to_nat max_retries - 1)%nat)).
Proof.
  intros Hn Hf. unfold retry, range.
  destruct (Z.to_nat max_retries) as [|m] eqn:Em; [lia|].
  pose proof (retry_loop_all_fail max_retries errs tr m 0) as L.
  change (history tr 0) with tr in L. change (0 + m)%nat with m in L.
  replace (S m - 1)%nat with m by lia.
  apply L; [lia|]. intros j Hj. apply Hf. lia.
Qed.

(** With no attempt to make, the loop raises its own error at once. *)
Lemma retry_no_attempt (max_retries : Z) (tr : trace) :
  max_retries <= 0 -> retry body exhausted max_retries tr = (tr, Raise exhausted).
Proof.
  intros Hn. unfold retry, range.
  replace (Z.to_nat max_retries) with 0%nat by lia. reflexivity.
Qed.

End Retry.

(** The events before attempt [j] of a loop whose failed attempts each add
    the one event [req]. *)
Definition before (req : event) (j : nat) : list event :=
  flat_map (fun k => [req; Sleep (2 ^ Z.of_nat k)]) (seq 0 j).

Lemma history_single_event {A : Type} (body : trace -> list event * outcome A)
    (req : event) (tr : trace) (j : nat) :
  (forall h, fst (body h) = [req]) ->
  history body tr j = tr ++ before req j.
Proof.
  intros Hb. unfold before. induction j as [|j IH].
  - simpl. now rewrite app_nil_r.
  - simpl history. rewrite IH, Hb.
    rewrite seq_S, flat_map_app. simpl. now rewrite <- !app_assoc.
Qed.

(** C8. A generation call whose attempts all fail makes exactly
    [max_retries] attempts, sleeps [2 ^ attempt] between consecutive
    attempts, and raises the error of the last attempt: for
    [LLMClient.generate], whose attempt is one request, and for
    [TTSClient.generate_audio]. Attempts are counted from 0; [errs j] is the
    error of attempt [j]. *)
Theorem retries_exhausted (max_retries : Z) (errs : nat -> exc) (tr : trace) :
  1 <= max_retries ->
  let last := (Z.to_nat max_retries - 1)%nat in
  (forall (c : LLMClient.t) (prompt : str),
      (forall j, (j < Z.to_nat max_retries)%nat ->
         LLMClient.response_text
           (LLMClient.generate_content c (tr ++ before (LLMRequest prompt) j) prompt)
         = Raise (errs j) /\ is_Exception (errs j) = true) ->
      LLMClient.generate c prompt max_retries tr
      = (tr ++ before (LLMRequest prompt) last ++ [LLMRequest prompt],
         Raise (errs last)))
  /\ (forall lower guess_extension (c : TTSClient.t) (text output_dir : str),
      let attempt := TTSClient.audio_attempt lower guess_extension c text output_dir in
      (forall j, (j < Z.to_nat max_retries)%nat ->
         fails_with attempt (history attempt tr j) (errs j)) ->
      TTSClient.generate_audio lower guess_extension c text output_dir max_retries tr
      = (history attempt tr last ++ fst (attempt (history attempt tr last)),
         Raise (errs last))).
Proof.
  intros Hn last. split.
  - intros c prompt Hf. unfold LLMClient.generate.
    assert (Hh : forall j, history (LLMClient.generate_attempt c prompt) tr j
                           = tr ++ before (LLMRequest prompt) j)
      by (intros j; now apply history_single_event).
    rewrite (retry_all_fail _ _ max_retries errs tr Hn).
    + fold last. rewrite Hh. simpl. now rewrite <- app_assoc.
    + intros j Hj. unfold fails_with. rewrite Hh. exact (Hf j Hj).
  - intros lower guess_extension c text output_dir attempt Hf.
    unfold TTSClient.generate_audio.
    now apply retry_all_fail.
Qed.

End RetryFacts.

Module RetryExamples.

Import RetryFacts.

(** A model whose requests all raise. *)
Definition down : LLMClient.t :=
  {| LLMClient.count_api := fun _ => None;
     LLMClient.generate_content := fun _ _ => Raise (Exception "503") |}.

(** A speech model that streams nothing. *)
Definition silent : TTSClient.t :=
  {| TTSClient.generate_content_stream := fun _ _ => ([], None) |}.

Definition no_audio : exc := ValueError "音声データが生成されませんでした".

Lemma retries_exhausted_witness :
  LLMClient.generate down (lit "p") LLMClient.default_max_retries []
  = ([LLMRequest (lit "p"); Sleep 1; LLMRequest (lit "p"); Sleep 2;
      LLMRequest (lit "p")],
     Raise (Exception "503"))
  /\ TTSClient.generate_audio (fun s => s) (fun _ => None) silent (lit "t") (lit "out")
       TTSClient.default_max_retries []
     = ([TTSRequest (lit "t"); Sleep 1; TTSRequest (lit "t"); Sleep 2;
         TTSRequest (lit "t")],
        Raise no_audio).
Proof.
  split.
  - apply (proj1 (retries_exhausted 3 (fun _ => Exception "503") []
                    ltac:(lia)) down (lit "p")).
    intros j _. split; reflexivity.
  - apply (proj2 (retries_exhausted 3 (fun _ => no_audio) [] ltac:(lia))
             (fun s => s) (fun _ => None) silent (lit "t") (lit "out")).
    intros j _. split; reflexivity.
Defined.

(** A success ends the loop: no wait follows it. *)
Example second_attempt_succeeds :
  LLMClient.generate
    {| LLMClient.count_api := fun _ => None;
       LLMClient.generate_content := fun h _ =>
         match h with [] => Ok (Some []) | _ => Ok (Some (lit "ok")) end |}
    (lit "p") 3 []
  = ([LLMRequest (lit "p"); Sleep 1; LLMRequest (lit "p")], Ok (lit "ok")).
Proof. reflexivity. Qed.

(** An exception that is not an [Exception] is not retried. *)
Example interrupt_not_retried :
  LLMClient.generate
    {| LLMClient.count_api := fun _ => None;
       LLMClient.generate_content := fun _ _ => Raise (BaseExc "KeyboardInterrupt") |}
    (lit "p") 3 []
  = ([LLMRequest (lit "p")], Raise (BaseExc "KeyboardInterrupt")).
Proof. reflexivity. Qed.

(** A stream with one segment of headerless samples: the segment is saved
    under a header, in one attempt. *)
Example audio_saved :
  TTSClient.generate_audio ascii_lower (fun _ => None)
    {| TTSClient.generate_content_stream := fun _ _ =>
         ([TTSClient.NoContent; TTSClient.TextOnly;
           TTSClient.InlineData [7; 9] (lit "audio/L16;rate=24000")], None) |}
    (lit "t") (lit "out/chunks") 3 []
  = ([TTSRequest (lit "t");
      WriteFile (lit "out/chunks/audio_chunk_0.wav")
        ([82; 73; 70; 70; 38; 0; 0; 0; 87; 65; 86; 69; 102; 109; 116; 32;
          16; 0; 0; 0; 1; 0; 1; 0; 192; 93; 0; 0; 128; 187; 0; 0; 2; 0; 16; 0;
          100; 97; 116; 97; 2; 0; 0; 0] ++ [7; 9])],
     Ok [lit "out/chunks/audio_chunk_0.wav"]).
Proof. reflexivity. Qed.

(** A stream that breaks after a segment was saved: the attempt fails and
    is made again. *)
Example stream_breaks_once :
  TTSClient.generate_audio ascii_lower (fun _ => Some (lit ".mp3"))
    {| TTSClient.generate_content_stream := fun h _ =>
         match h with
         | [] => ([TTSClient.InlineData [1] (lit "audio/mpeg")],
                  Some (Exception "connection reset"))
         | _ => ([TTSClient.InlineData [2] (lit "audio/mpeg")], None)
         end |}
    (lit "t") (lit "out") 3 []
  = ([TTSRequest (lit "t"); WriteFile (lit "out/audio_chunk_0.mp3") [1]; Sleep 1;
      TTSRequest (lit "t"); WriteFile (lit "out/audio_chunk_0.mp3") [2]],
     Ok [lit "out/audio_chunk_0.mp3"]).
Proof. reflexivity. Qed.

End RetryExamples.

(* ===================================================================== *)
(** ** The container header (tts_client.py) *)
(* ===================================================================== *)

Module WavHeader.

Import PyInt Struct TTSClient.

Section Header.

Variable lower : str -> str.

(** The parameters of a MIME type, stripped. *)
Definition params (mime_type : str) : list str :=
  List.map strip (split_char SEMICOLON mime_type).

Definition is_rate_param (param : str) : bool :=
  startswith (lit "rate=") (lower param).

Definition is_bits_param (param : str) : bool :=
  negb (is_rate_param param) && startswith (lit "audio/L") param.

(** The values of the parameters of a kind that [int] accepts, in order. *)
Definition values (is_kind : str -> bool) (sep : char) (ps : list str) : list Z :=
  flat_map (fun param =>
              if is_kind param then
                match int_after sep param with Some v => [v] | None => [] end
              else []) ps.

Definition rate_values (mime_type : str) : list Z :=
  values is_rate_param EQUALS (params mime_type).

Definition bits_values (mime_type : str) : list Z :=
  values is_bits_param UPPER_L (params mime_type).

Lemma param_step_values (ps : list str) (raw : str) :
  param_step lower
    (List.last (values is_bits_param UPPER_L ps) 16,
     List.last (values is_rate_param EQUALS ps) 24000) raw
  = (List.last (values is_bits_param UPPER_L (ps ++ [strip raw])) 16,
     List.last (values is_rate_param EQUALS (ps ++ [strip raw])) 24000).
Proof.
  unfold values. rewrite !flat_map_app. simpl flat_map. rewrite !app_nil_r.
  unfold param_step, is_bits_param, is_rate_param.
  destruct (startswith (lit "rate=") (lower (strip raw))); simpl negb; cbv iota.
  - rewrite andb_false_l, app_nil_r.
    destruct (int_after EQUALS (strip raw)) as [r|].
    + now rewrite List.last_last.
    + now rewrite app_nil_r.
  - rewrite andb_true_l, app_nil_r.
    destruct (startswith (lit "audio/L") (strip raw)).
    + destruct (int_after UPPER_L (strip raw)) as [b|].
      * now rewrite List.last_last.
      * now rewrite app_nil_r.
    + now rewrite app_nil_r.
Qed.

(** The parser returns, for each parameter, the last value that [int]
    accepts, and the default when there is none. *)
Lemma parse_last_values (mime_type : str) :
  _parse_audio_mime_type lower mime_type
  = (List.last (bits_values mime_type) 16, List.last (rate_values mime_type) 24000).
Proof.
  unfold _parse_audio_mime_type, bits_values, rate_values, params.
  pose (P := fun (done : list str) (st : Z * Z) =>
               st = (List.last (values is_bits_param UPPER_L (List.map strip done)) 16,
                     List.last (values is_rate_param EQUALS (List.map strip done)) 24000)).
  apply (fold_left_invariant (param_step lower) P); [reflexivity|].
  intros done x rest st _ ->. unfold P.
  rewrite List.map_app. apply param_step_values.
Qed.

End Header.

Lemma le_roundtrip (n : nat) (v : Z) :
  0 <= v < 256 ^ Z.of_nat n -> le_value (le_bytes n v) = v.
Proof.
  revert v. induction n as [|n IH]; intros v Hv.
  - simpl in *. lia.
  - cbn [le_bytes le_value]. rewrite IH.
    + pose proof (Z.div_mod v 256). lia.
    + rewrite Nat2Z.inj_succ, Z.pow_succ_r in Hv by lia.
      split; [apply Z.div_pos; lia | apply Z.div_lt_upper_bound; lia].
Qed.

Lemma read_u32 (v : Z) : 0 <= v < 4294967296 -> le_value (le_bytes 4 v) = v.
Proof. intros H. now apply le_roundtrip. Qed.

Lemma read_u16 (v : Z) : 0 <= v < 65536 -> le_value (le_bytes 2 v) = v.
Proof. intros H. now apply le_roundtrip. Qed.

Lemma pack_u32 (v : Z) :
  0 <= v < 4294967296 -> pack_item (U32 v) = Some (le_bytes 4 v).
Proof.
  intros [H1 H2]. unfold pack_item.
  apply Z.leb_le in H1. apply Z.ltb_lt in H2. now rewrite H1, H2.
Qed.

Lemma pack_u16 (v : Z) :
  0 <= v < 65536 -> pack_item (U16 v) = Some (le_bytes 2 v).
Proof.
  intros [H1 H2]. unfold pack_item.
  apply Z.leb_le in H1. apply Z.ltb_lt in H2. now rewrite H1, H2.
Qed.

(** What is read back from the 44 bytes in front of the samples. *)
Record header : Type := {
  chunk_id : list Z;        (* offset 0 *)
  chunk_size : Z;           (* offset 4 *)
  format : list Z;          (* offset 8 *)
  audio_format : Z;         (* offset 20 *)
  num_channels : Z;         (* offset 22 *)
  sample_rate : Z;          (* offset 24 *)
  byte_rate : Z;            (* offset 28 *)
  block_align : Z;          (* offset 32 *)
  bits_per_sample : Z;      (* offset 34 *)
  data_size : Z             (* offset 40 *)
}.

Definition read_header (wav : list Z) : header :=
  {| chunk_id := firstn 4 wav;
     chunk_size := read_le 4 4 wav;
     format := firstn 4 (skipn 8 wav);
     audio_format := read_le 2 20 wav;
     num_channels := read_le 2 22 wav;
     sample_rate := read_le 4 24 wav;
     byte_rate := read_le 4 28 wav;
     block_align := read_le 2 32 wav;
     bits_per_sample := read_le 2 34 wav;
     data_size := read_le 4 40 wav |}.

(** The 44 bytes that [struct.pack] returns when every value fits its
    item. *)
Lemma header_bytes (b r n : Z) :
  0 <= b < 65536 -> 0 <= r < 4294967296 -> 0 <= r * (b / 8) < 4294967296 ->
  0 <= b / 8 < 65536 -> 0 <= n -> 36 + n < 4294967296 ->
  pack (wav_header_items b r n)
  = Some ([82; 73; 70; 70] ++ le_bytes 4 (36 + n)
          ++ [87; 65; 86; 69] ++ [102; 109; 116; 32]
          ++ le_bytes 4 16 ++ le_bytes 2 1 ++ le_bytes 2 1
          ++ le_bytes 4 r ++ le_bytes 4 (r * (b / 8))
          ++ le_bytes 2 (b / 8) ++ le_bytes 2 b
          ++ [100; 97; 116; 97] ++ le_bytes 4 n).
Proof.
  intros Hb Hr Hbr Hba Hn0 Hn.
  unfold wav_header_items. cbv zeta. rewrite Z.mul_1_l.
  cbn [pack].
  rewrite !pack_u32, !pack_u16 by lia.
  reflexivity.
Qed.

Lemma convert_fields lower (audio_data : list Z) (mime_type : str) (b r : Z) :
  _parse_audio_mime_type lower mime_type = (b, r) ->
  0 <= b < 65536 -> 0 <= r < 4294967296 -> r * (b / 8) < 4294967296 ->
  36 + Z.of_nat (length audio_data) < 4294967296 ->
  exists wav,
    _convert_to_wav lower audio_data mime_type = Ok wav
    /\ skipn 44 wav = audio_data
    /\ read_header wav
       = {| chunk_id := lit "RIFF";
            chunk_size := 36 + Z.of_nat (length audio_data);
            format := lit "WAVE";
            audio_format := 1;
            num_channels := 1;
            sample_rate := r;
            byte_rate := r * (b / 8);
            block_align := b / 8;
            bits_per_sample := b;
            data_size := Z.of_nat (length audio_data) |}.
Proof.
  intros Hp Hb Hr Hbr Hn. unfold _convert_to_wav. rewrite Hp.
  set (n := Z.of_nat (length audio_data)) in *.
  assert (Hba : 0 <= b / 8 < 65536).
  { split; [apply Z.div_pos; lia | apply Z.div_lt_upper_bound; lia]. }
  assert (Hbr0 : 0 <= r * (b / 8)) by (apply Z.mul_nonneg_nonneg; lia).
  rewrite header_bytes by lia.
  eexists. split; [reflexivity|]. split; [reflexivity|].
  unfold read_header, read_le. cbn [le_bytes app firstn skipn].
  change (firstn 0 audio_data) with (@nil Z).
  change [(36 + n) mod 256; (36 + n) / 256 mod 256; (36 + n) / 256 / 256 mod 256;
          (36 + n) / 256 / 256 / 256 mod 256] with (le_bytes 4 (36 + n)).
  change [n mod 256; n / 256 mod 256; n / 256 / 256 mod 256;
          n / 256 / 256 / 256 mod 256] with (le_bytes 4 n).
  change [r mod 256; r / 256 mod 256; r / 256 / 256 mod 256;
          r / 256 / 256 / 256 mod 256] with (le_bytes 4 r).
  change [r * (b / 8) mod 256; r * (b / 8) / 256 mod 256;
          r * (b / 8) / 256 / 256 mod 256;
          r * (b / 8) / 256 / 256 / 256 mod 256] with (le_bytes 4 (r * (b / 8))).
  change [b / 8 mod 256; b / 8 / 256 mod 256] with (le_bytes 2 (b / 8)).
  change [b mod 256; b / 256 mod 256] with (le_bytes 2 b).
  rewrite !read_u32, !read_u16 by lia.
  reflexivity.
Qed.

(** The header in front of headerless samples when the values fit the
    unsigned 16 and 32 bit fields of the header: mono PCM with
    [block_align = b / 8], [byte_rate = r * block_align] and
    [chunk_size = 36 + data_size], for [b] and [r] the last values of the
    MIME type that [int] accepts, 16 and 24000 without such a value. *)
Theorem wav_header_fields lower (audio_data : list Z) (mime_type : str) :
  let b := List.last (bits_values lower mime_type) 16 in
  let r := List.last (rate_values lower mime_type) 24000 in
  let n := Z.of_nat (length audio_data) in
  0 <= b < 65536 -> 0 <= r < 4294967296 -> r * (b / 8) < 4294967296 ->
  36 + n < 4294967296 ->
  exists wav,
    _convert_to_wav lower audio_data mime_type = Ok wav
    /\ skipn 44 wav = audio_data
    /\ read_header wav
       = {| chunk_id := lit "RIFF";
            chunk_size := 36 + n;
            format := lit "WAVE";
            audio_format := 1;
            num_channels := 1;
            sample_rate := r;
            byte_rate := r * (b / 8);
            block_align := b / 8;
            bits_per_sample := b;
            data_size := n |}.
Proof.
  intros b r n Hb Hr Hbr Hn.
  apply convert_fields; try assumption. apply parse_last_values.
Qed.

(** A parameter without a value that [int] accepts keeps its default. *)
Corollary default_rate lower (mime_type : str) :
  rate_values lower mime_type = [] ->
  snd (_parse_audio_mime_type lower mime_type) = 24000.
Proof. intros H. now rewrite parse_last_values, H. Qed.

Corollary default_bits lower (mime_type : str) :
  bits_values lower mime_type = [] ->
  fst (_parse_audio_mime_type lower mime_type) = 16.
Proof. intros H. now rewrite parse_last_values, H. Qed.

End WavHeader.

Module WavHeaderExamples.

Import TTSClient WavHeader.

Example parse_examples :
  List.map (_parse_audio_mime_type ascii_lower)
    [lit "audio/L16;rate=24000"; lit "audio/L24; codec=pcm; RATE=48000";
     lit "audio/L16"; lit "audio/wav;rate=abc"; lit "audio/Lx;rate=";
     lit "audio/l8;rate=8000"; lit "audio/L16;rate=8000;rate=x"]
  = [(16, 24000); (24, 48000); (16, 24000); (16, 24000); (16, 24000);
     (16, 8000); (16, 8000)].
Proof. reflexivity. Qed.

Lemma wav_header_fields_witness :
  exists wav,
    _convert_to_wav ascii_lower [1; 2; 3; 4; 5; 6]
                    (lit "audio/L24; codec=pcm; RATE=48000") = Ok wav
    /\ skipn 44 wav = [1; 2; 3; 4; 5; 6]
    /\ read_header wav
       = {| chunk_id := lit "RIFF"; chunk_size := 42; format := lit "WAVE";
            audio_format := 1; num_channels := 1; sample_rate := 48000;
            byte_rate := 144000; block_align := 3; bits_per_sample := 24;
            data_size := 6 |}.
Proof.
  apply (wav_header_fields ascii_lower [1; 2; 3; 4; 5; 6]
           (lit "audio/L24; codec=pcm; RATE=48000"));
    vm_compute; try split; (discriminate || reflexivity).
Defined.

(** The header for [audio/L16;rate=24000]: block align 2, byte rate
    48000. *)
Example pcm16_header :
  match _convert_to_wav ascii_lower [1; 2; 3; 4] (lit "audio/L16;rate=24000") with
  | Ok wav =>
      read_header wav
      = {| chunk_id := lit "RIFF"; chunk_size := 40; format := lit "WAVE";
           audio_format := 1; num_channels := 1; sample_rate := 24000;
           byte_rate := 48000; block_align := 2; bits_per_sample := 16;
           data_size := 4 |}
  | Raise _ => False
  end.
Proof. reflexivity. Qed.

(** The bytes for 10 samples bytes tagged [audio/L16;rate=24000]. *)
Example wav_bytes :
  _convert_to_wav ascii_lower [0; 0; 0; 0; 0; 0; 0; 0; 0; 0] (lit "audio/L16;rate=24000")
  = Ok ([82; 73; 70; 70; 46; 0; 0; 0; 87; 65; 86; 69; 102; 109; 116; 32;
         16; 0; 0; 0; 1; 0; 1; 0; 192; 93; 0; 0; 128; 187; 0; 0; 2; 0; 16; 0;
         100; 97; 116; 97; 10; 0; 0; 0] ++ [0; 0; 0; 0; 0; 0; 0; 0; 0; 0]).
Proof. reflexivity. Qed.

(** C9, as stated, fails: [int] accepts the values [-1], [4294967296],
    [-16] and [65536], so they are neither absent nor replaced by the
    default, and they do not fit their unsigned field: [struct.pack] raises
    and there is no header. *)
Lemma value_out_of_range :
  List.map (_parse_audio_mime_type ascii_lower)
    [lit "audio/L16;rate=-1"; lit "audio/L16;rate=4294967296";
     lit "audio/L-16;rate=24000"; lit "audio/L65536;rate=24000"]
  = [(16, -1); (16, 4294967296); (-16, 24000); (65536, 24000)]
  /\ List.map (_convert_to_wav ascii_lower [0; 0])
       [lit "audio/L16;rate=-1"; lit "audio/L16;rate=4294967296";
        lit "audio/L-16;rate=24000"; lit "audio/L65536;rate=24000"]
     = [Raise StructError; Raise StructError; Raise StructError;
        Raise StructError].
Proof. split; reflexivity. Qed.

End WavHeaderExamples.

(* ===================================================================== *)
(** ** pipeline/ingest.py *)
(* ===================================================================== *)

Module Ingest.

(** The values [yaml.safe_load] returns (sets and binary data left out). *)
#[local] Unset Elimination Schemes.
Inductive yaml : Type :=
  | YNull
  | YBool (b : bool)
  | YInt (n : Z)
  | YFloat (nonzero : bool)
  | YStr (s : str)
  | YSeq (l : list yaml)
  | YMap (items : list (yaml * yaml))
  | YTime.
#[local] Set Elimination Schemes.

(** The truth value of a Python value. *)
Definition truth (v : yaml) : bool :=
  match v with
  | YNull => false
  | YBool b => b
  | YInt n => negb (n =? 0)
  | YFloat nonzero => nonzero
  | YStr s => truthy s
  | YSeq l => match l with [] => false | _ :: _ => true end
  | YMap items => match items with [] => false | _ :: _ => true end
  | YTime => true
  end.

Record section : Type := {
  level : Z;
  heading_title : str;
  content : str
}.

Record IngestedDoc : Type := {
  title : str;
  raw_md : str;
  sections : list section;
  metadata : yaml          (* [YNull] is [None] *)
}.

(** [a == b] *)
Fixpoint str_eqb (a b : str) : bool :=
  match a, b with
  | [], [] => true
  | x :: a', y :: b' => (x =? y) && str_eqb a' b'
  | _, _ => false
  end.

Fixpoint take_while (p : char -> bool) (s : str) : str :=
  match s with
  | [] => []
  | c :: s' => if p c then c :: take_while p s' else []
  end.

Fixpoint drop_while (p : char -> bool) (s : str) : str :=
  match s with
  | [] => []
  | c :: s' => if p c then drop_while p s' else s
  end.

Definition not_LF (c : char) : bool := negb (c =? LF).
Definition HASH : char := 35.

(** *** The front matter: [re.match(r'^---\n(.*?)\n---\n', content, re.DOTALL)] *)

(** The shortest text in front of a closing line, and what follows that
    line. *)
Fixpoint until_closing (s : str) : option (str * str) :=
  if startswith (lit "
---
") s then Some ([], skipn 5 s)
  else match s with
       | [] => None
       | c :: s' =>
           match until_closing s' with
           | Some (block, rest) => Some (c :: block, rest)
           | None => None
           end
       end.

(** Group 1 of the match and the text after the match. *)
Definition front_matter (text : str) : option (str * str) :=
  if startswith (lit "---
") text then until_closing (skipn 4 text) else None.

(** [get_content_without_metadata] *)
Definition get_content_without_metadata (doc : IngestedDoc) : str :=
  if truth (metadata doc) then
    strip (match front_matter (raw_md doc) with
           | Some (_, rest) => rest
           | None => raw_md doc
           end)
  else raw_md doc.

(** *** The title: [re.search(r'^#\s+(.+)$', content, re.MULTILINE)] *)

(** Group 1 of a match whose [#] is followed by [s]. *)
Definition h1_at (s : str) : option str :=
  match take_while isspace s with
  | [] => None
  | _ :: tail =>
      match drop_while isspace s with
      | (_ :: _) as rest => Some (take_while not_LF rest)
      | [] =>
          (* the white space runs to the end: [\s+] gives back code points
             until [.+] finds one that is not a line feed *)
          match rev (List.filter not_LF tail) with
          | c :: _ => Some [c]
          | [] => None
          end
      end
  end.

Fixpoint search_h1 (at_line_start : bool) (s : str) : option str :=
  match s with
  | [] => None
  | c :: s' =>
      match (if at_line_start && (c =? HASH) then h1_at s' else None) with
      | Some group => Some (strip group)
      | None => search_h1 (c =? LF) s'
      end
  end.

Section Loader.

(** [str.lower]; [yaml.safe_load]; [str] of a loaded value. *)
Variable lower : str -> str.
Variable safe_load : str -> outcome yaml.
Variable py_str : yaml -> str.

Definition is_title_key (k : yaml) : bool :=
  match k with YStr s => str_eqb s (lit "title") | _ => false end.

(** ["title" in metadata] *)
Definition contains_title (metadata : yaml) : outcome bool :=
  match metadata with
  | YMap items => Ok (existsb (fun kv => is_title_key (fst kv)) items)
  | YSeq l => Ok (existsb is_title_key l)
  | YStr s => Ok (contains (lit "title") s)
  | _ => Raise TypeError
  end.

(** [str(metadata["title"])] *)
Definition title_entry (metadata : yaml) : outcome str :=
  match metadata with
  | YMap items =>
      match List.find (fun kv => is_title_key (fst kv)) items with
      | Some (_, v) => Ok (py_str v)
      | None => Raise (Exception "KeyError")
      end
  | _ => Raise TypeError
  end.

(** [_extract_title] *)
Definition _extract_title (text : str) (metadata : yaml) (stem : str)
    : outcome str :=
  let from_text :=
    match search_h1 true text with
    | Some h1 => h1
    | None => stem
    end in
  if truth metadata then
    match contains_title metadata with
    | Ok true => title_entry metadata
    | Ok false => Ok from_text
    | Raise e => Raise e
    end
  else Ok from_text.

(** *** The sections: [re.match(r'^(#{1,3})\s+(.+)$', line)] on a line
    without line feed *)

Definition is_hash (c : char) : bool := c =? HASH.

Definition heading (line : str) : option (Z * str) :=
  let hashes := Z.of_nat (length (take_while is_hash line)) in
  let rest := drop_while is_hash line in
  if (1 <=? hashes) && (hashes <=? 3) then
    match take_while isspace rest with
    | [] => None
    | w0 :: w =>
        match drop_while isspace rest with
        | (_ :: _) as text => Some (hashes, strip text)
        | [] =>
            match w with
            | [] => None
            | _ :: _ => Some (hashes, strip [List.last w w0])
            end
        end
    end
  else None.

Definition close_section (sections : list section)
    (current_section : option (Z * str)) (current_content : list str)
    : list section :=
  match current_section with
  | Some (l, t) =>
      sections ++ [{| level := l; heading_title := t;
                      content := strip (join [LF] current_content) |}]
  | None => sections
  end.

Definition section_step
    (st : list section * option (Z * str) * list str) (line : str)
    : list section * option (Z * str) * list str :=
  let '(sections, current_section, current_content) := st in
  match heading line with
  | Some h => (close_section sections current_section current_content, Some h, [])
  | None =>
      match current_section with
      | Some _ => (sections, current_section, current_content ++ [line])
      | None => st
      end
  end.

(** [_extract_sections] *)
Definition _extract_sections (text : str) : list section :=
  let '(sections, current_section, current_content) :=
    fold_left section_step (split_char LF text) ([], None, []) in
  match close_section sections current_section current_content with
  | [] => [{| level := 1; heading_title := lit "本文"; content := text |}]
  | all => all
  end.

(** *** [ingest_markdown] *)

(** What the function sees of its path. *)
Record file : Type := {
  file_exists : bool;
  suffix : str;
  stem : str;
  read_text : outcome str
}.

(** The front matter block of [ingest_markdown]: the loaded value, [YNull]
    when there is no block or when it is not valid YAML. *)
Definition load_front_matter (text : str) : outcome yaml :=
  if startswith (lit "---
") text then
    match front_matter text with
    | Some (yaml_content, _) =>
        match safe_load yaml_content with
        | Ok v => Ok v
        | Raise YAMLError => Ok YNull
        | Raise e => Raise e
        end
    | None => Ok YNull
    end
  else Ok YNull.

Definition ingest_markdown (f : file) : outcome IngestedDoc :=
  if negb (file_exists f) then Raise (FileNotFoundError "ファイルが見つかりません")
  else if negb (str_eqb (lower (suffix f)) (lit ".md"))
  then Raise (ValueError "Markdownファイルではありません")
  else
    match read_text f with
    | Raise UnicodeDecodeError =>
        Raise (ValueError "ファイルの文字エンコーディングが不正です")
    | Raise e => Raise e
    | Ok text =>
        if negb (truthy (strip text)) then Raise (ValueError "ファイルが空です")
        else
          match load_front_matter text with
          | Raise e => Raise e
          | Ok meta =>
              match _extract_title text meta (stem f) with
              | Raise e => Raise e
              | Ok t =>
                  Ok {| title := t; raw_md := text;
                        sections := _extract_sections text;
                        metadata := meta |}
              end
          end
    end.

End Loader.

End Ingest.

Module IngestFacts.

Import Ingest.

Lemma lstrip_keeps (s : str) (c : char) :
  In c s -> isspace c = false -> lstrip s <> [].
Proof.
  induction s as [|x s IH]; simpl; [tauto|].
  intros [->|H] Hc.
  - now rewrite Hc.
  - destruct (isspace x); [now apply IH | discriminate].
Qed.

(** A text with a code point that is not white space is not blank. *)
Lemma strip_keeps (s : str) (c : char) :
  In c s -> isspace c = false -> truthy (strip s) = true.
Proof.
  intros Hin Hc. apply truthy_true. unfold strip, rstrip.
  destruct (lstrip_split s) as [ws [E Hws]].
  assert (Hin' : In c (lstrip s)).
  { rewrite E in Hin. apply in_app_or in Hin. destruct Hin as [H|H]; [|exact H].
    rewrite forallb_forall in Hws. rewrite (Hws c H) in Hc. discriminate. }
  intros E'. apply (f_equal (@rev _)) in E'. rewrite rev_involutive in E'.
  simpl in E'. revert E'. apply (lstrip_keeps _ c); [|exact Hc].
  now apply in_rev in Hin'.
Qed.

Lemma front_matter_start_not_blank (text : str) :
  startswith (lit "---
") text = true -> truthy (strip text) = true.
Proof.
  intros H. change (lit "---
") with [45; 45; 45; 10] in H.
  destruct text as [|c text]; [discriminate|].
  cbn [startswith] in H. apply andb_true_iff in H. destruct H as [Hc _].
  apply Z.eqb_eq in Hc. subst c.
  apply (strip_keeps _ 45); [now left | reflexivity].
Qed.

Section Loader.

Variable lower : str -> str.
Variable safe_load : str -> outcome yaml.
Variable py_str : yaml -> str.

(** The front matter is cut only for a document whose metadata is a
    non-empty value. *)
Lemma content_kept_without_metadata (doc : IngestedDoc) :
  truth (metadata doc) = false -> get_content_without_metadata doc = raw_md doc.
Proof. unfold get_content_without_metadata. now intros ->. Qed.

(** C10, as the code has it. A document that opens a front matter block
    whose YAML does not load with [YAMLError], or loads as an empty mapping
    (or any other empty value), is ingested; its metadata is empty ([None]
    after the failure) and [get_content_without_metadata] returns the raw
    text, front matter block included. A failure of the load that is not a
    [YAMLError] is not caught: [ingest_markdown] raises it. *)
Theorem front_matter_kept_or_raised (f : file) (text : str) :
  file_exists f = true ->
  str_eqb (lower (suffix f)) (lit ".md") = true ->
  read_text f = Ok text ->
  startswith (lit "---
") text = true ->
  ((forall yaml_content rest,
       front_matter text = Some (yaml_content, rest) ->
       safe_load yaml_content = Raise YAMLError
       \/ exists v, safe_load yaml_content = Ok v /\ truth v = false) ->
   exists doc,
     ingest_markdown lower safe_load py_str f = Ok doc
     /\ raw_md doc = text
     /\ truth (metadata doc) = false
     /\ (forall yaml_content rest,
           front_matter text = Some (yaml_content, rest) ->
           safe_load yaml_content = Raise YAMLError -> metadata doc = YNull)
     /\ (forall yaml_content rest v,
           front_matter text = Some (yaml_content, rest) ->
           safe_load yaml_content = Ok v -> metadata doc = v)
     /\ get_content_without_metadata doc = text)
  /\ (forall yaml_content rest e,
        front_matter text = Some (yaml_content, rest) ->
        safe_load yaml_content = Raise e -> e <> YAMLError ->
        ingest_markdown lower safe_load py_str f = Raise e).
Proof.
  intros Hex Hmd Hread Hstart.
  unfold ingest_markdown. rewrite Hex, Hmd, Hread. simpl negb. cbv iota.
  rewrite (front_matter_start_not_blank text Hstart). simpl negb. cbv iota.
  split.
  - intros Hload.
    assert (Hmeta : exists meta,
               load_front_matter safe_load text = Ok meta /\ truth meta = false
               /\ (forall yaml_content rest,
                     front_matter text = Some (yaml_content, rest) ->
                     safe_load yaml_content = Raise YAMLError -> meta = YNull)
               /\ (forall yaml_content rest v0,
                     front_matter text = Some (yaml_content, rest) ->
                     safe_load yaml_content = Ok v0 -> meta = v0)).
    { unfold load_front_matter. rewrite Hstart.
      destruct (front_matter text) as [[yaml_content rest]|] eqn:Efm.
      - destruct (Hload yaml_content rest eq_refl) as [Hl|[v [Hl Hv]]]; rewrite Hl.
        + exists YNull. repeat split; auto.
          intros y r v0 [= <- <-] H. rewrite H in Hl. discriminate.
        + exists v. repeat split; auto.
          * intros y r [= <- <-] H. rewrite H in Hl. discriminate.
          * intros y r v0 [= <- <-] H. rewrite H in Hl. now injection Hl.
      - exists YNull. repeat split; auto; discriminate. }
    destruct Hmeta as [meta [Hlm [Hfalse [Hnull Hmap]]]].
    rewrite Hlm. unfold _extract_title. rewrite Hfalse.
    eexists. split; [reflexivity|]. simpl.
    repeat split; auto.
    unfold get_content_without_metadata. simpl. now rewrite Hfalse.
  - intros yaml_content rest e Hfm Hl Ne.
    unfold load_front_matter. rewrite Hstart, Hfm, Hl.
    destruct e; try reflexivity. congruence.
Qed.

End Loader.

End IngestFacts.

Module IngestExamples.

Import Ingest.

(** A loader for the examples: it rejects a block that holds a tab, loads
    the block [{}] as the empty mapping and any other block as a mapping
    with one entry. *)
Definition toy_load (block : str) : outcome yaml :=
  if existsb (Z.eqb 9) block then Raise YAMLError
  else if str_eqb block (lit "{}") then Ok (YMap [])
  else Ok (YMap [(YStr (lit "title"), YStr block)]).

Definition toy_str (v : yaml) : str :=
  match v with YStr s => s | _ => [] end.

Definition md (text : str) : file :=
  {| file_exists := true; suffix := lit ".md"; stem := lit "notes";
     read_text := Ok text |}.

Definition empty_mapping_doc : str := lit "---
{}
---
# Heading
body".

(** A loader that does as [yaml.safe_load] on the block
    [date: 2024-13-45]: the block is taken for a date and [ValueError] is
    raised. *)
Definition dated_load (block : str) : outcome yaml :=
  if str_eqb block (lit "date: 2024-13-45")
  then Raise (ValueError "month must be in 1..12")
  else toy_load block.

Definition dated_doc : str := lit "---
date: 2024-13-45
---
# Heading
body".

Lemma front_matter_kept_witness :
  (exists doc,
    ingest_markdown ascii_lower toy_load toy_str (md empty_mapping_doc) = Ok doc
    /\ raw_md doc = empty_mapping_doc
    /\ truth (metadata doc) = false
    /\ (forall yaml_content rest,
          front_matter empty_mapping_doc = Some (yaml_content, rest) ->
          toy_load yaml_content = Raise YAMLError -> metadata doc = YNull)
    /\ (forall yaml_content rest v,
          front_matter empty_mapping_doc = Some (yaml_content, rest) ->
          toy_load yaml_content = Ok v -> metadata doc = v)
    /\ get_content_without_metadata doc = empty_mapping_doc)
  /\ ingest_markdown ascii_lower dated_load toy_str (md dated_doc)
     = Raise (ValueError "month must be in 1..12").
Proof.
  split.
  - apply (proj1 (IngestFacts.front_matter_kept_or_raised
                    ascii_lower toy_load toy_str (md empty_mapping_doc)
                    empty_mapping_doc eq_refl eq_refl eq_refl eq_refl)).
    intros yaml_content rest H. right. exists (YMap []).
    vm_compute in H. injection H as <- _. split; reflexivity.
  - apply (proj2 (IngestFacts.front_matter_kept_or_raised
                    ascii_lower dated_load toy_str (md dated_doc)
                    dated_doc eq_refl eq_refl eq_refl eq_refl)
             (lit "date: 2024-13-45") (lit "# Heading
body")); [reflexivity | reflexivity | discriminate].
Defined.

(** C10, as stated, fails for a parse failure that is not a [YAMLError]:
    [yaml.safe_load] takes [2024-13-45] for a date and the date constructor
    raises [ValueError], which [except yaml.YAMLError] lets through. *)
Lemma front_matter_value_error :
  front_matter dated_doc = Some (lit "date: 2024-13-45", lit "# Heading
body")
  /\ dated_load (lit "date: 2024-13-45")
     = Raise (ValueError "month must be in 1..12")
  /\ ingest_markdown ascii_lower dated_load toy_str (md dated_doc)
     = Raise (ValueError "month must be in 1..12").
Proof. repeat split; reflexivity. Qed.

Example ingest_empty_mapping :
  match ingest_markdown ascii_lower toy_load toy_str (md empty_mapping_doc) with
  | Ok doc =>
      title doc = lit "Heading"
      /\ metadata doc = YMap []
      /\ get_content_without_metadata doc = empty_mapping_doc
      /\ sections doc = [{| level := 1; heading_title := lit "Heading";
                            content := lit "body" |}]
  | Raise _ => False
  end.
Proof. vm_compute. repeat split. Qed.

(** With metadata that is not empty the block is cut. *)
Example ingest_with_metadata :
  match ingest_markdown ascii_lower toy_load toy_str (md (lit "---
T
---

# Heading
body
")) with
  | Ok doc =>
      title doc = lit "T"
      /\ get_content_without_metadata doc = lit "# Heading
body"
  | Raise _ => False
  end.
Proof. vm_compute. repeat split. Qed.

(** A block that does not load: the document is ingested whole. *)
Example ingest_bad_yaml :
  match ingest_markdown ascii_lower toy_load toy_str (md (lit "---
a:	b
---
text")) with
  | Ok doc =>
      metadata doc = YNull
      /\ get_content_without_metadata doc = lit "---
a:	b
---
text"
  | Raise _ => False
  end.
Proof. vm_compute. repeat split. Qed.

Example search_h1_examples :
  List.map (search_h1 true)
    [lit "# Title
x"; lit "intro
#  Two  
# Three"; lit "#

 x y
z"; [35; 32; 9]; lit "#x
## sub"; lit "no heading"; lit "#  

"]
  = [Some (lit "Title"); Some (lit "Two"); Some (lit "x y"); Some [];
     None; None; Some []].
Proof. reflexivity. Qed.

Example heading_examples :
  List.map heading
    [lit "# A"; lit "## B b "; lit "### C"; lit "#### D"; lit "#E"; lit "##  ";
     [35; 35; 32; 9]; lit "# x #"]
  = [Some (1, lit "A"); Some (2, lit "B b"); Some (3, lit "C"); None; None;
     Some (2, []); Some (2, []); Some (1, lit "x #")].
Proof. reflexivity. Qed.

End IngestExamples.

(* ===================================================================== *)
(** ** pipeline/build_script.py: the script stage *)
(* ===================================================================== *)

Module BuildScript.

Import Ingest.

(** Which branch of [build_script] ran. *)
Inductive mode : Type :=
  | SingleCall
  | Chunked (chunks : list str).

(** What a run of the stage leaves: the branch taken, the prompts
    [llm_client.generate] was called with, in order, the history, and the
    path returned or the exception raised. *)
Record run : Type := {
  branch : mode;
  calls : list str;
  history : trace;
  result : outcome str
}.

Section Stage.

Variable lower : str -> str.

(** The speaker settings, and the templates and clean-up of the stage: the
    prompt is [PromptBuilder.build_script_prompt(content, language,
    target_length, speakers)], an f-string; [_post_process_script] rewrites
    the generated text. What follows holds for any of them. *)
Variable speakers : Type.
Variable build_script_prompt : str -> str -> Z -> speakers -> str.
Variable _post_process_script : str -> str.

Variable config : Config.t.
Variable llm_client : LLMClient.t.

(** The loop over the chunks: one call of [generate] per chunk, with the
    target length divided by the number of chunks; an exception ends the
    stage. *)
Fixpoint generate_parts (chunks : list str) (n_chunks : Z) (language : str)
    (target_length : Z) (spk : speakers)
    (tr : trace) (called script_parts : list str)
    : trace * list str * outcome (list str) :=
  match chunks with
  | [] => (tr, called, Ok script_parts)
  | chunk :: rest =>
      let prompt :=
        build_script_prompt chunk language (target_length / n_chunks) spk in
      match LLMClient.generate llm_client prompt LLMClient.default_max_retries tr with
      | (tr', Ok script_part) =>
          generate_parts rest n_chunks language target_length spk
                         tr' (called ++ [prompt]) (script_parts ++ [script_part])
      | (tr', Raise e) => (tr', called ++ [prompt], Raise e)
      end
  end.

(** The end of the stage: clean-up and [script.md]. *)
Definition save_script (b : mode) (called : list str) (tr : trace)
    (output_dir script : str) : run :=
  let script_path := output_dir ++ lit "/script.md" in
  {| branch := b; calls := called;
     history := tr ++ [WriteFile script_path (_post_process_script script)];
     result := Ok script_path |}.

(** [build_script(doc, output_dir, language, target_length, speakers)] *)
Definition build_script (doc : IngestedDoc) (output_dir language : str)
    (target_length : Z) (spk : speakers) (tr : trace) : run :=
  let text := get_content_without_metadata doc in
  let splitter := TextSplitter.init config None in
  if LLMClient.is_token_limit_exceeded llm_client text LLMClient.default_limit then
    let chunks := TextSplitter.split_by_tokens splitter (Some llm_client) text in
    match generate_parts chunks (Z.of_nat (length chunks)) language
                         target_length spk tr [] [] with
    | (tr', called, Ok script_parts) =>
        save_script (Chunked chunks) called tr' output_dir
                    (ScriptMerger._merge_script_parts lower script_parts)
    | (tr', called, Raise e) =>
        {| branch := Chunked chunks; calls := called; history := tr';
           result := Raise e |}
    end
  else
    let prompt := build_script_prompt text language target_length spk in
    match LLMClient.generate llm_client prompt LLMClient.default_max_retries tr with
    | (tr', Ok script) => save_script SingleCall [prompt] tr' output_dir script
    | (tr', Raise e) =>
        {| branch := SingleCall; calls := [prompt]; history := tr';
           result := Raise e |}
    end.

End Stage.

Arguments generate_parts {speakers}.
Arguments build_script lower {speakers}.

End BuildScript.

Module BuildScriptFacts.

Import Ingest BuildScript.

Section Stage.

Variable lower : str -> str.
Variable speakers : Type.
Variable build_script_prompt : str -> str -> Z -> speakers -> str.
Variable _post_process_script : str -> str.
Variable config : Config.t.
Variable llm_client : LLMClient.t.

Lemma generate_parts_calls (chunks : list str) (n : Z) (language : str)
    (target_length : Z) (spk : speakers) (tr : trace) (called parts : list str) :
  let prompt_of chunk := build_script_prompt chunk language (target_length / n) spk in
  let '(_, called', r) :=
    generate_parts build_script_prompt llm_client chunks n language
                   target_length spk tr called parts in
  (exists k, called' = called ++ List.map prompt_of (firstn k chunks))
  /\ (forall script_parts, r = Ok script_parts ->
        called' = called ++ List.map prompt_of chunks
        /\ length script_parts = (length parts + length chunks)%nat).
Proof.
  cbv zeta. revert tr called parts.
  induction chunks as [|chunk rest IH]; intros tr called parts.
  - simpl. split.
    + exists 0%nat. now rewrite app_nil_r.
    + intros sp [= <-]. rewrite app_nil_r. split; [reflexivity | lia].
  - cbn [generate_parts].
    destruct (LLMClient.generate llm_client
                (build_script_prompt chunk language (target_length / n) spk)
                LLMClient.default_max_retries tr) as [tr' [part|e]].
    + specialize (IH tr'
                    (called ++ [build_script_prompt chunk language (target_length / n) spk])
                    (parts ++ [part])).
      destruct (generate_parts build_script_prompt llm_client rest n language
                  target_length spk tr' _ _) as [[tr'' called'] r].
      destruct IH as [[k Hk] Hok]. split.
      * exists (S k). rewrite Hk. simpl. now rewrite <- app_assoc.
      * intros sp Hr. destruct (Hok sp Hr) as [Hc Hl]. split.
        -- rewrite Hc. simpl. now rewrite <- app_assoc.
        -- rewrite Hl, length_app. simpl. lia.
    + split.
      * exists 1%nat. reflexivity.
      * discriminate.
Qed.

(** The branch a run records and the prompts it records: the single call
    exactly when the cost of the prepared content is within the default
    limit of [is_token_limit_exceeded], the prompts of the chunks, in order
    until a call raises, otherwise. *)
Lemma script_stage_branches (doc : IngestedDoc) (output_dir language : str)
    (target_length : Z) (spk : speakers) (tr : trace) :
  let text := get_content_without_metadata doc in
  let chunks :=
    TextSplitter.split_by_tokens (TextSplitter.init config None)
                                 (Some llm_client) text in
  let prompt_of chunk :=
    build_script_prompt chunk language
                        (target_length / Z.of_nat (length chunks)) spk in
  let r := build_script lower build_script_prompt _post_process_script
                        config llm_client doc output_dir language
                        target_length spk tr in
  (LLMClient.count_tokens llm_client text <= LLMClient.default_limit ->
     branch r = SingleCall
     /\ calls r = [build_script_prompt text language target_length spk])
  /\ (LLMClient.default_limit < LLMClient.count_tokens llm_client text ->
     branch r = Chunked chunks
     /\ (exists k, calls r = List.map prompt_of (firstn k chunks))
     /\ (forall path, result r = Ok path -> calls r = List.map prompt_of chunks)).
Proof.
  cbv zeta. unfold build_script, LLMClient.is_token_limit_exceeded. split.
  - intros Hle. apply Z.ltb_ge in Hle. rewrite Hle.
    destruct (LLMClient.generate llm_client _ _ tr) as [tr' [script|e]];
      split; reflexivity.
  - intros Hgt. apply Z.ltb_lt in Hgt. rewrite Hgt.
    pose proof (generate_parts_calls
                  (TextSplitter.split_by_tokens (TextSplitter.init config None)
                     (Some llm_client) (get_content_without_metadata doc))
                  (Z.of_nat (length (TextSplitter.split_by_tokens
                     (TextSplitter.init config None) (Some llm_client)
                     (get_content_without_metadata doc))))
                  language target_length spk tr [] []) as G.
    cbv zeta in G.
    destruct (generate_parts build_script_prompt llm_client _ _ language
                target_length spk tr [] []) as [[tr' called] [parts|e]].
    + destruct G as [Hk Hok]. destruct (Hok parts eq_refl) as [Hc _].
      simpl. repeat split; auto.
    + destruct G as [Hk _]. simpl. repeat split; auto. discriminate.
Qed.

End Stage.

End BuildScriptFacts.

Module BuildScriptExamples.

Import Ingest BuildScript.

(** A model that counts [weight] tokens for every letter a and answers
    every request with one line. *)
Definition toy_client (weight : Z) : LLMClient.t :=
  {| LLMClient.count_api := fun text =>
       Some (weight * Z.of_nat (length (List.filter (Z.eqb 97) text)));
     LLMClient.generate_content := fun _ _ => Ok (Some (lit "Speaker 1: hi")) |}.

(** A prompt that shows the content and the target length. *)
Definition toy_prompt (text language : str) (target_length : Z) (spk : unit) : str :=
  text ++ lit "|" ++ TTSClient.decimal_of_nat (Z.to_nat target_length).

Definition two_paragraphs : IngestedDoc :=
  {| title := lit "t"; raw_md := lit "a

a"; sections := []; metadata := YNull |}.

Definition stage (weight : Z) : run :=
  build_script ascii_lower toy_prompt (fun s => s) Config.default
               (toy_client weight) two_paragraphs (lit "out") (lit "ja") 20 tt [].

(** C6, as stated, fails: a content of cost 1200 exceeds the chunk budget
    800, and the chunker would cut it in two, but the stage makes a single
    call on the whole content. *)
Lemma over_chunk_budget_single_call :
  let chunker := TextSplitter.init Config.default None in
  let text := get_content_without_metadata two_paragraphs in
  TextSplitter.chunk_size chunker = 800
  /\ LLMClient.count_tokens (toy_client 600) text = 1200
  /\ TextSplitter.split_by_tokens chunker (Some (toy_client 600)) text
     = [lit "a"; lit "a"]
  /\ branch (stage 600) = SingleCall
  /\ calls (stage 600) = [lit "a

a|20"]
  /\ history (stage 600)
     = [LLMRequest (lit "a

a|20"); WriteFile (lit "out/script.md") (lit "Speaker 1: hi")].
Proof. cbv zeta. repeat split; reflexivity. Qed.

Lemma script_stage_branches_witness :
  branch (stage 600) = SingleCall /\ calls (stage 600) = [lit "a

a|20"].
Proof.
  apply (proj1 (BuildScriptFacts.script_stage_branches
                  ascii_lower unit toy_prompt (fun s => s) Config.default
                  (toy_client 600) two_paragraphs (lit "out") (lit "ja") 20 tt [])).
  vm_compute. discriminate.
Defined.

(** Over the limit of 30000 the stage generates by chunks. *)
Example over_limit_chunked :
  LLMClient.count_tokens (toy_client 20000)
    (get_content_without_metadata two_paragraphs) = 40000
  /\ branch (stage 20000) = Chunked [lit "a。"; lit "a。"]
  /\ calls (stage 20000) = [lit "a。|10"; lit "a。|10"]
  /\ history (stage 20000)
     = [LLMRequest (lit "a。|10"); LLMRequest (lit "a。|10");
        WriteFile (lit "out/script.md") (lit "Speaker 1: hi

Speaker 1: hi")]
  /\ result (stage 20000) = Ok (lit "out/script.md").
Proof. repeat split; reflexivity. Qed.

End BuildScriptExamples.

(* ===================================================================== *)
(** ** pipeline/orchestrator.py *)
(* ===================================================================== *)

Module Orchestrator.

Import Ingest.

(** What the orchestrator writes to its log and to the disk. *)
Inductive entry : Type :=
  | Step (n : Z)                                (* "ステップ n/6" *)
  | InputCopy (path text : str)                 (* [input_copy.write_text] *)
  | AudioFailed (e : exc)                       (* "音声生成に失敗" *)
  | EmailFailed (e : exc)                       (* "メール送信に失敗" *)
  | Summary (results : gmap string (option str))  (* [_print_summary] *)
  | PipelineError (e : exc).                    (* "パイプライン実行中にエラーが発生" *)

(** The fields of [PipelineOrchestrator], and the log. [results] is the
    ledger: a dict from the artifact kind to its path, or to [None]. *)
Record state : Type := {
  doc : option IngestedDoc;
  output_dir : option str;
  results : gmap string (option str);
  log : list entry
}.

(** [PipelineOrchestrator()] *)
Definition init : state :=
  {| doc := None;
     output_dir := None;
     results :=
       <["audio" := None]> (<["flashcards" := None]> (<["questions" := None]>
         (<["explanation" := None]> (<["script" := None]> ∅))));
     log := [] |}.

(** A method: it changes the state and returns or raises. *)
Definition M (A : Type) : Type := state -> state * outcome A.

Definition ret {A : Type} (a : A) : M A := fun st => (st, Ok a).

Definition raise {A : Type} (e : exc) : M A := fun st => (st, Raise e).

Definition bind {A B : Type} (m : M A) (k : A -> M B) : M B :=
  fun st =>
    match m st with
    | (st', Ok a) => k a st'
    | (st', Raise e) => (st', Raise e)
    end.

Notation "'do' x <- m ; k" := (bind m (fun x => k))
  (at level 10, x name, m at level 100, k at level 200).
Notation "m ;; k" := (bind m (fun _ => k))
  (at level 100, k at level 200, right associativity).

Definition write (e : entry) : M unit :=
  fun st => ({| doc := doc st; output_dir := output_dir st;
                results := results st; log := log st ++ [e] |}, Ok tt).

(** [self.results[key] = path] *)
Definition set_result (key : string) (path : option str) : M unit :=
  fun st => ({| doc := doc st; output_dir := output_dir st;
                results := <[key := path]> (results st); log := log st |}, Ok tt).

Definition set_doc (d : IngestedDoc) : M unit :=
  fun st => ({| doc := Some d; output_dir := output_dir st;
                results := results st; log := log st |}, Ok tt).

Definition set_output_dir (dir : str) : M unit :=
  fun st => ({| doc := doc st; output_dir := Some dir;
                results := results st; log := log st |}, Ok tt).

Definition get {A : Type} (field : state -> A) : M A :=
  fun st => (st, Ok (field st)).

(** The result of a call of a function of another module. *)
Definition call {A : Type} (r : outcome A) : M A := fun st => (st, r).

(** [try: m  except Exception as e: handler e] *)
Definition try_except {A : Type} (m : M A) (handler : exc -> M A) : M A :=
  fun st =>
    match m st with
    | (st', Ok a) => (st', Ok a)
    | (st', Raise e) => if is_Exception e then handler e st' else (st', Raise e)
    end.

Section Pipeline.

(** The stages and the helpers of the other modules, as the orchestrator
    calls them; [self.doc] and [self.output_dir] are passed as they are. *)
Variable speakers voices : Type.
Variable get_output_dir : option str -> str.
Variable path_name : str -> str.
Variable ingest_markdown : str -> outcome IngestedDoc.
Variable build_script :
  option IngestedDoc -> option str -> str -> Z -> speakers -> outcome str.
Variable build_explainer : str -> option str -> outcome str.
Variable build_questions : str -> option str -> outcome (str * option str).
Variable build_audio : str -> option str -> voices -> outcome (option str).
Variable send_email :
  option str -> str -> gmap string (option str) -> outcome bool.

Definition ingest_step (input_file : str) : M IngestedDoc :=
  write (Step 1) ;;
  do d <- call (ingest_markdown input_file) ;
  do dir <- get output_dir ;
  match dir with
  | Some out =>
      write (InputCopy (out ++ lit "/input_" ++ path_name input_file) (raw_md d)) ;;
      ret d
  | None => raise TypeError
  end.

Definition build_script_step (language : str) (target_length : Z)
    (spk : speakers) : M str :=
  write (Step 2) ;;
  do d <- get doc ;
  do dir <- get output_dir ;
  do script_path <- call (build_script d dir language target_length spk) ;
  set_result "script" (Some script_path) ;;
  ret script_path.

Definition build_explainer_step (script_path : str) : M str :=
  write (Step 3) ;;
  do dir <- get output_dir ;
  do explanation_path <- call (build_explainer script_path dir) ;
  set_result "explanation" (Some explanation_path) ;;
  ret explanation_path.

Definition build_questions_step (script_path : str) : M (str * option str) :=
  write (Step 4) ;;
  do dir <- get output_dir ;
  do paths <- call (build_questions script_path dir) ;
  set_result "questions" (Some (fst paths)) ;;
  set_result "flashcards" (snd paths) ;;
  ret paths.

Definition build_audio_step (script_path : str) (voice_map : voices)
    : M (option str) :=
  write (Step 5) ;;
  try_except
    (do dir <- get output_dir ;
     do audio_path <- call (build_audio script_path dir voice_map) ;
     set_result "audio" audio_path ;;
     ret audio_path)
    (fun e => write (AudioFailed e) ;; ret None).

Definition send_email_step : M bool :=
  write (Step 6) ;;
  try_except
    (do dir <- get output_dir ;
     do d <- get doc ;
     do ledger <- get results ;
     match d with
     | Some d' => call (send_email dir (title d') ledger)
     | None => raise (Exception "AttributeError")
     end)
    (fun e => write (EmailFailed e) ;; ret false).

Definition _print_summary : M unit :=
  do ledger <- get results ;
  write (Summary ledger).

(** [run_full_pipeline] *)
Definition run_full_pipeline (input_file language : str) (target_length : Z)
    (spk : speakers) (voice_map : voices) (send_mail : bool)
    (timestamp : option str) : M (option str) :=
  set_output_dir (get_output_dir timestamp) ;;
  try_except
    (do d <- ingest_step input_file ;
     set_doc d ;;
     do script_path <- build_script_step language target_length spk ;
     do explanation_path <- build_explainer_step script_path ;
     do paths <- build_questions_step script_path ;
     do audio_path <- build_audio_step script_path voice_map ;
     (if send_mail then send_email_step else ret false) ;;
     _print_summary ;;
     get output_dir)
    (fun e => write (PipelineError e) ;; raise e).

End Pipeline.

End Orchestrator.

Module OrchestratorFacts.

Import Ingest Orchestrator.

Section Pipeline.

Variable speakers voices : Type.
Variable get_output_dir : option str -> str.
Variable path_name : str -> str.
Variable ingest_markdown : str -> outcome IngestedDoc.
Variable build_script :
  option IngestedDoc -> option str -> str -> Z -> speakers -> outcome str.
Variable build_explainer : str -> option str -> outcome str.
Variable build_questions : str -> option str -> outcome (str * option str).
Variable build_audio : str -> option str -> voices -> outcome (option str).
Variable send_email :
  option str -> str -> gmap string (option str) -> outcome bool.

(** What the email step leaves in the log. *)
Definition email_entries (send_mail : bool) (sent : outcome bool) : list entry :=
  if send_mail then
    Step 6 :: match sent with Raise e => [EmailFailed e] | Ok _ => [] end
  else [].

(** C7. When the audio stage raises an error, after four stages that
    succeeded, the orchestrator logs it and goes on: the email step runs
    (when mail is asked for), the summary is printed and the run returns the
    output directory. The ledger holds the four paths of the earlier stages
    and its audio entry is what it was before the run: [None] for a new
    orchestrator. *)
Theorem audio_failure_tolerated (input_file language : str) (target_length : Z)
    (spk : speakers) (voice_map : voices) (send_mail : bool)
    (timestamp : option str) (st : state)
    (d : IngestedDoc) (script_path explanation_path qa_path : str)
    (flashcard_path : option str) (e : exc) :
  let out := get_output_dir timestamp in
  let ledger :=
    <["flashcards" := flashcard_path]> (<["questions" := Some qa_path]>
      (<["explanation" := Some explanation_path]>
        (<["script" := Some script_path]> (results st)))) in
  let sent := send_email (Some out) (title d) ledger in
  ingest_markdown input_file = Ok d ->
  build_script (Some d) (Some out) language target_length spk = Ok script_path ->
  build_explainer script_path (Some out) = Ok explanation_path ->
  build_questions script_path (Some out) = Ok (qa_path, flashcard_path) ->
  build_audio script_path (Some out) voice_map = Raise e ->
  is_Exception e = true ->
  (send_mail = true -> forall x, sent = Raise x -> is_Exception x = true) ->
  exists st',
    run_full_pipeline speakers voices get_output_dir path_name ingest_markdown
      build_script build_explainer build_questions build_audio send_email
      input_file language target_length spk voice_map send_mail timestamp st
    = (st', Ok (Some out))
    /\ results st' = ledger
    /\ results st' !! "audio" = results st !! "audio"
    /\ log st'
       = log st
         ++ [Step 1; InputCopy (out ++ lit "/input_" ++ path_name input_file) (raw_md d);
             Step 2; Step 3; Step 4; Step 5; AudioFailed e]
         ++ email_entries send_mail sent
         ++ [Summary ledger].
Proof.
  intros out ledger sent Hi Hs He Hq Ha Hx Hm.
  unfold run_full_pipeline, ingest_step, build_script_step,
    build_explainer_step, build_questions_step, build_audio_step,
    send_email_step, _print_summary.
  unfold try_except, bind, call, get, write, set_result, set_doc,
    set_output_dir, ret, raise.
  cbn [doc output_dir results log fst snd].
  fold out. rewrite Hi. cbn [doc output_dir results log raw_md fst snd].
  rewrite Hs. cbn [doc output_dir results log fst snd].
  rewrite He. cbn [doc output_dir results log fst snd].
  rewrite Hq. cbn [doc output_dir results log fst snd].
  rewrite Ha, Hx. cbn [doc output_dir results log fst snd].
  fold ledger.
  assert (Haudio : ledger !! "audio" = results st !! "audio").
  { unfold ledger. now rewrite !lookup_insert_ne by discriminate. }
  destruct send_mail.
  - cbn [doc output_dir results log fst snd]. fold sent.
    destruct sent as [b|x] eqn:Es.
    + eexists. split; [reflexivity|]. cbn [results log].
      split; [reflexivity|]. split; [exact Haudio|].
      unfold email_entries. now rewrite <- !app_assoc.
    + rewrite (Hm eq_refl x eq_refl).
      eexists. split; [reflexivity|]. cbn [results log].
      split; [reflexivity|]. split; [exact Haudio|].
      unfold email_entries. now rewrite <- !app_assoc.
  - eexists. split; [reflexivity|]. cbn [results log].
    split; [reflexivity|]. split; [exact Haudio|].
    unfold email_entries. now rewrite <- !app_assoc.
Qed.

End Pipeline.

Lemma init_audio_unset : results init !! "audio" = Some None.
Proof. unfold init. cbn [results]. apply lookup_insert_eq. Qed.

End OrchestratorFacts.

Module OrchestratorExamples.

Import Ingest Orchestrator OrchestratorFacts.

Definition toy_doc : IngestedDoc :=
  {| title := lit "t"; raw_md := lit "# t"; sections := []; metadata := YNull |}.

(** A run whose audio stage raises and whose other stages succeed. *)
Definition toy_run (send_mail : bool) : state * outcome (option str) :=
  run_full_pipeline unit unit
    (fun _ => lit "out") (fun p => p)
    (fun _ => Ok toy_doc)
    (fun _ _ _ _ _ => Ok (lit "out/script.md"))
    (fun _ _ => Ok (lit "out/explanation.md"))
    (fun _ _ => Ok (lit "out/questions.md", Some (lit "out/flashcards.yaml")))
    (fun _ _ _ => Raise (Exception "no audio"))
    (fun _ _ _ => Ok true)
    (lit "in.md") (lit "ja") 20 tt tt send_mail None init.

Lemma audio_failure_tolerated_witness :
  exists st',
    toy_run true = (st', Ok (Some (lit "out")))
    /\ results st' !! "audio" = Some None
    /\ results st' !! "script" = Some (Some (lit "out/script.md"))
    /\ log st'
       = [Step 1; InputCopy (lit "out/input_in.md") (lit "# t");
          Step 2; Step 3; Step 4; Step 5; AudioFailed (Exception "no audio");
          Step 6; Summary (results st')].
Proof.
  destruct (audio_failure_tolerated unit unit
              (fun _ => lit "out") (fun p => p)
              (fun _ => Ok toy_doc)
              (fun _ _ _ _ _ => Ok (lit "out/script.md"))
              (fun _ _ => Ok (lit "out/explanation.md"))
              (fun _ _ => Ok (lit "out/questions.md", Some (lit "out/flashcards.yaml")))
              (fun _ _ _ => Raise (Exception "no audio"))
              (fun _ _ _ => Ok true)
              (lit "in.md") (lit "ja") 20 tt tt true None init
              toy_doc (lit "out/script.md") (lit "out/explanation.md")
              (lit "out/questions.md") (Some (lit "out/flashcards.yaml"))
              (Exception "no audio"))
    as (st' & Hrun & Hres & Haudio & Hlog); try reflexivity.
  - intros _ x H. discriminate H.
  - exists st'. split; [exact Hrun|]. split; [|split].
    + rewrite Haudio. apply init_audio_unset.
    + rewrite Hres. rewrite lookup_insert_ne by discriminate.
      rewrite lookup_insert_ne by discriminate.
      rewrite lookup_insert_ne by discriminate.
      apply lookup_insert_eq.
    + rewrite Hlog, Hres. reflexivity.
Defined.

(** A stage before the audio stage that raises ends the run: the error is
    logged and raised again, later ledger entries stay unset. *)
Example explainer_failure_aborts :
  let r :=
    run_full_pipeline unit unit
      (fun _ => lit "out") (fun p => p)
      (fun _ => Ok toy_doc)
      (fun _ _ _ _ _ => Ok (lit "out/script.md"))
      (fun _ _ => Raise (Exception "llm down"))
      (fun _ _ => Ok (lit "out/questions.md", None))
      (fun _ _ _ => Ok None)
      (fun _ _ _ => Ok true)
      (lit "in.md") (lit "ja") 20 tt tt true None init in
  snd r = Raise (Exception "llm down")
  /\ log (fst r)
     = [Step 1; InputCopy (lit "out/input_in.md") (lit "# t"); Step 2; Step 3;
        PipelineError (Exception "llm down")].
Proof. split; reflexivity. Qed.

End OrchestratorExamples.

(* ===================================================================== *)
(** ** Further properties of the code *)
(* ===================================================================== *)

(** *** Lines: splitting and joining *)

Module LineFacts.

Definition free_of (sep : char) (s : str) : Prop := ~ In sep s.

Lemma split_on_app_free (p : char -> bool) (a s : str) :
  Forall (fun c => p c = false) a ->
  split_on p (a ++ s)
  = match split_on p s with
    | piece :: rest => (a ++ piece) :: rest
    | [] => [a]
    end.
Proof.
  induction a as [|c a IH]; intros Ha.
  - simpl. destruct (split_on p s) eqn:E; [|reflexivity].
    exfalso. revert E. apply ScriptMergerFacts.split_on_nonempty.
  - inversion Ha as [|? ? Hc Ha']; subst. simpl. rewrite Hc, IH by assumption.
    destruct (split_on p s); reflexivity.
Qed.

Lemma free_of_forall (sep : char) (s : str) :
  free_of sep s -> Forall (fun c => (sep =? c) = false) s.
Proof.
  intros H. apply List.Forall_forall. intros c Hc.
  apply Z.eqb_neq. intros ->. now apply H.
Qed.

Lemma split_char_free (sep : char) (s : str) :
  free_of sep s -> split_char sep s = [s].
Proof.
  intros H. unfold split_char.
  rewrite <- (app_nil_r s) at 1.
  rewrite split_on_app_free by now apply free_of_forall.
  simpl. now rewrite app_nil_r.
Qed.

(** Joining lines and splitting again gives the lines back. *)
Lemma split_join_char (sep : char) (lines : list str) :
  lines <> [] -> Forall (free_of sep) lines ->
  split_char sep (join [sep] lines) = lines.
Proof.
  induction lines as [|l lines IH]; [congruence|]. intros _ HF.
  inversion HF as [|? ? Hl HF']; subst.
  destruct lines as [|l2 lines].
  - simpl. now apply split_char_free.
  - change (join [sep] (l :: l2 :: lines))
      with (l ++ [sep] ++ join [sep] (l2 :: lines)).
    unfold split_char in *.
    rewrite split_on_app_free by now apply free_of_forall.
    change ([sep] ++ join [sep] (l2 :: lines))
      with (sep :: join [sep] (l2 :: lines)).
    cbn [split_on]. rewrite Z.eqb_refl.
    rewrite IH by (congruence || assumption). now rewrite app_nil_r.
Qed.

(** The pieces of a split hold no separator. *)
Lemma split_on_pieces (p : char -> bool) (s : str) :
  Forall (Forall (fun c => p c = false)) (split_on p s).
Proof.
  induction s as [|c s IH]; simpl.
  - repeat constructor.
  - destruct (p c) eqn:Hc.
    + constructor; [constructor | exact IH].
    + destruct (split_on p s) as [|piece rest]; [repeat constructor; exact Hc|].
      inversion IH; subst. constructor; [now constructor | assumption].
Qed.

Lemma split_char_pieces (sep : char) (s : str) :
  Forall (free_of sep) (split_char sep s).
Proof.
  pose proof (split_on_pieces (Z.eqb sep) s) as H.
  eapply List.Forall_impl; [|exact H]. intros piece Hp Hin.
  rewrite List.Forall_forall in Hp. specialize (Hp sep Hin).
  now rewrite Z.eqb_refl in Hp.
Qed.

(** Stripping only removes code points. *)
Lemma strip_incl (s : str) (c : char) : In c (strip s) -> In c s.
Proof.
  intros H. unfold strip in H.
  destruct (rstrip_split (lstrip s)) as [ws [E _]].
  destruct (lstrip_split s) as [ws' [E' _]].
  rewrite E'. apply in_or_app. right. rewrite E. apply in_or_app. now left.
Qed.

Lemma strip_nonblank_free (sep : char) (pieces : list str) :
  Forall (free_of sep) pieces ->
  Forall (free_of sep) (TextSplitter.strip_nonblank pieces).
Proof.
  intros H. apply List.Forall_forall. intros l Hl.
  unfold TextSplitter.strip_nonblank in Hl.
  apply List.filter_In in Hl. destruct Hl as [Hl _].
  apply List.in_map_iff in Hl. destruct Hl as [p [<- Hp]].
  rewrite List.Forall_forall in H. intros Hin. apply (H p Hp).
  now apply strip_incl.
Qed.

Lemma join_app (sep : str) (a b : list str) :
  a <> [] -> b <> [] -> join sep (a ++ b) = join sep a ++ sep ++ join sep b.
Proof.
  intros Na Nb. induction a as [|x a IH]; [congruence|].
  destruct a as [|y a].
  - simpl. destruct b; [congruence|reflexivity].
  - change (join sep ((x :: y :: a) ++ b))
      with (x ++ sep ++ join sep ((y :: a) ++ b)).
    rewrite IH by congruence.
    change (join sep (x :: y :: a)) with (x ++ sep ++ join sep (y :: a)).
    now rewrite <- !app_assoc.
Qed.

End LineFacts.

(** *** [split_script_for_tts]: what becomes of the lines *)

Module ScriptLines.

Import TextSplitter ScriptSplitter LineFacts.

(** The lines of a chunk. *)
Definition lines_of (c : str) : list str := split_char LF c.

(** A chunk was closed in front of the line that opens the next one: that
    line carries a speaker label, and with it the running sum of the closed
    chunk went over the budget. *)
Definition closed_before (self : t) (g1 g2 : list str) : Prop :=
  exists l rest,
    g2 = l :: rest /\ is_speaker_line l = true
    /\ chunk_size self < sum_tokens g1 + _estimate_tokens l.

(** The groups of lines closed so far, the latest first, in front of the
    open group [cur]. *)
Fixpoint chain (self : t) (cur : list str) (prev : list (list str)) : Prop :=
  match prev with
  | [] => True
  | g :: prev' => closed_before self g cur /\ chain self g prev'
  end.

Definition group_ok (g : list str) : Prop := g <> [] /\ Forall (free_of LF) g.

Definition groups_inv (self : t) (done : list str)
    (st : list str * list str * Z) : Prop :=
  let '(chunks, cur, tokens) := st in
  tokens = sum_tokens cur
  /\ Forall (free_of LF) cur
  /\ exists groups,
       chunks = List.map (join [LF]) groups
       /\ Forall group_ok groups
       /\ concat groups ++ cur = strip_nonblank done
       /\ chain self cur (rev groups).

Lemma chain_snoc self cur line prev :
  chain self cur prev -> chain self (cur ++ [line]) prev.
Proof.
  destruct prev as [|g prev]; [trivial|]. intros [[l [rest [E [S B]]]] C].
  split; [|exact C]. exists l, (rest ++ [line]). subst cur. auto.
Qed.

Lemma line_step_groups self script done raw rest st :
  split_char LF script = done ++ raw :: rest ->
  groups_inv self done st ->
  groups_inv self (done ++ [raw]) (line_step self st raw).
Proof.
  intros E. destruct st as [[chunks cur] tokens].
  intros [Ht [Hf [groups [Hc [Hg [Hl Hch]]]]]].
  assert (Hraw : free_of LF (strip raw)).
  { intros Hin. apply strip_incl in Hin.
    pose proof (split_char_pieces LF script) as F. rewrite E in F.
    rewrite List.Forall_forall in F. apply (F raw); [|exact Hin].
    apply in_or_app. right. now left. }
  pose proof (ScriptBudget.strip_nonblank_app done [raw]) as Hdone.
  rewrite ScriptBudget.strip_nonblank_one in Hdone.
  unfold line_step.
  destruct (truthy (strip raw)) eqn:Tl; simpl negb; cbv iota.
  - assert (Hsum : tokens + _estimate_tokens (strip raw)
                   = sum_tokens (cur ++ [strip raw])).
    { rewrite ScriptBudget.sum_tokens_app, <- Ht. unfold sum_tokens. simpl. lia. }
    assert (Hadd : groups_inv self (done ++ [raw])
                     (chunks, cur ++ [strip raw],
                      tokens + _estimate_tokens (strip raw))).
    { split; [exact Hsum|]. split.
      - apply Forall_app. split; [exact Hf|]. now constructor.
      - exists groups. split; [exact Hc|]. split; [exact Hg|]. split.
        + now rewrite Hdone, <- Hl, app_assoc.
        + now apply chain_snoc. }
    destruct (is_speaker_line (strip raw)) eqn:Sp; [|exact Hadd].
    destruct ((chunk_size self <? tokens + _estimate_tokens (strip raw))
              && nonempty cur) eqn:Over; [|exact Hadd].
    apply andb_true_iff in Over. destruct Over as [Lt Ne].
    apply Z.ltb_lt in Lt. apply ScriptBudget.nonempty_true in Ne.
    split; [unfold sum_tokens; simpl; lia|]. split; [now constructor|].
    exists (groups ++ [cur]). split; [|split; [|split]].
    + rewrite List.map_app. simpl. now rewrite Hc.
    + apply Forall_app. split; [exact Hg|]. constructor; [now split|constructor].
    + rewrite List.concat_app. simpl. rewrite app_nil_r.
      now rewrite Hdone, <- Hl.
    + rewrite rev_app_distr. simpl. split; [|exact Hch].
      exists (strip raw), []. split; [reflexivity|]. split; [exact Sp|].
      now rewrite <- Ht.
  - rewrite app_nil_r in Hdone.
    split; [exact Ht|]. split; [exact Hf|]. exists groups. now rewrite Hdone.
Qed.

(** The chunks are the joined groups of a grouping of the script's lines. *)
Lemma tts_groups self script :
  exists groups,
    split_script_for_tts self script = List.map (join [LF]) groups
    /\ Forall group_ok groups
    /\ concat groups = script_lines script
    /\ match rev groups with
       | [] => True
       | cur :: prev => chain self cur prev
       end.
Proof.
  unfold split_script_for_tts.
  pose proof (fold_left_invariant (line_step self) (groups_inv self)
                (split_char LF script) ([], [], 0)) as F.
  assert (Hfin : groups_inv self (split_char LF script)
                   (fold_left (line_step self) (split_char LF script) ([], [], 0))).
  { apply F.
    - split; [reflexivity|]. split; [constructor|].
      exists []. repeat split; constructor.
    - intros done x rest st E Hst. eapply line_step_groups; eauto. }
  destruct (fold_left (line_step self) (split_char LF script) ([], [], 0))
    as [[chunks cur] tokens].
  destruct Hfin as [Ht [Hf [groups [Hc [Hg [Hl Hch]]]]]].
  destruct (nonempty cur) eqn:Ne.
  - apply ScriptBudget.nonempty_true in Ne.
    exists (groups ++ [cur]). split; [|split; [|split]].
    + rewrite List.map_app. simpl. now rewrite Hc.
    + apply Forall_app. split; [exact Hg|]. constructor; [now split|constructor].
    + rewrite List.concat_app. simpl. now rewrite app_nil_r.
    + rewrite rev_app_distr. exact Hch.
  - destruct cur; [|discriminate]. rewrite app_nil_r in Hl.
    exists groups. split; [exact Hc|]. split; [exact Hg|]. split; [exact Hl|].
    destruct (rev groups) as [|g prev]; [trivial|].
    destruct Hch as [[l [rest [E _]]] _]. discriminate.
Qed.

Lemma lines_of_groups (groups : list (list str)) :
  Forall group_ok groups ->
  List.map lines_of (List.map (join [LF]) groups) = groups.
Proof.
  induction 1 as [|g groups [Ne Hf] _ IH]; [reflexivity|].
  simpl. rewrite IH. unfold lines_of. now rewrite split_join_char.
Qed.

Lemma join_groups (sep : str) (groups : list (list str)) :
  Forall (fun g => g <> []) groups ->
  join sep (List.map (join sep) groups) = join sep (concat groups).
Proof.
  induction 1 as [|g groups Ne Hg IH]; [reflexivity|].
  destruct groups as [|g2 groups].
  - simpl. now rewrite app_nil_r.
  - change (join sep (List.map (join sep) (g :: g2 :: groups)))
      with (join sep g ++ sep ++ join sep (List.map (join sep) (g2 :: groups))).
    rewrite IH. change (concat (g :: g2 :: groups)) with (g ++ concat (g2 :: groups)).
    rewrite join_app; [reflexivity | exact Ne |].
    inversion Hg; subst. simpl. destruct g2; [congruence|discriminate].
Qed.

(** Two groups that follow each other in a chain. *)
Lemma chain_adjacent self prev :
  forall cur, chain self cur prev ->
  forall pre g1 g2 post,
    rev prev ++ [cur] = pre ++ g1 :: g2 :: post -> closed_before self g1 g2.
Proof.
  induction prev as [|g prev IH]; intros cur Hch pre g1 g2 post E.
  - exfalso. simpl in E. destruct pre as [|? [|? ?]]; discriminate.
  - destruct Hch as [Hcl Hch]. simpl in E.
    destruct (exists_last (l := g2 :: post)) as [q [y Eq]]; [congruence|].
    rewrite Eq in E.
    change (pre ++ g1 :: q ++ [y]) with (pre ++ (g1 :: q) ++ [y]) in E.
    rewrite app_assoc in E. apply app_inj_tail in E. destruct E as [E1 E2].
    subst y. destruct q as [|z q].
    + simpl in Eq. injection Eq as -> ->.
      apply app_inj_tail in E1. destruct E1 as [_ <-]. exact Hcl.
    + simpl in Eq. injection Eq as -> ->.
      apply (IH g Hch pre g1 z q). exact E1.
Qed.

(** No line is lost, repeated or moved: the lines of the chunks, one chunk
    after the other, are the stripped non-blank lines of the script, and the
    chunks joined by line feeds are those lines joined by line feeds. *)
Theorem script_lines_preserved self script :
  concat (List.map lines_of (split_script_for_tts self script))
  = script_lines script
  /\ join [LF] (split_script_for_tts self script)
     = join [LF] (script_lines script).
Proof.
  destruct (tts_groups self script) as [groups [E [Hg [Hl _]]]].
  rewrite E. split.
  - now rewrite lines_of_groups.
  - rewrite join_groups; [now rewrite Hl|].
    eapply List.Forall_impl; [|exact Hg]. now intros g [Ne _].
Qed.

(** A chunk ends only in front of a speaker line that would have taken the
    running sum of the chunk over the budget: of two chunks that follow each
    other, the second starts with a speaker line, and the per-line estimates
    of the first plus that of this line exceed the budget. *)
Theorem chunk_boundary_at_speaker self script pre c1 c2 post :
  split_script_for_tts self script = pre ++ c1 :: c2 :: post ->
  exists l rest,
    lines_of c2 = l :: rest /\ is_speaker_line l = true
    /\ chunk_size self < sum_tokens (lines_of c1) + _estimate_tokens l.
Proof.
  intros E. destruct (tts_groups self script) as [groups [Eg [Hg [_ Hch]]]].
  pose proof (lines_of_groups groups Hg) as L. rewrite <- Eg, E in L.
  rewrite List.map_app in L. simpl in L.
  destruct (rev groups) as [|cur prev] eqn:R.
  - apply (f_equal (@rev _)) in R. rewrite rev_involutive in R. subst groups.
    destruct (List.map lines_of pre); discriminate.
  - apply (f_equal (@rev _)) in R. rewrite rev_involutive in R. simpl in R.
    rewrite R in L. symmetry in L.
    exact (chain_adjacent self prev cur Hch _ _ _ _ L).
Qed.

End ScriptLines.

Module ScriptLinesExamples.

Import TextSplitter ScriptSplitter ScriptLines.

Lemma chunk_boundary_witness :
  exists l rest,
    lines_of (lit "S2: bb
note") = l :: rest /\ is_speaker_line l = true
    /\ 8 < sum_tokens (lines_of (lit "Speaker 1: a")) + _estimate_tokens l.
Proof.
  apply (chunk_boundary_at_speaker {| chunk_size := 8 |}
           (lit "Speaker 1: a
   
  S2: bb
note
S1: c") [] (lit "Speaker 1: a") (lit "S2: bb
note") [lit "S1: c"]).
  reflexivity.
Defined.

End ScriptLinesExamples.

(** *** [split_by_tokens]: the shape of the chunks *)

Module ChunkShape.

Import TextSplitter Greedy.

(** A chunk made by the loops: not empty, no white space at either end. *)
Definition tidy (c : str) : Prop := stripped c /\ c <> [].

Lemma run_units (units us : list str) :
  Forall tidy units -> run us units -> Forall tidy us.
Proof.
  intros H [pre [post E]]. rewrite E in H.
  apply Forall_app in H. destruct H as [_ H].
  apply Forall_app in H. tauto.
Qed.

Lemma tidy_join (sep : str) (units us : list str) :
  Forall tidy units -> us <> [] -> run us units -> tidy (join sep us).
Proof.
  intros H N R. pose proof (run_units units us H R) as Hus. split.
  - now apply stripped_join.
  - apply join_nonempty; [|exact N].
    eapply List.Forall_impl; [|exact Hus]. now intros u [_ Nu].
Qed.

Lemma sentence_chunks_tidy self client p :
  tidy p -> Forall tidy (_split_by_sentences self client p).
Proof.
  intros Hp. unfold _split_by_sentences.
  destruct (sentences_of p) as [|s0 ss0] eqn:Es.
  - now constructor.
  - rewrite <- Es.
    rewrite (fold_left_ext _ _ _ _ (sentence_step_greedy self client)).
    pose proof (ChunkBudget.sentences_units p) as Hu.
    apply greedy_chunks.
    + exact Hu.
    + intros u Hin _. constructor; [|constructor].
      rewrite List.Forall_forall in Hu. exact (Hu u Hin).
    + intros us N R _. now apply (tidy_join [] (sentences_of p)).
Qed.

Lemma paragraph_chunks_tidy self client text :
  Forall tidy (split_paragraphs self client text).
Proof.
  unfold split_paragraphs.
  rewrite (fold_left_ext _ _ _ _ (paragraph_step_greedy self client)).
  pose proof (ChunkBudget.paragraphs_units text) as Hu.
  apply greedy_chunks.
  - exact Hu.
  - intros u Hin _. apply sentence_chunks_tidy.
    rewrite List.Forall_forall in Hu. exact (Hu u Hin).
  - intros us N R _. now apply (tidy_join [LF; LF] (_split_by_paragraphs text)).
Qed.

(** The loop of [greedy_step] gives a chunk as soon as there is a unit. *)
Lemma greedy_nonempty (sep : str) (fallback : str -> list str)
    (ex : str -> bool) (units : list str) :
  units <> [] -> Forall (fun u => u <> []) units ->
  (forall u, fallback u <> []) ->
  flush (fold_left (greedy_step sep fallback ex) units ([], [])) <> [].
Proof.
  intros Nu Hu Hfb.
  pose (P := fun (done : list str) (st : list str * str) =>
               done <> [] -> fst st <> [] \/ snd st <> []).
  assert (Hfin : P units (fold_left (greedy_step sep fallback ex) units ([], []))).
  { apply fold_left_invariant; [intros N; congruence|].
    intros done x rest [chunks cur] E _ _.
    assert (Nx : x <> []).
    { rewrite List.Forall_forall in Hu. apply Hu. rewrite E.
      apply in_or_app. right. now left. }
    unfold greedy_step. destruct (truthy cur) eqn:Tc.
    - destruct (ex (cur ++ sep ++ x)); cbn [fst snd].
      + left. destruct chunks; discriminate.
      + right. apply truthy_true in Tc. destruct cur; [congruence|discriminate].
    - destruct (ex x); cbn [fst snd].
      + left. intros E0. apply app_eq_nil in E0. destruct E0 as [_ E0].
        now apply (Hfb x).
      + now right. }
  destruct (fold_left (greedy_step sep fallback ex) units ([], []))
    as [chunks cur].
  unfold flush. destruct (truthy cur) eqn:Tc.
  - destruct chunks; discriminate.
  - apply truthy_false in Tc. destruct (Hfin Nu) as [H|H]; [exact H|].
    simpl in H. congruence.
Qed.

Lemma split_by_sentences_nonempty self client p :
  _split_by_sentences self client p <> [].
Proof.
  unfold _split_by_sentences.
  destruct (sentences_of p) as [|s0 ss0] eqn:Es; [discriminate|].
  rewrite <- Es.
  rewrite (fold_left_ext _ _ _ _ (sentence_step_greedy self client)).
  apply greedy_nonempty.
  - rewrite Es. discriminate.
  - eapply List.Forall_impl; [|exact (ChunkBudget.sentences_units p)].
    now intros u [_ N].
  - discriminate.
Qed.

(** A text is blank when stripping leaves nothing of it. *)
Lemma strip_nil_content (s : str) : strip s = [] <-> Reassembly.content s = [].
Proof.
  unfold Reassembly.content. split; intros H.
  - rewrite <- (Reassembly.filter_strip _ ReassemblyResults.content_keep_ws).
    now rewrite H.
  - destruct (strip s) as [|c r] eqn:E; [reflexivity|]. exfalso.
    assert (Hin : In c s) by (apply LineFacts.strip_incl; rewrite E; now left).
    destruct (stripped_strip s) as [Hh _]. rewrite E in Hh. simpl in Hh.
    assert (Hc : In c (List.filter (fun c => negb (isspace c)) s))
      by (apply List.filter_In; split; assumption).
    rewrite H in Hc. destruct Hc.
Qed.

Lemma paragraphs_nil (text : str) :
  _split_by_paragraphs text = [] <-> strip text = [].
Proof.
  rewrite strip_nil_content, <- ReassemblyResults.paragraphs_content.
  split; [now intros ->|]. intros H.
  pose proof (ChunkBudget.paragraphs_units text) as Hu.
  destruct (_split_by_paragraphs text) as [|p ps]; [reflexivity|]. exfalso.
  inversion Hu as [|? ? [[Hh _] Np] _]; subst.
  destruct p as [|c p]; [congruence|]. simpl in Hh.
  unfold Reassembly.content in H. simpl in H. rewrite Hh in H. discriminate.
Qed.

Lemma split_paragraphs_nil self client text :
  split_paragraphs self client text = [] <-> strip text = [].
Proof.
  rewrite <- paragraphs_nil. unfold split_paragraphs. split.
  - intros H. destruct (_split_by_paragraphs text) as [|p ps] eqn:Ep;
      [reflexivity|]. exfalso. revert H. rewrite <- Ep.
    rewrite (fold_left_ext _ _ _ _ (paragraph_step_greedy self client)).
    apply greedy_nonempty.
    + rewrite Ep. discriminate.
    + eapply List.Forall_impl; [|exact (ChunkBudget.paragraphs_units text)].
      now intros u [_ N].
    + apply split_by_sentences_nonempty.
  - now intros ->.
Qed.

(** Every chunk of [split_by_tokens] is not empty and has no white space
    at its ends, unless it is the text itself, returned at once because a
    client counted it within the budget. *)
Theorem chunks_tidy self client text :
  Forall (fun c =>
            tidy c
            \/ (c = text
                /\ exists cl, client = Some cl
                     /\ LLMClient.count_tokens cl text <= chunk_size self))
    (split_by_tokens self client text).
Proof.
  assert (H : forall Q : str -> Prop,
            Forall (fun c => tidy c \/ Q c) (split_paragraphs self client text)).
  { intros Q. eapply List.Forall_impl; [|apply paragraph_chunks_tidy]. now left. }
  unfold split_by_tokens. destruct client as [cl|]; [|apply H].
  unfold LLMClient.is_token_limit_exceeded.
  destruct (chunk_size self <? LLMClient.count_tokens cl text) eqn:E; simpl negb;
    cbv iota; [apply H|].
  apply Z.ltb_ge in E. constructor; [|constructor].
  right. split; [reflexivity|]. now exists cl.
Qed.

(** [split_by_tokens] returns no chunk at all exactly for a blank text that
    does not pass the test in front of the loop: without a client, or with a
    client that counts it over the budget. *)
Theorem no_chunk_iff_blank self client text :
  split_by_tokens self client text = []
  <-> strip text = []
      /\ forall c, client = Some c ->
                   chunk_size self < LLMClient.count_tokens c text.
Proof.
  unfold split_by_tokens. destruct client as [cl|].
  - unfold LLMClient.is_token_limit_exceeded.
    destruct (chunk_size self <? LLMClient.count_tokens cl text) eqn:E; simpl negb;
      cbv iota.
    + rewrite split_paragraphs_nil. apply Z.ltb_lt in E. split.
      * intros H. split; [exact H|]. now intros c [= <-].
      * tauto.
    + apply Z.ltb_ge in E. split; [discriminate|].
      intros [_ H]. specialize (H cl eq_refl). lia.
  - rewrite split_paragraphs_nil. split; [|tauto].
    intros H. split; [exact H|]. discriminate.
Qed.

End ChunkShape.

(** *** The retry loops, whatever the service answers *)

Module RetryShape.

Import RetryFacts.

Section Retry.

Context {A : Type}.
Variable body : trace -> list event * outcome A.
Variable exhausted : exc.

(** Attempt [j] is made from the history [history body tr j] and decides
    the call: the attempts before it raised an [Exception], and it returns,
    or raises what is not an [Exception], or is the last one allowed. *)
Definition decided_at (max_retries : Z) (tr : trace) (j : nat)
    (res : trace * outcome A) : Prop :=
  let h := history body tr j in
  res = (h ++ fst (body h), snd (body h))
  /\ (forall i, (i < j)%nat -> exists e, fails_with body (history body tr i) e)
  /\ (forall e, snd (body h) = Raise e -> is_Exception e = true ->
                Z.of_nat j = max_retries - 1).

Lemma retry_loop_decided (max_retries : Z) (tr : trace) (m k : nat) :
  Z.of_nat (k + S m) = max_retries ->
  (forall i, (i < k)%nat -> exists e, fails_with body (history body tr i) e) ->
  exists j, (k <= j <= k + m)%nat
    /\ decided_at max_retries tr j
         (retry_loop body exhausted max_retries
            (List.map Z.of_nat (seq k (S m))) (history body tr k)).
Proof.
  revert k. induction m as [|m IH]; intros k Hn Hbefore.
  - exists k. split; [lia|]. simpl.
    destruct (body (history body tr k)) as [evs result] eqn:Eb.
    replace (Z.of_nat k <? max_retries - 1) with false
      by (symmetry; apply Z.ltb_ge; lia).
    unfold decided_at. rewrite Eb. cbn [fst snd].
    split; [destruct result; [reflexivity | now rewrite andb_false_r]|].
    split; [exact Hbefore|]. intros; lia.
  - change (List.map Z.of_nat (seq k (S (S m))))
      with (Z.of_nat k :: List.map Z.of_nat (seq (S k) (S m))).
    rewrite retry_loop_cons.
    destruct (body (history body tr k)) as [evs result] eqn:Eb.
    assert (Hstop : (forall e, result = Raise e -> is_Exception e = false) ->
              exists j, (k <= j <= k + S m)%nat
                /\ decided_at max_retries tr j (history body tr k ++ evs, result)).
    { intros Hx. exists k. split; [lia|]. unfold decided_at.
      rewrite Eb. cbn [fst snd]. split; [reflexivity|].
      split; [exact Hbefore|]. intros e He Hex. rewrite (Hx e He) in Hex.
      discriminate. }
    destruct result as [v|e].
    + apply Hstop. discriminate.
    + replace (Z.of_nat k <? max_retries - 1) with true
        by (symmetry; apply Z.ltb_lt; lia).
      rewrite andb_true_r. destruct (is_Exception e) eqn:Hex.
      * replace (history body tr k ++ evs ++ [Sleep (2 ^ Z.of_nat k)])
          with (history body tr (S k)) by (simpl; now rewrite Eb).
        destruct (IH (S k)) as [j [Hj Hd]]; [lia| |].
        -- intros i Hi. destruct (Nat.eq_dec i k) as [->|Ne].
           ++ exists e. unfold fails_with. now rewrite Eb.
           ++ apply Hbefore. lia.
        -- exists j. split; [lia | exact Hd].
      * apply Hstop. now intros e' [= <-].
Qed.

(** Every call with at least one attempt allowed is decided at some
    attempt below [max_retries]. *)
Lemma retry_decided (max_retries : Z) (tr : trace) :
  1 <= max_retries ->
  exists j, (j < Z.to_nat max_retries)%nat
    /\ decided_at max_retries tr j (retry body exhausted max_retries tr).
Proof.
  intros Hn. unfold retry, range.
  destruct (Z.to_nat max_retries) as [|m] eqn:Em; [lia|].
  destruct (retry_loop_decided max_retries tr m 0) as [j [Hj Hd]];
    [lia | intros i Hi; lia |].
  exists j. split; [lia | exact Hd].
Qed.

End Retry.

(** What [LLMClient.generate] does, whatever the model answers: with
    [max_retries >= 1] it sends the prompt [j + 1] times for some
    [j < max_retries], waits 1, 2, 4, ... seconds between the requests and not
    after the last; its result is that of the last request, so a returned
    text is never empty; the earlier requests each failed with an
    [Exception]; and an [Exception] is raised only by request number
    [max_retries]. *)
Theorem generate_decided (c : LLMClient.t) (prompt : str) (max_retries : Z)
    (tr : trace) :
  1 <= max_retries ->
  exists j, (j < Z.to_nat max_retries)%nat
    /\ let req := LLMRequest prompt in
       let answer i :=
         LLMClient.response_text
           (LLMClient.generate_content c (tr ++ before req i) prompt) in
       LLMClient.generate c prompt max_retries tr
       = (tr ++ before req j ++ [req], answer j)
       /\ (forall text, answer j = Ok text -> text <> [])
       /\ (forall i, (i < j)%nat ->
             exists e, answer i = Raise e /\ is_Exception e = true)
       /\ (forall e, answer j = Raise e -> is_Exception e = true ->
             Z.of_nat j = max_retries - 1).
Proof.
  intros Hn. unfold LLMClient.generate.
  destruct (retry_decided (LLMClient.generate_attempt c prompt)
              (Exception "LLM生成に失敗しました") max_retries tr Hn)
    as [j [Hj [Hres [Hbefore Hlast]]]].
  assert (Hh : forall i, history (LLMClient.generate_attempt c prompt) tr i
                         = tr ++ before (LLMRequest prompt) i)
    by (intros i; now apply history_single_event).
  exists j. split; [exact Hj|]. cbv zeta.
  rewrite Hh in Hres, Hlast. cbn [LLMClient.generate_attempt fst snd] in Hres, Hlast.
  split; [|split; [|split]].
  - rewrite Hres. now rewrite <- app_assoc.
  - intros text E. unfold LLMClient.response_text in E.
    destruct (LLMClient.generate_content c _ prompt) as [[t|]|]; try discriminate.
    destruct (truthy t) eqn:T; [|discriminate].
    injection E as <-. now apply truthy_true.
  - intros i Hi. destruct (Hbefore i Hi) as [e He]. exists e.
    unfold fails_with in He. now rewrite Hh in He.
  - exact Hlast.
Qed.

End RetryShape.

Module RetryShapeExamples.

Import RetryFacts RetryShape.

(** A model that fails twice and then answers. *)
Definition flaky : LLMClient.t :=
  {| LLMClient.count_api := fun _ => None;
     LLMClient.generate_content := fun h _ =>
       if (length h <? 4)%nat then Raise (Exception "429")
       else Ok (Some (lit "ok")) |}.

Lemma generate_decided_witness :
  exists j, (j < 3)%nat
    /\ LLMClient.generate flaky (lit "p") 3 []
       = (before (LLMRequest (lit "p")) j ++ [LLMRequest (lit "p")],
          LLMClient.response_text
            (LLMClient.generate_content flaky (before (LLMRequest (lit "p")) j)
               (lit "p"))).
Proof.
  destruct (generate_decided flaky (lit "p") 3 [] ltac:(lia))
    as [j [Hj [Hres _]]].
  exists j. split; [exact Hj | exact Hres].
Defined.

Example flaky_run :
  LLMClient.generate flaky (lit "p") 3 []
  = ([LLMRequest (lit "p"); Sleep 1; LLMRequest (lit "p"); Sleep 2;
      LLMRequest (lit "p")], Ok (lit "ok")).
Proof. reflexivity. Qed.

End RetryShapeExamples.

(** *** [generate_audio]: the files of a successful call *)

Module AudioFiles.

Import RetryFacts TTSClient.

Section Client.

Variable lower : str -> str.
Variable guess_extension : str -> option str.

(** What one element of the stream gives to save: the extension and the
    bytes, when it carries audio data. *)
Definition segment_of (chunk : stream_chunk) : option (str * list Z) :=
  match chunk with
  | InlineData ((_ :: _) as data) mime_type =>
      match guess_extension mime_type with
      | Some file_extension => Some (file_extension, data)
      | None =>
          match _convert_to_wav lower data mime_type with
          | Ok wav => Some (lit ".wav", wav)
          | Raise _ => None
          end
      end
  | _ => None
  end.

Fixpoint segments (chunks : list stream_chunk) : list (str * list Z) :=
  match chunks with
  | [] => []
  | chunk :: rest =>
      match segment_of chunk with
      | Some s => s :: segments rest
      | None => segments rest
      end
  end.

(** The path of segment number [index]. *)
Definition audio_path (output_dir : str) (index : nat) (file_extension : str)
    : str :=
  output_dir ++ lit "/" ++ lit "audio_chunk_" ++ decimal_of_nat index
    ++ file_extension.

(** The segments with their paths, numbered from [index]. *)
Fixpoint place (output_dir : str) (index : nat) (segs : list (str * list Z))
    : list (str * list Z) :=
  match segs with
  | [] => []
  | (file_extension, data) :: rest =>
      (audio_path output_dir index file_extension, data)
        :: place output_dir (S index) rest
  end.

Definition write (f : str * list Z) : event := WriteFile (fst f) (snd f).

Lemma stream_loop_ok (output_dir : str) (chunks : list stream_chunk)
    (stream_error : option exc) :
  forall audio_files index evs evs' result,
    stream_loop lower guess_extension output_dir chunks stream_error
                (audio_files, index, evs) = (evs', Ok result) ->
    let saved := place output_dir index (segments chunks) in
    stream_error = None
    /\ result = audio_files ++ List.map fst saved
    /\ evs' = evs ++ List.map write saved
    /\ result <> [].
Proof.
  induction chunks as [|chunk rest IH]; intros audio_files index evs evs' result.
  - simpl. destruct stream_error; [discriminate|].
    destruct audio_files as [|f fs]; [discriminate|].
    intros [= <- <-]. now rewrite !app_nil_r.
  - cbn [stream_loop].
    assert (Hskip : segment_of chunk = None ->
              stream_loop lower guess_extension output_dir rest stream_error
                (audio_files, index, evs) = (evs', Ok result) ->
              let saved := place output_dir index (segments (chunk :: rest)) in
              stream_error = None
              /\ result = audio_files ++ List.map fst saved
              /\ evs' = evs ++ List.map write saved
              /\ result <> []).
    { intros Hs H. cbn [segments]. rewrite Hs. now apply IH. }
    destruct chunk as [| |data mime_type|]; cbn [chunk_step];
      [now apply Hskip | discriminate | | now apply Hskip].
    destruct data as [|b data]; [now apply Hskip|].
    cbn [segments segment_of].
    destruct (guess_extension mime_type) as [file_extension|].
    + intros H. apply IH in H. cbv zeta in H.
      destruct H as [He [Hr [Hev Hn]]]. cbn [place List.map fst snd].
      rewrite <- !app_assoc in Hr, Hev. auto.
    + destruct (_convert_to_wav lower (b :: data) mime_type) as [wav|e];
        [|discriminate].
      intros H. apply IH in H. cbv zeta in H.
      destruct H as [He [Hr [Hev Hn]]]. cbn [place List.map fst snd].
      rewrite <- !app_assoc in Hr, Hev. auto.
Qed.

(** An attempt that returns. *)
Lemma audio_attempt_ok (c : TTSClient.t) (text output_dir : str) (h : trace)
    (evs : list event) (files : list str) :
  audio_attempt lower guess_extension c text output_dir h = (evs, Ok files) ->
  exists chunks : list stream_chunk,
    let saved := place output_dir 0 (segments chunks) in
    generate_content_stream c h text = (chunks, None)
    /\ files = List.map fst saved
    /\ files <> []
    /\ evs = TTSRequest text :: List.map write saved.
Proof.
  unfold audio_attempt.
  destruct (generate_content_stream c h text) as [chunks stream_error].
  intros El. apply stream_loop_ok in El. cbv zeta in El.
  destruct El as [-> [Hr [Hev Hne]]]. exists chunks. cbv zeta. auto.
Qed.

(** A call that returns was decided by an attempt that returned. *)
Lemma generate_audio_attempt (c : TTSClient.t) (text output_dir : str)
    (max_retries : Z) (tr tr' : trace) (files : list str) :
  generate_audio lower guess_extension c text output_dir max_retries tr
  = (tr', Ok files) ->
  exists j,
    let attempt := audio_attempt lower guess_extension c text output_dir in
    (j < Z.to_nat max_retries)%nat
    /\ attempt (history attempt tr j)
       = (fst (attempt (history attempt tr j)), Ok files)
    /\ tr' = history attempt tr j ++ fst (attempt (history attempt tr j)).
Proof.
  intros H. unfold generate_audio in H.
  destruct (Z_lt_le_dec max_retries 1) as [Hn|Hn].
  - rewrite retry_no_attempt in H by lia. discriminate.
  - destruct (RetryShape.retry_decided
                (audio_attempt lower guess_extension c text output_dir)
                (Exception "TTS生成に失敗しました") max_retries tr Hn)
      as [j [Hj [Hres _]]].
    rewrite H in Hres. injection Hres as Htr Hok.
    exists j. cbv zeta. split; [exact Hj|]. split; [|exact Htr].
    rewrite Hok. apply surjective_pairing.
Qed.

(** A successful call of [generate_audio] returns the files of one
    attempt, the last: the stream of that attempt ended without an error,
    each of its elements with audio data was written to
    [output_dir/audio_chunk_<n><extension>], numbered from 0 in the order of
    the stream, and the list returned holds these paths, in this order, and
    is not empty. Nothing follows the writes. *)
Theorem generate_audio_files (c : TTSClient.t) (text output_dir : str)
    (max_retries : Z) (tr tr' : trace) (files : list str) :
  generate_audio lower guess_extension c text output_dir max_retries tr
  = (tr', Ok files) ->
  exists (j : nat) (chunks : list stream_chunk),
    let attempt := audio_attempt lower guess_extension c text output_dir in
    let h := history attempt tr j in
    let saved := place output_dir 0 (segments chunks) in
    (j < Z.to_nat max_retries)%nat
    /\ generate_content_stream c h text = (chunks, None)
    /\ files = List.map fst saved
    /\ files <> []
    /\ tr' = h ++ TTSRequest text :: List.map write saved.
Proof.
  intros H. apply generate_audio_attempt in H. cbv zeta in H.
  destruct H as [j [Hj [Ha Htr]]].
  apply audio_attempt_ok in Ha. cbv zeta in Ha.
  destruct Ha as [chunks [Es [Hf [Hne Hev]]]].
  exists j, chunks. cbv zeta.
  split; [exact Hj|]. split; [exact Es|]. split; [exact Hf|].
  split; [exact Hne|]. now rewrite Htr, Hev.
Qed.

End Client.

End AudioFiles.

Module AudioFilesExamples.

Import AudioFiles.

(** A speech model whose first stream breaks after one segment. *)
Definition broken_once : TTSClient.t :=
  {| TTSClient.generate_content_stream := fun h _ =>
       match h with
       | [] => ([TTSClient.InlineData [1] (lit "audio/mpeg")],
                Some (Exception "connection reset"))
       | _ => ([TTSClient.InlineData [2] (lit "audio/mpeg")], None)
       end |}.

Lemma generate_audio_files_witness :
  exists (j : nat) (chunks : list TTSClient.stream_chunk),
    (j < 3)%nat
    /\ [lit "out/audio_chunk_0.mp3"]
       = List.map fst (place (lit "out") 0
                         (segments ascii_lower (fun _ => Some (lit ".mp3")) chunks)).
Proof.
  destruct (generate_audio_files ascii_lower (fun _ => Some (lit ".mp3"))
              broken_once (lit "t") (lit "out") 3 []
              [TTSRequest (lit "t"); WriteFile (lit "out/audio_chunk_0.mp3") [1];
               Sleep 1;
               TTSRequest (lit "t"); WriteFile (lit "out/audio_chunk_0.mp3") [2]]
              [lit "out/audio_chunk_0.mp3"] ltac:(reflexivity))
    as [j [chunks [Hj [_ [Hf _]]]]].
  exists j, chunks. split; [exact Hj | exact Hf].
Defined.

End AudioFilesExamples.

(** *** [run_full_pipeline]: what a result tells about the stages *)

Module PipelineOutcome.

Import Ingest Orchestrator.

Section Pipeline.

Variable speakers voices : Type.
Variable get_output_dir : option str -> str.
Variable path_name : str -> str.
Variable ingest_markdown : str -> outcome IngestedDoc.
Variable build_script :
  option IngestedDoc -> option str -> str -> Z -> speakers -> outcome str.
Variable build_explainer : str -> option str -> outcome str.
Variable build_questions : str -> option str -> outcome (str * option str).
Variable build_audio : str -> option str -> voices -> outcome (option str).
Variable send_email :
  option str -> str -> gmap string (option str) -> outcome bool.

Variables (input_file language : str) (target_length : Z) (spk : speakers)
  (voice_map : voices) (send_mail : bool) (timestamp : option str).

Definition out : str := get_output_dir timestamp.

Definition run : M (option str) :=
  run_full_pipeline speakers voices get_output_dir path_name ingest_markdown
    build_script build_explainer build_questions build_audio send_email
    input_file language target_length spk voice_map send_mail timestamp.

Definition copy_entry (d : IngestedDoc) : entry :=
  InputCopy (out ++ lit "/input_" ++ path_name input_file) (raw_md d).

(** The ledger after the audio step, and what the step logs. *)
Definition audio_ledger (ledger : gmap string (option str))
    (audio : outcome (option str)) : gmap string (option str) :=
  match audio with
  | Ok audio_path => <["audio" := audio_path]> ledger
  | Raise _ => ledger
  end.

Definition audio_entries (audio : outcome (option str)) : list entry :=
  Step 5 :: match audio with Raise e => [AudioFailed e] | Ok _ => [] end.

(** The ways a run ends with the error [e]: the stage that raised it, the
    ledger it leaves and the steps logged. The audio stage and the email
    step end the run only with an error that is not an [Exception]. *)
Inductive failure (st : state) (e : exc)
    : gmap string (option str) -> list entry -> Prop :=
  | fail_ingest :
      ingest_markdown input_file = Raise e ->
      failure st e (results st) [Step 1]
  | fail_script d :
      ingest_markdown input_file = Ok d ->
      build_script (Some d) (Some out) language target_length spk = Raise e ->
      failure st e (results st) [Step 1; copy_entry d; Step 2]
  | fail_explainer d script_path :
      ingest_markdown input_file = Ok d ->
      build_script (Some d) (Some out) language target_length spk = Ok script_path ->
      build_explainer script_path (Some out) = Raise e ->
      failure st e (<["script" := Some script_path]> (results st))
              [Step 1; copy_entry d; Step 2; Step 3]
  | fail_questions d script_path explanation_path :
      ingest_markdown input_file = Ok d ->
      build_script (Some d) (Some out) language target_length spk = Ok script_path ->
      build_explainer script_path (Some out) = Ok explanation_path ->
      build_questions script_path (Some out) = Raise e ->
      failure st e
        (<["explanation" := Some explanation_path]>
           (<["script" := Some script_path]> (results st)))
        [Step 1; copy_entry d; Step 2; Step 3; Step 4]
  | fail_audio d script_path explanation_path qa_path flashcard_path :
      ingest_markdown input_file = Ok d ->
      build_script (Some d) (Some out) language target_length spk = Ok script_path ->
      build_explainer script_path (Some out) = Ok explanation_path ->
      build_questions script_path (Some out) = Ok (qa_path, flashcard_path) ->
      build_audio script_path (Some out) voice_map = Raise e ->
      is_Exception e = false ->
      failure st e
        (<["flashcards" := flashcard_path]> (<["questions" := Some qa_path]>
           (<["explanation" := Some explanation_path]>
              (<["script" := Some script_path]> (results st)))))
        [Step 1; copy_entry d; Step 2; Step 3; Step 4; Step 5]
  | fail_email d script_path explanation_path qa_path flashcard_path ledger :
      ingest_markdown input_file = Ok d ->
      build_script (Some d) (Some out) language target_length spk = Ok script_path ->
      build_explainer script_path (Some out) = Ok explanation_path ->
      build_questions script_path (Some out) = Ok (qa_path, flashcard_path) ->
      (forall x, build_audio script_path (Some out) voice_map = Raise x ->
                 is_Exception x = true) ->
      ledger
      = audio_ledger
          (<["flashcards" := flashcard_path]> (<["questions" := Some qa_path]>
             (<["explanation" := Some explanation_path]>
                (<["script" := Some script_path]> (results st)))))
          (build_audio script_path (Some out) voice_map) ->
      send_mail = true ->
      send_email (Some out) (title d) ledger = Raise e ->
      is_Exception e = false ->
      failure st e ledger
        ([Step 1; copy_entry d; Step 2; Step 3; Step 4]
           ++ audio_entries (build_audio script_path (Some out) voice_map)
           ++ [Step 6]).

(** What a run that returns has done: the four first stages returned, the
    ledger holds their paths, the audio entry is the path (or [None]) the
    audio stage returned, or is untouched when that stage raised. *)
Inductive success (st st' : state) : Prop :=
  | success_intro d script_path explanation_path qa_path flashcard_path :
      ingest_markdown input_file = Ok d ->
      build_script (Some d) (Some out) language target_length spk = Ok script_path ->
      build_explainer script_path (Some out) = Ok explanation_path ->
      build_questions script_path (Some out) = Ok (qa_path, flashcard_path) ->
      doc st' = Some d ->
      output_dir st' = Some out ->
      results st'
      = audio_ledger
          (<["flashcards" := flashcard_path]> (<["questions" := Some qa_path]>
             (<["explanation" := Some explanation_path]>
                (<["script" := Some script_path]> (results st)))))
          (build_audio script_path (Some out) voice_map) ->
      log st'
      = log st
        ++ [Step 1; copy_entry d; Step 2; Step 3; Step 4]
        ++ audio_entries (build_audio script_path (Some out) voice_map)
        ++ OrchestratorFacts.email_entries send_mail
             (send_email (Some out) (title d) (results st'))
        ++ [Summary (results st')] ->
      success st st'.

Ltac run_unfold :=
  unfold run, run_full_pipeline, ingest_step, build_script_step,
    build_explainer_step, build_questions_step, build_audio_step,
    send_email_step, _print_summary;
  unfold try_except, bind, call, get, write, set_result, set_doc,
    set_output_dir, ret, raise;
  cbn [doc output_dir results log fst snd]; fold out.

Ltac run_step := cbn [doc output_dir results log raw_md fst snd is_Exception].

(** The run as a case analysis on what the stages answer. *)
Lemma run_cases (st : state) :
  (exists st', run st = (st', Ok (Some out)) /\ success st st')
  \/ (exists st' e ledger entries,
        run st = (st', Raise e)
        /\ failure st e ledger entries
        /\ results st' = ledger
        /\ log st'
           = log st ++ entries
             ++ (if is_Exception e then [PipelineError e] else [])).
Proof using Type.
  run_unfold.
  destruct (ingest_markdown input_file) as [d|e] eqn:Hi; run_step.
  2:{ right. destruct (is_Exception e) eqn:Hx; run_step;
      (eexists; exists e; eexists; eexists; split; [reflexivity|];
       split; [apply fail_ingest; exact Hi|]; split; [reflexivity|]);
      cbn [log]; rewrite Hx; now rewrite <- ?app_assoc, ?app_nil_r. }
  destruct (build_script (Some d) (Some out) language target_length spk)
    as [script_path|e] eqn:Hs; run_step.
  2:{ right. destruct (is_Exception e) eqn:Hx; run_step;
      (eexists; exists e; eexists; eexists; split; [reflexivity|];
       split; [apply (fail_script _ _ d); assumption|]; split; [reflexivity|]);
      cbn [log]; rewrite Hx; now rewrite <- ?app_assoc, ?app_nil_r. }
  destruct (build_explainer script_path (Some out)) as [explanation_path|e] eqn:He;
    run_step.
  2:{ right. destruct (is_Exception e) eqn:Hx; run_step;
      (eexists; exists e; eexists; eexists; split; [reflexivity|];
       split; [apply (fail_explainer _ _ d script_path); assumption|];
       split; [reflexivity|]);
      cbn [log]; rewrite Hx; now rewrite <- ?app_assoc, ?app_nil_r. }
  destruct (build_questions script_path (Some out)) as [[qa_path flashcard_path]|e]
    eqn:Hq; run_step.
  2:{ right. destruct (is_Exception e) eqn:Hx; run_step;
      (eexists; exists e; eexists; eexists; split; [reflexivity|];
       split; [apply (fail_questions _ _ d script_path explanation_path);
               assumption|];
       split; [reflexivity|]);
      cbn [log]; rewrite Hx; now rewrite <- ?app_assoc, ?app_nil_r. }
  set (ledger4 := <["flashcards" := flashcard_path]> (<["questions" := Some qa_path]>
                    (<["explanation" := Some explanation_path]>
                       (<["script" := Some script_path]> (results st))))).
  assert (Hok : forall st' : state,
            doc st' = Some d -> output_dir st' = Some out ->
            results st'
            = audio_ledger ledger4 (build_audio script_path (Some out) voice_map) ->
            log st'
            = log st
              ++ [Step 1; copy_entry d; Step 2; Step 3; Step 4]
              ++ audio_entries (build_audio script_path (Some out) voice_map)
              ++ OrchestratorFacts.email_entries send_mail
                   (send_email (Some out) (title d) (results st'))
              ++ [Summary (results st')] ->
            success st st').
  { intros st' H1 H2 H3 H4.
    now apply (success_intro _ _ d script_path explanation_path qa_path
                 flashcard_path). }
  assert (Hmail : send_mail = true ->
            forall e, is_Exception e = false ->
            send_email (Some out) (title d)
              (audio_ledger ledger4 (build_audio script_path (Some out) voice_map))
            = Raise e ->
            (forall x, build_audio script_path (Some out) voice_map = Raise x ->
                       is_Exception x = true) ->
            failure st e
              (audio_ledger ledger4 (build_audio script_path (Some out) voice_map))
              ([Step 1; copy_entry d; Step 2; Step 3; Step 4]
                 ++ audio_entries (build_audio script_path (Some out) voice_map)
                 ++ [Step 6])).
  { intros Hm e Hx Hsend Haud.
    now apply (fail_email _ _ d script_path explanation_path qa_path
                 flashcard_path). }
  destruct (build_audio script_path (Some out) voice_map) as [audio_path|e] eqn:Ha;
    run_step.
  - (* the audio stage returned *)
    cbn [audio_ledger audio_entries] in Hok, Hmail.
    destruct send_mail eqn:Hm; run_step.
    + destruct (send_email (Some out) (title d) (<["audio" := audio_path]> ledger4))
        as [b|e] eqn:Hsend; run_step.
      * left. eexists. split; [reflexivity|].
        apply Hok; cbn [doc output_dir results log]; try reflexivity.
        unfold OrchestratorFacts.email_entries. rewrite Hsend.
        now rewrite <- !app_assoc.
      * destruct (is_Exception e) eqn:Hx; run_step.
        -- left. eexists. split; [reflexivity|].
           apply Hok; cbn [doc output_dir results log]; try reflexivity.
           unfold OrchestratorFacts.email_entries. rewrite Hsend.
           now rewrite <- !app_assoc.
        -- right. rewrite Hx. run_step.
           eexists; exists e; eexists; eexists. split; [reflexivity|].
           split; [apply Hmail; auto; discriminate|]. split; [reflexivity|].
           cbn [log]. rewrite Hx. now rewrite <- ?app_assoc, ?app_nil_r.
    + left. eexists. split; [reflexivity|].
      apply Hok; cbn [doc output_dir results log]; try reflexivity.
      unfold OrchestratorFacts.email_entries. now rewrite <- !app_assoc.
  - (* the audio stage raised *)
    cbn [audio_ledger audio_entries] in Hok, Hmail.
    destruct (is_Exception e) eqn:Hx; run_step.
    2:{ right. rewrite Hx. run_step.
        eexists; exists e; eexists; eexists. split; [reflexivity|].
        split; [|split; [reflexivity|]].
        - now apply (fail_audio _ _ d script_path explanation_path qa_path
                       flashcard_path).
        - cbn [log]. rewrite Hx. now rewrite <- ?app_assoc, ?app_nil_r. }
    destruct send_mail eqn:Hm; run_step.
    + fold ledger4.
      destruct (send_email (Some out) (title d) ledger4) as [b|x] eqn:Hsend; run_step.
      * left. eexists. split; [reflexivity|].
        apply Hok; cbn [doc output_dir results log]; try reflexivity.
        unfold OrchestratorFacts.email_entries. fold ledger4. rewrite Hsend.
        now rewrite <- !app_assoc.
      * destruct (is_Exception x) eqn:Hxx; run_step.
        -- left. eexists. split; [reflexivity|].
           apply Hok; cbn [doc output_dir results log]; try reflexivity.
           unfold OrchestratorFacts.email_entries. fold ledger4. rewrite Hsend.
           now rewrite <- !app_assoc.
        -- right. rewrite Hxx. run_step.
           eexists; exists x; eexists; eexists. split; [reflexivity|].
           split; [apply Hmail; auto; now intros x' [= <-]|].
           split; [reflexivity|].
           cbn [log]. rewrite Hxx. now rewrite <- ?app_assoc, ?app_nil_r.
    + left. eexists. split; [reflexivity|].
      apply Hok; cbn [doc output_dir results log]; try reflexivity.
      unfold OrchestratorFacts.email_entries. now rewrite <- !app_assoc.
Qed.

(** A run that returns has passed the four first stages: it returns the
    output directory, each of ingest, script, explainer and questions
    returned, the ledger holds their paths, and its audio entry is what the
    audio stage returned, or what it was before when that stage raised an
    [Exception]. The log ends with the summary. *)
Theorem pipeline_success_sound (st st' : state) (r : option str) :
  run st = (st', Ok r) -> r = Some out /\ success st st'.
Proof using Type.
  intros H. destruct (run_cases st) as [[st1 [H1 Hs]]|[st1 [e [l [en [H1 _]]]]]];
    rewrite H in H1.
  - injection H1 as <- ->. now split.
  - discriminate.
Qed.

(** A run that raises [e] was ended by one stage that raised [e]: the
    stages before it returned and left their paths in the ledger, no stage
    after it ran, and no summary was logged; the error is logged when it is an
    [Exception]. The audio stage and the email step end a run only with an
    error that is not an [Exception]. *)
Theorem pipeline_failure_origin (st st' : state) (e : exc) :
  run st = (st', Raise e) ->
  exists entries,
    failure st e (results st') entries
    /\ log st'
       = log st ++ entries ++ (if is_Exception e then [PipelineError e] else []).
Proof using Type.
  intros H. destruct (run_cases st) as [[st1 [H1 Hs]]|[st1 [e1 [l [en [H1 Hf]]]]]];
    rewrite H in H1.
  - discriminate.
  - injection H1 as <- <-. destruct Hf as [Hf [<- Hl]]. now exists en.
Qed.

End Pipeline.

End PipelineOutcome.

(** *** [_convert_to_wav]: when it raises *)

Module WavRange.

Import Struct TTSClient.

(** The values fit the fields of the header. *)
Definition fits (b r n : Z) : Prop :=
  0 <= b < 65536 /\ 0 <= r < 4294967296 /\ r * (b / 8) < 4294967296
  /\ 36 + n < 4294967296.

Lemma pack_item_u32 (v : Z) :
  pack_item (U32 v)
  = if (0 <=? v) && (v <? 4294967296) then Some (le_bytes 4 v) else None.
Proof. reflexivity. Qed.

Lemma pack_item_u16 (v : Z) :
  pack_item (U16 v)
  = if (0 <=? v) && (v <? 65536) then Some (le_bytes 2 v) else None.
Proof. reflexivity. Qed.

Lemma in_range (lo hi v : Z) :
  (lo <=? v) && (v <? hi) = true <-> lo <= v < hi.
Proof. rewrite andb_true_iff, Z.leb_le, Z.ltb_lt. tauto. Qed.

(** [struct.pack] rejects the header as soon as a value does not fit. *)
Lemma pack_header_none (b r n : Z) :
  0 <= n -> ~ fits b r n -> pack (wav_header_items b r n) = None.
Proof.
  intros Hn Hfit. unfold wav_header_items. cbv zeta. rewrite Z.mul_1_l.
  cbn [pack]. rewrite !pack_item_u32, !pack_item_u16.
  destruct ((0 <=? 36 + n) && (36 + n <? 4294967296)) eqn:E1; [|reflexivity].
  destruct ((0 <=? r) && (r <? 4294967296)) eqn:E2;
    [|now destruct (pack_item _); [simpl|]; repeat (destruct (pack_item _))].
  destruct ((0 <=? b) && (b <? 65536)) eqn:E3.
  - destruct ((0 <=? r * (b / 8)) && (r * (b / 8) <? 4294967296)) eqn:E4.
    + exfalso. apply Hfit. apply in_range in E1, E2, E3, E4.
      unfold fits. lia.
    + cbn. now destruct ((0 <=? b / 8) && (b / 8 <? 65536)).
  - cbn. destruct ((0 <=? r * (b / 8)) && (r * (b / 8) <? 4294967296));
      now destruct ((0 <=? b / 8) && (b / 8 <? 65536)).
Qed.

Lemma le_bytes_length (k : nat) (v : Z) : length (le_bytes k v) = k.
Proof. revert v. induction k as [|k IH]; intros v; simpl; auto. Qed.

(** [_convert_to_wav] returns exactly when the two parameters, the byte
    rate and the size fit the fields of the header: then the result is 44
    bytes longer than the samples; otherwise [struct.pack] raises
    [struct.error] and no bytes are returned, so no header ever holds a
    truncated value. *)
Theorem convert_to_wav_total lower (audio_data : list Z) (mime_type : str) :
  let '(b, r) := _parse_audio_mime_type lower mime_type in
  let n := Z.of_nat (length audio_data) in
  match _convert_to_wav lower audio_data mime_type with
  | Ok wav =>
      fits b r n /\ length wav = (44 + length audio_data)%nat
      /\ skipn 44 wav = audio_data
  | Raise e => e = StructError /\ ~ fits b r n
  end.
Proof.
  destruct (_parse_audio_mime_type lower mime_type) as [b r] eqn:Hp. cbv zeta.
  set (n := Z.of_nat (length audio_data)).
  assert (Hdec : fits b r n \/ ~ fits b r n) by (unfold fits; lia).
  destruct Hdec as [Hfit|Hfit].
  - destruct Hfit as [Hb [Hr [Hbr Hn]]].
    destruct (WavHeader.convert_fields lower audio_data mime_type b r Hp Hb Hr Hbr Hn)
      as [wav [Hw [Hs _]]].
    rewrite Hw. split; [unfold fits; tauto|]. split; [|exact Hs].
    unfold _convert_to_wav in Hw. rewrite Hp in Hw. fold n in Hw.
    assert (Hba : 0 <= b / 8 < 65536).
    { split; [apply Z.div_pos; lia | apply Z.div_lt_upper_bound; lia]. }
    assert (Hbr0 : 0 <= r * (b / 8)) by (apply Z.mul_nonneg_nonneg; lia).
    rewrite WavHeader.header_bytes in Hw by lia.
    apply (f_equal (fun o => match o with Ok w => length w | Raise _ => 0%nat end))
      in Hw.
    rewrite <- Hw, !length_app, !le_bytes_length. simpl. lia.
  - unfold _convert_to_wav. rewrite Hp. fold n.
    rewrite pack_header_none by (unfold n; lia || exact Hfit).
    split; [reflexivity | exact Hfit].
Qed.

End WavRange.

Module WavHeaderCases.

Import Struct TTSClient WavHeader WavRange.

(** C9, as the code has it. The header in front of headerless samples.
    With [b] the last [audio/L<b>] value and [r] the last [rate=<r>] value of
    the MIME type that [int] accepts, and the defaults 16 and 24000 for a
    parameter that is absent or has no such value: when [b], [r], the byte
    rate and the size fit the unsigned 16 and 32 bit fields of the header,
    the header is mono PCM with [block_align = b / 8],
    [byte_rate = r * block_align] and [chunk_size = 36 + data_size], and the
    samples follow it; when one of them does not fit, no default is taken:
    [struct.pack] raises and there is no header. *)
Theorem wav_header_or_error lower (audio_data : list Z) (mime_type : str) :
  let b := List.last (bits_values lower mime_type) 16 in
  let r := List.last (rate_values lower mime_type) 24000 in
  let n := Z.of_nat (length audio_data) in
  (fits b r n ->
   exists wav,
     _convert_to_wav lower audio_data mime_type = Ok wav
     /\ skipn 44 wav = audio_data
     /\ read_header wav
        = {| chunk_id := lit "RIFF";
             chunk_size := 36 + n;
             format := lit "WAVE";
             audio_format := 1;
             num_channels := 1;
             sample_rate := r;
             byte_rate := r * (b / 8);
             block_align := b / 8;
             bits_per_sample := b;
             data_size := n |})
  /\ (~ fits b r n ->
      _convert_to_wav lower audio_data mime_type = Raise StructError).
Proof.
  intros b r n. split.
  - intros [Hb [Hr [Hbr Hn]]].
    apply convert_fields; try assumption. apply parse_last_values.
  - intros Hfit. unfold _convert_to_wav. rewrite parse_last_values.
    fold b r n. rewrite pack_header_none; [reflexivity | unfold n; lia | exact Hfit].
Qed.

End WavHeaderCases.

Module WavHeaderCasesExamples.

Import TTSClient WavHeader.

Lemma wav_header_or_error_witness :
  (exists wav,
    _convert_to_wav ascii_lower [1; 2; 3; 4; 5; 6]
                    (lit "audio/L24; codec=pcm; RATE=48000") = Ok wav
    /\ skipn 44 wav = [1; 2; 3; 4; 5; 6]
    /\ read_header wav
       = {| chunk_id := lit "RIFF"; chunk_size := 42; format := lit "WAVE";
            audio_format := 1; num_channels := 1; sample_rate := 48000;
            byte_rate := 144000; block_align := 3; bits_per_sample := 24;
            data_size := 6 |})
  /\ _convert_to_wav ascii_lower [0; 0] (lit "audio/L16;rate=-1")
     = Raise StructError.
Proof.
  split.
  - apply (proj1 (WavHeaderCases.wav_header_or_error ascii_lower
                    [1; 2; 3; 4; 5; 6] (lit "audio/L24; codec=pcm; RATE=48000"))).
    vm_compute. repeat split; discriminate.
  - apply (proj2 (WavHeaderCases.wav_header_or_error ascii_lower [0; 0]
                    (lit "audio/L16;rate=-1"))).
    vm_compute. intros [_ [[H _] _]]. now apply H.
Defined.

End WavHeaderCasesExamples.

(** *** [_remove_introduction]: applying it twice *)

Module IntroFacts.

Import ScriptMerger ScriptMergerFacts LineFacts.

Section Merger.

Variable lower : str -> str.

(** [_remove_introduction] only cuts at the front, and cutting again
    changes nothing: what it returns is a suffix of the fragment that it
    leaves as it is. *)
Theorem remove_introduction_idempotent (fragment : str) :
  _remove_introduction lower (_remove_introduction lower fragment)
  = _remove_introduction lower fragment
  /\ exists dropped, fragment = dropped ++ _remove_introduction lower fragment.
Proof.
  destruct (remove_introduction_stripped_form lower fragment)
    as [[pre [l [post [E [F [C R]]]]]]|[F R]].
  - rewrite R. split.
    + unfold _remove_introduction.
      assert (Hfree : Forall (free_of LF) (l :: post)).
      { pose proof (split_char_pieces LF fragment) as P. rewrite E in P.
        apply Forall_app in P. tauto. }
      rewrite split_join_char by (congruence || exact Hfree).
      cbn [start_index_from]. now rewrite C.
    + assert (Hf : fragment = join [LF] (pre ++ l :: post)).
      { rewrite <- E. symmetry. apply join_split_char. }
      destruct pre as [|p pre]; [now exists []|].
      exists (join [LF] (p :: pre) ++ [LF]).
      rewrite join_app in Hf by congruence.
      now rewrite <- app_assoc.
  - rewrite R. split; [exact R | now exists []].
Qed.

End Merger.

End IntroFacts.

(** *** [_extract_sections]: one section per heading *)

Module SectionFacts.

Import Ingest.

(** The headings of the lines, in order. *)
Fixpoint headings_of (lines : list str) : list (Z * str) :=
  match lines with
  | [] => []
  | line :: rest =>
      match heading line with
      | Some h => h :: headings_of rest
      | None => headings_of rest
      end
  end.

(** The lines in front of the next heading. *)
Fixpoint body_of (lines : list str) : list str :=
  match lines with
  | [] => []
  | line :: rest =>
      match heading line with
      | Some _ => []
      | None => line :: body_of rest
      end
  end.

(** The sections that start in [lines]. *)
Fixpoint sections_of (lines : list str) : list section :=
  match lines with
  | [] => []
  | line :: rest =>
      match heading line with
      | Some (l, t) =>
          {| level := l; heading_title := t;
             content := strip (join [LF] (body_of rest)) |} :: sections_of rest
      | None => sections_of rest
      end
  end.

(** The loop, from any state. *)
Lemma fold_section_step (lines : list str) :
  forall sections current_section current_content,
    let '(sections', current_section', current_content') :=
      fold_left section_step lines
                (sections, current_section, current_content) in
    close_section sections' current_section' current_content'
    = match current_section with
      | Some (l, t) =>
          sections
            ++ {| level := l; heading_title := t;
                  content := strip (join [LF] (current_content ++ body_of lines)) |}
            :: sections_of lines
      | None => sections ++ sections_of lines
      end.
Proof.
  induction lines as [|line rest IH]; intros sections cur content.
  - simpl. destruct cur as [[l t]|]; simpl; now rewrite ?app_nil_r.
  - cbn [fold_left section_step body_of sections_of].
    destruct (heading line) as [[l' t']|] eqn:Hh.
    + specialize (IH (close_section sections cur content) (Some (l', t')) []).
      destruct (fold_left section_step rest _) as [[s' c'] k'].
      rewrite IH. destruct cur as [[l t]|]; simpl.
      * now rewrite app_nil_r, <- app_assoc.
      * reflexivity.
    + destruct cur as [[l t]|].
      * specialize (IH sections (Some (l, t)) (content ++ [line])).
        destruct (fold_left section_step rest _) as [[s' c'] k'].
        rewrite IH. now rewrite <- app_assoc.
      * specialize (IH sections None content).
        destruct (fold_left section_step rest _) as [[s' c'] k'].
        exact IH.
Qed.

Definition fallback (text : str) : section :=
  {| level := 1; heading_title := lit "本文"; content := text |}.

Lemma extract_sections_spec (text : str) :
  _extract_sections text
  = match sections_of (split_char LF text) with
    | [] => [fallback text]
    | all => all
    end.
Proof.
  unfold _extract_sections.
  pose proof (fold_section_step (split_char LF text) [] None []) as F.
  destruct (fold_left section_step (split_char LF text) ([], None, []))
    as [[s' c'] k'].
  rewrite F. reflexivity.
Qed.

Lemma sections_headings (lines : list str) :
  List.map (fun s => (level s, heading_title s)) (sections_of lines)
  = headings_of lines.
Proof.
  induction lines as [|line rest IH]; [reflexivity|]. simpl.
  destruct (heading line) as [[l t]|]; simpl; now rewrite IH.
Qed.

Lemma heading_level (line : str) (l : Z) (t : str) :
  heading line = Some (l, t) -> 1 <= l <= 3 /\ stripped t.
Proof.
  unfold heading.
  destruct ((1 <=? Z.of_nat (length (take_while is_hash line)))
            && (Z.of_nat (length (take_while is_hash line)) <=? 3)) eqn:E;
    [|discriminate].
  apply andb_true_iff in E. destruct E as [E1 E2].
  apply Z.leb_le in E1, E2.
  destruct (take_while isspace (drop_while is_hash line)) as [|w0 w];
    [discriminate|].
  destruct (drop_while isspace (drop_while is_hash line)) as [|c r].
  - destruct w; [discriminate|]. intros [= <- <-].
    split; [lia | apply stripped_strip].
  - intros [= <- <-]. split; [lia | apply stripped_strip].
Qed.

Lemma sections_of_levels (lines : list str) :
  Forall (fun s => 1 <= level s <= 3 /\ stripped (heading_title s)
                   /\ stripped (content s))
         (sections_of lines).
Proof.
  induction lines as [|line rest IH]; [constructor|]. simpl.
  destruct (heading line) as [[l t]|] eqn:Hh; [|exact IH].
  constructor; [|exact IH]. simpl.
  destruct (heading_level line l t Hh) as [Hl Ht].
  split; [exact Hl|]. split; [exact Ht | apply stripped_strip].
Qed.

(** [_extract_sections] gives one section per heading line (one to three
    [#], white space, a title), in the order of the lines, with the number of
    [#] as level and the stripped title; levels are 1 to 3. A text without
    any heading line gives the single section 本文 of level 1 that holds the
    whole text. *)
Theorem sections_follow_headings (text : str) :
  let hs := headings_of (split_char LF text) in
  (hs = [] -> _extract_sections text = [fallback text])
  /\ (hs <> [] ->
      List.map (fun s => (level s, heading_title s)) (_extract_sections text) = hs)
  /\ Forall (fun s => 1 <= level s <= 3) (_extract_sections text).
Proof.
  cbv zeta. rewrite extract_sections_spec.
  pose proof (sections_headings (split_char LF text)) as H.
  pose proof (sections_of_levels (split_char LF text)) as L.
  destruct (sections_of (split_char LF text)) as [|s ss] eqn:E.
  - simpl in H. rewrite <- H. split; [reflexivity|]. split; [congruence|].
    constructor; [simpl; lia | constructor].
  - rewrite <- H. split; [discriminate|]. split; [reflexivity|].
    eapply List.Forall_impl; [|exact L]. simpl. tauto.
Qed.

Lemma sections_of_app (pre lines : list str) :
  exists ss, sections_of (pre ++ lines) = ss ++ sections_of lines.
Proof.
  induction pre as [|p pre [ss IH]]; [now exists []|]. simpl.
  destruct (heading p) as [[l t]|].
  - rewrite IH. eexists (_ :: ss). reflexivity.
  - now exists ss.
Qed.

Lemma body_of_app (body rest : list str) :
  Forall (fun x => heading x = None) body ->
  match rest with [] => True | next :: _ => heading next <> None end ->
  body_of (body ++ rest) = body.
Proof.
  intros Hb Hr. induction Hb as [|x body Hx _ IH]; simpl.
  - destruct rest as [|next rest]; [reflexivity|]. simpl.
    destruct (heading next); [reflexivity | congruence].
  - now rewrite Hx, IH.
Qed.

(** The section of a heading holds the lines between it and the next
    heading (or the end of the text), joined and stripped. So the lines in
    front of the first heading are in no section. *)
Theorem heading_section (text : str) (pre : list str) (line : str)
    (body rest : list str) (l : Z) (t : str) :
  split_char LF text = pre ++ line :: body ++ rest ->
  heading line = Some (l, t) ->
  Forall (fun x => heading x = None) body ->
  match rest with [] => True | next :: _ => heading next <> None end ->
  In {| level := l; heading_title := t; content := strip (join [LF] body) |}
     (_extract_sections text).
Proof.
  intros E Hh Hb Hr. rewrite extract_sections_spec, E.
  destruct (sections_of_app pre (line :: body ++ rest)) as [ss Hs].
  rewrite Hs. cbn [sections_of]. rewrite Hh, body_of_app by assumption.
  destruct ss; simpl; [now left|]. right. apply in_or_app. right. now left.
Qed.

Lemma extract_sections_nonempty (text : str) : _extract_sections text <> [].
Proof.
  rewrite extract_sections_spec.
  destruct (sections_of (split_char LF text)); discriminate.
Qed.

End SectionFacts.

Module SectionExamples.

Import Ingest SectionFacts.

Lemma heading_section_witness :
  In {| level := 2; heading_title := lit "B"; content := lit "one
two" |}
     (_extract_sections (lit "lost
# A
## B

one
two

# C")).
Proof.
  apply (heading_section _ [lit "lost"; lit "# A"] (lit "## B")
           [[]; lit "one"; lit "two"; []] [lit "# C"] 2 (lit "B"));
    [reflexivity | reflexivity | repeat constructor | discriminate].
Defined.

End SectionExamples.

(** *** [ingest_markdown] and the front matter *)

Module IngestSound.

Import Ingest.

Definition OPENING : str := [45; 45; 45; 10].          (* ---\n *)
Definition CLOSING : str := [10; 45; 45; 45; 10].      (* \n---\n *)

Lemma startswith_app (p a b : str) :
  (length p <= length a)%nat -> startswith p (a ++ b) = startswith p a.
Proof.
  revert a. induction p as [|x p IH]; intros a Hl; [reflexivity|].
  destruct a as [|y a]; [simpl in Hl; lia|].
  simpl. rewrite IH by (simpl in Hl; lia). reflexivity.
Qed.

Lemma startswith_self (p b : str) : startswith p (p ++ b) = true.
Proof.
  induction p as [|x p IH]; [reflexivity|]. simpl. now rewrite Z.eqb_refl, IH.
Qed.

(** The closing line found first is the one that follows [block], when no
    closing line starts inside [block]. *)
Lemma until_closing_block (block body : str) :
  contains CLOSING (block ++ [10; 45; 45; 45]) = false ->
  until_closing (block ++ CLOSING ++ body) = Some (block, body).
Proof.
  induction block as [|c block IH]; intros H.
  - change (until_closing ([] ++ CLOSING ++ body))
      with (until_closing (10 :: 45 :: 45 :: 45 :: 10 :: body)).
    cbn [until_closing]. change (lit "
---
") with CLOSING.
    change (10 :: 45 :: 45 :: 45 :: 10 :: body) with (CLOSING ++ body).
    rewrite startswith_self. reflexivity.
  - cbn [app contains] in H. apply orb_false_iff in H. destruct H as [H1 H2].
    change ((c :: block) ++ CLOSING ++ body)
      with (c :: block ++ CLOSING ++ body).
    cbn [until_closing]. change (lit "
---
") with CLOSING.
    assert (Hs : startswith CLOSING (c :: block ++ CLOSING ++ body) = false).
    { change (CLOSING ++ body) with ([10; 45; 45; 45] ++ 10 :: body).
      rewrite app_assoc.
      change (c :: (block ++ [10; 45; 45; 45]) ++ 10 :: body)
        with ((c :: block ++ [10; 45; 45; 45]) ++ 10 :: body).
      rewrite startswith_app; [exact H1|].
      simpl. rewrite length_app. simpl. lia. }
    rewrite Hs, IH by exact H2. reflexivity.
Qed.

(** A front matter block is cut with its two marker lines: for a document
    with metadata whose text is the opening line, a block in which no closing
    line starts, the closing line and a body,
    [get_content_without_metadata] is the stripped body. *)
Theorem front_matter_cut (doc : IngestedDoc) (block body : str) :
  truth (metadata doc) = true ->
  raw_md doc = OPENING ++ block ++ CLOSING ++ body ->
  contains CLOSING (block ++ [10; 45; 45; 45]) = false ->
  front_matter (raw_md doc) = Some (block, body)
  /\ get_content_without_metadata doc = strip body.
Proof.
  intros Ht Hr Hc.
  assert (Hf : front_matter (raw_md doc) = Some (block, body)).
  { rewrite Hr. unfold front_matter. change (lit "---
") with OPENING.
    rewrite startswith_self.
    change (skipn 4 (OPENING ++ block ++ CLOSING ++ body))
      with (block ++ CLOSING ++ body).
    now apply until_closing_block. }
  split; [exact Hf|].
  unfold get_content_without_metadata. now rewrite Ht, Hf.
Qed.

Section Loader.

Variable lower : str -> str.
Variable safe_load : str -> outcome yaml.
Variable py_str : yaml -> str.

Lemma load_front_matter_null (text : str) (meta : yaml) :
  load_front_matter safe_load text = Ok meta ->
  meta = YNull
  \/ exists block rest,
       front_matter text = Some (block, rest) /\ safe_load block = Ok meta.
Proof using Type.
  unfold load_front_matter.
  destruct (startswith (lit "---
") text); [|intros [= <-]; now left].
  destruct (front_matter text) as [[block rest]|]; [|intros [= <-]; now left].
  destruct (safe_load block) as [v|e] eqn:El.
  - intros [= <-]. right. now exists block, rest.
  - destruct e; try discriminate. intros [= <-]. now left.
Qed.

(** What a document that [ingest_markdown] returns tells about the file:
    it existed, its suffix is [.md] in any case, its text was read and is the
    raw text of the document; that text is not blank; the sections are those
    of the text and there is at least one; and the metadata, unless [None],
    is what the YAML loader returned for the front matter block. *)
Theorem ingest_sound (f : file) (doc : IngestedDoc) :
  ingest_markdown lower safe_load py_str f = Ok doc ->
  file_exists f = true
  /\ str_eqb (lower (suffix f)) (lit ".md") = true
  /\ read_text f = Ok (raw_md doc)
  /\ strip (raw_md doc) <> []
  /\ sections doc = _extract_sections (raw_md doc)
  /\ sections doc <> []
  /\ (metadata doc = YNull
      \/ exists block rest,
           front_matter (raw_md doc) = Some (block, rest)
           /\ safe_load block = Ok (metadata doc)).
Proof using Type.
  unfold ingest_markdown.
  destruct (file_exists f); [|discriminate]. simpl negb. cbv iota.
  destruct (str_eqb (lower (suffix f)) (lit ".md")); [|discriminate].
  simpl negb. cbv iota.
  destruct (read_text f) as [text|e]; [|destruct e; discriminate].
  destruct (truthy (strip text)) eqn:Tt; [|discriminate]. simpl negb. cbv iota.
  destruct (load_front_matter safe_load text) as [meta|e] eqn:Lm; [|discriminate].
  destruct (_extract_title py_str text meta (stem f)) as [t|e];
    [|discriminate].
  intros [= <-]. cbn [raw_md sections metadata].
  repeat split; auto.
  - now apply truthy_true.
  - apply SectionFacts.extract_sections_nonempty.
  - now apply load_front_matter_null.
Qed.

End Loader.

End IngestSound.

Module IngestSoundExamples.

Import Ingest IngestSound.

Lemma front_matter_cut_witness :
  get_content_without_metadata
    {| title := lit "T"; raw_md := lit "---
title: T
---

# Heading
body
"; sections := []; metadata := YMap [(YStr (lit "title"), YStr (lit "T"))] |}
  = lit "# Heading
body".
Proof.
  apply (proj2 (front_matter_cut
                  {| title := lit "T"; raw_md := lit "---
title: T
---

# Heading
body
"; sections := []; metadata := YMap [(YStr (lit "title"), YStr (lit "T"))] |}
                  (lit "title: T") (lit "
# Heading
body
") ltac:(reflexivity) ltac:(reflexivity) ltac:(reflexivity))).
Defined.

Lemma ingest_sound_witness :
  file_exists (IngestExamples.md IngestExamples.empty_mapping_doc) = true
  /\ _extract_sections IngestExamples.empty_mapping_doc <> [].
Proof.
  destruct (ingest_sound ascii_lower IngestExamples.toy_load IngestExamples.toy_str
              (IngestExamples.md IngestExamples.empty_mapping_doc)
              {| title := lit "Heading"; raw_md := IngestExamples.empty_mapping_doc;
                 sections := _extract_sections IngestExamples.empty_mapping_doc;
                 metadata := YMap [] |}
              ltac:(reflexivity))
    as [He [_ [_ [_ [Hs [Hn _]]]]]].
  split; [exact He|]. cbn [sections] in Hs, Hn. exact Hn.
Defined.

End IngestSoundExamples.

Module PipelineOutcomeExamples.

Import Ingest Orchestrator PipelineOutcome.

(** A run whose stages all return, and a run whose explainer raises. *)
Definition toy (explainer : outcome str) : M (option str) :=
  run unit unit
    (fun _ => lit "out") (fun p => p)
    (fun _ => Ok OrchestratorExamples.toy_doc)
    (fun _ _ _ _ _ => Ok (lit "out/script.md"))
    (fun _ _ => explainer)
    (fun _ _ => Ok (lit "out/questions.md", None))
    (fun _ _ _ => Ok (Some (lit "out/podcast.mp3")))
    (fun _ _ _ => Ok true)
    (lit "in.md") (lit "ja") 20 tt tt true None.

Lemma pipeline_success_witness :
  Some (lit "out") = Some (out (fun _ => lit "out") None)
  /\ success unit unit
       (fun _ => lit "out") (fun p => p)
       (fun _ => Ok OrchestratorExamples.toy_doc)
       (fun _ _ _ _ _ => Ok (lit "out/script.md"))
       (fun _ _ => Ok (lit "out/explanation.md"))
       (fun _ _ => Ok (lit "out/questions.md", None))
       (fun _ _ _ => Ok (Some (lit "out/podcast.mp3")))
       (fun _ _ _ => Ok true)
       (lit "in.md") (lit "ja") 20 tt tt true None
       init (fst (toy (Ok (lit "out/explanation.md")) init)).
Proof.
  apply pipeline_success_sound.
  rewrite (surjective_pairing (toy (Ok (lit "out/explanation.md")) init)) at 1.
  f_equal.
Defined.

Lemma pipeline_failure_witness :
  exists entries,
    failure unit unit
      (fun _ => lit "out") (fun p => p)
      (fun _ => Ok OrchestratorExamples.toy_doc)
      (fun _ _ _ _ _ => Ok (lit "out/script.md"))
      (fun _ _ => Raise (Exception "llm down"))
      (fun _ _ => Ok (lit "out/questions.md", None))
      (fun _ _ _ => Ok (Some (lit "out/podcast.mp3")))
      (fun _ _ _ => Ok true)
      (lit "in.md") (lit "ja") 20 tt tt true None
      init (Exception "llm down")
      (results (fst (toy (Raise (Exception "llm down")) init))) entries
    /\ log (fst (toy (Raise (Exception "llm down")) init))
       = log init ++ entries ++ [PipelineError (Exception "llm down")].
Proof.
  apply (pipeline_failure_origin unit unit
           (fun _ => lit "out") (fun p => p)
           (fun _ => Ok OrchestratorExamples.toy_doc)
           (fun _ _ _ _ _ => Ok (lit "out/script.md"))
           (fun _ _ => Raise (Exception "llm down"))
           (fun _ _ => Ok (lit "out/questions.md", None))
           (fun _ _ _ => Ok (Some (lit "out/podcast.mp3")))
           (fun _ _ _ => Ok true)
           (lit "in.md") (lit "ja") 20 tt tt true None
           init _ (Exception "llm down")).
  rewrite (surjective_pairing (toy (Raise (Exception "llm down")) init)) at 1.
  f_equal.
Defined.

End PipelineOutcomeExamples.

(* ===================================================================== *)
(** ** config.py: the output directory *)
(* ===================================================================== *)

Module OutputDir.

Section Dirs.

(** [Path.exists] on the text of a path; [datetime.now().strftime(...)];
    the text of [Path("outputs") / timestamp]. A path is represented by its
    text: that text has no trailing separator, so adding [_<counter>] to it
    gives the text of a path again. *)
Variable path_exists : str -> bool.
Variable now : str.
Variable under_outputs : str -> str.

(** The loop
<<
    while base_dir.exists():
        base_dir = Path(f"{original_dir}_{counter}")
        counter += 1
>>
    [fuel] bounds the number of tests. *)
Fixpoint collision_loop (fuel : nat) (original_dir base_dir : str)
    (counter : nat) : option str :=
  match fuel with
  | O => None
  | S fuel' =>
      if path_exists base_dir then
        collision_loop fuel' original_dir
          (original_dir ++ lit "_" ++ TTSClient.decimal_of_nat counter)
          (S counter)
      else Some base_dir
  end.

(** [get_output_dir(timestamp)] *)
Definition get_output_dir (fuel : nat) (timestamp : option str) : option str :=
  let timestamp := match timestamp with Some t => t | None => now end in
  let base_dir := under_outputs timestamp in
  collision_loop fuel base_dir base_dir 1.

(** The directories the loop tries, in order: the directory itself, then
    the directory with [_1], [_2], ... *)
Definition candidate (original_dir : str) (k : nat) : str :=
  match k with
  | O => original_dir
  | S _ => original_dir ++ lit "_" ++ TTSClient.decimal_of_nat k
  end.

Lemma collision_loop_first_free (original_dir : str) (fuel : nat) :
  forall c k,
    (c <= k)%nat -> (k - c < fuel)%nat ->
    path_exists (candidate original_dir k) = false ->
    exists k', (c <= k' <= k)%nat
      /\ collision_loop fuel original_dir (candidate original_dir c) (S c)
         = Some (candidate original_dir k')
      /\ path_exists (candidate original_dir k') = false
      /\ forall j, (c <= j < k')%nat ->
                   path_exists (candidate original_dir j) = true.
Proof using Type.
  induction fuel as [|fuel IH]; intros c k Hc Hf Hk; [lia|].
  cbn [collision_loop].
  destruct (path_exists (candidate original_dir c)) eqn:Ec.
  - assert (Hne : c <> k) by (intros ->; congruence).
    destruct (IH (S c) k) as [k' [Hk' [Hl [Hfree Hbelow]]]]; [lia | lia | exact Hk|].
    exists k'. split; [lia|]. split; [exact Hl|]. split; [exact Hfree|].
    intros j Hj. destruct (Nat.eq_dec j c) as [->|Hjc]; [exact Ec|].
    apply Hbelow. lia.
  - exists c. split; [lia|]. split; [reflexivity|]. split; [exact Ec|].
    intros j Hj. lia.
Qed.

(** [get_output_dir] returns the first directory, among [outputs/<timestamp>]
    and its numbered variants [_1], [_2], ..., that does not exist yet: every
    variant in front of it exists. It returns as soon as some variant is
    free (here: within [fuel] tests). *)
Theorem output_dir_first_free (fuel : nat) (timestamp : option str) (k : nat) :
  let original_dir :=
    under_outputs (match timestamp with Some t => t | None => now end) in
  (k < fuel)%nat ->
  path_exists (candidate original_dir k) = false ->
  exists k', (k' <= k)%nat
    /\ get_output_dir fuel timestamp = Some (candidate original_dir k')
    /\ path_exists (candidate original_dir k') = false
    /\ forall j, (j < k')%nat -> path_exists (candidate original_dir j) = true.
Proof using Type.
  intros original_dir Hf Hk.
  destruct (collision_loop_first_free original_dir fuel 0 k)
    as [k' [Hk' [Hl [Hfree Hbelow]]]]; [lia | lia | exact Hk|].
  exists k'. split; [lia|]. split; [exact Hl|]. split; [exact Hfree|].
  intros j Hj. apply Hbelow. lia.
Qed.

End Dirs.

End OutputDir.

Module OutputDirExamples.

Import OutputDir.

(** A disk where [outputs/t] and [outputs/t_1] exist. *)
Definition taken (p : str) : bool :=
  Ingest.str_eqb p (lit "outputs/t") || Ingest.str_eqb p (lit "outputs/t_1").

Lemma output_dir_witness :
  exists k', (k' <= 2)%nat
    /\ get_output_dir taken (lit "250101_0000") (fun t => lit "outputs/" ++ t)
         5 (Some (lit "t"))
       = Some (candidate (lit "outputs/t") k')
    /\ taken (candidate (lit "outputs/t") k') = false
    /\ forall j, (j < k')%nat -> taken (candidate (lit "outputs/t") j) = true.
Proof.
  apply (output_dir_first_free taken (lit "250101_0000")
           (fun t => lit "outputs/" ++ t) 5 (Some (lit "t")) 2);
    [lia | reflexivity].
Defined.

Example output_dir_third :
  get_output_dir taken (lit "250101_0000") (fun t => lit "outputs/" ++ t)
    5 (Some (lit "t"))
  = Some (lit "outputs/t_2").
Proof. reflexivity. Qed.

End OutputDirExamples.

(* ===================================================================== *)
(** ** cli.py: the speaker settings *)
(* ===================================================================== *)

Module Cli.

Import LineFacts.

Definition COMMA : char := 44.
Definition EQUALS : char := 61.

Definition not_equals (c : char) : bool := negb (c =? EQUALS).

(** One turn of the loop of [_parse_speakers]: a pair that holds [=] is
    split at its first [=]. *)
Definition parse_step (speakers : gmap str str) (pair : str) : gmap str str :=
  if contains [EQUALS] pair then
    match TTSClient.after_first EQUALS pair with
    | Some value =>
        <[strip (Ingest.take_while not_equals pair) := strip value]> speakers
    | None => speakers   (* not reached: the pair holds [=] *)
    end
  else speakers.

(** [_parse_speakers] *)
Definition _parse_speakers (speakers_str : str) : gmap str str :=
  fold_left parse_step (split_char COMMA speakers_str) ∅.

(** The text of a setting: [key=value], the settings separated by
    commas. *)
Definition pair_text (kv : str * str) : str := fst kv ++ [EQUALS] ++ snd kv.

Definition render (pairs : list (str * str)) : str :=
  join [COMMA] (List.map pair_text pairs).

(** A setting that can be written in this form: no comma in it, no [=] in
    the key. *)
Definition writable (kv : str * str) : Prop :=
  free_of COMMA (fst kv) /\ free_of EQUALS (fst kv) /\ free_of COMMA (snd kv).

Definition set_pair (speakers : gmap str str) (kv : str * str) : gmap str str :=
  <[strip (fst kv) := strip (snd kv)]> speakers.

Lemma contains_equals (k v : str) : contains [EQUALS] (k ++ [EQUALS] ++ v) = true.
Proof.
  induction k as [|c k IH].
  - simpl. destruct v; reflexivity.
  - change (contains [EQUALS] ((c :: k) ++ [EQUALS] ++ v))
      with (startswith [EQUALS] (c :: k ++ [EQUALS] ++ v)
            || contains [EQUALS] (k ++ [EQUALS] ++ v)).
    rewrite IH. apply orb_true_r.
Qed.

Lemma take_while_key (k v : str) :
  free_of EQUALS k -> Ingest.take_while not_equals (k ++ [EQUALS] ++ v) = k.
Proof.
  induction k as [|c k IH]; intros Hk; [reflexivity|].
  change (Ingest.take_while not_equals ((c :: k) ++ [EQUALS] ++ v))
    with (if not_equals c
          then c :: Ingest.take_while not_equals (k ++ [EQUALS] ++ v) else []).
  unfold not_equals at 1.
  destruct (c =? EQUALS) eqn:E.
  - apply Z.eqb_eq in E. subst c. exfalso. apply Hk. now left.
  - simpl negb. cbv iota. rewrite IH; [reflexivity|].
    intros Hin. apply Hk. now right.
Qed.

Lemma after_first_value (k v : str) :
  free_of EQUALS k -> TTSClient.after_first EQUALS (k ++ [EQUALS] ++ v) = Some v.
Proof.
  induction k as [|c k IH]; intros Hk; [reflexivity|].
  change (TTSClient.after_first EQUALS ((c :: k) ++ [EQUALS] ++ v))
    with (if c =? EQUALS then Some (k ++ [EQUALS] ++ v)
          else TTSClient.after_first EQUALS (k ++ [EQUALS] ++ v)).
  destruct (c =? EQUALS) eqn:E.
  - apply Z.eqb_eq in E. subst c. exfalso. apply Hk. now left.
  - apply IH. intros Hin. apply Hk. now right.
Qed.

Lemma parse_step_pair (speakers : gmap str str) (kv : str * str) :
  free_of EQUALS (fst kv) ->
  parse_step speakers (pair_text kv) = set_pair speakers kv.
Proof.
  intros Hk. unfold parse_step, pair_text, set_pair.
  now rewrite contains_equals, after_first_value, take_while_key.
Qed.

Lemma pair_text_free (kv : str * str) : writable kv -> free_of COMMA (pair_text kv).
Proof.
  intros [Hk [_ Hv]] Hin. unfold pair_text in Hin.
  apply in_app_or in Hin. destruct Hin as [H|[H|H]]; [now apply Hk | discriminate H |].
  now apply Hv.
Qed.

(** Settings written as [key=value,key=value,...] are read back: the
    result maps each stripped key to its stripped value, a later setting
    replacing an earlier one for the same key. *)
Theorem parse_speakers_render (pairs : list (str * str)) :
  Forall writable pairs ->
  _parse_speakers (render pairs) = fold_left set_pair pairs ∅.
Proof.
  intros Hw. unfold _parse_speakers, render.
  destruct pairs as [|kv pairs]; [reflexivity|].
  rewrite split_join_char.
  - generalize (∅ : gmap str str). revert Hw.
    generalize (kv :: pairs). clear. intros l Hw.
    induction Hw as [|x l [_ [Hx _]] _ IH]; intros m; [reflexivity|].
    cbn [List.map fold_left]. rewrite parse_step_pair by exact Hx. apply IH.
  - discriminate.
  - apply List.Forall_forall. intros t Ht. apply List.in_map_iff in Ht.
    destruct Ht as [x [<- Hx]]. apply pair_text_free.
    rewrite List.Forall_forall in Hw. now apply Hw.
Qed.

End Cli.

Module CliExamples.

Import Cli.

(** The default of the option [--speakers]. *)
Example default_speakers :
  _parse_speakers (lit "Speaker 1=Sakura,Speaker 2=Taro")
  = <[lit "Speaker 2" := lit "Taro"]> (<[lit "Speaker 1" := lit "Sakura"]> ∅).
Proof. reflexivity. Qed.

(** A part without [=] is skipped; only the first [=] splits. *)
Example odd_settings :
  _parse_speakers (lit " S1 = a=b ,junk,S1=c")
  = <[lit "S1" := lit "c"]> (<[lit "S1" := lit "a=b"]> ∅).
Proof. reflexivity. Qed.

Lemma parse_speakers_witness :
  _parse_speakers (render [(lit "S1", lit "Zephyr"); (lit " S2", lit "Puck ")])
  = fold_left set_pair [(lit "S1", lit "Zephyr"); (lit " S2", lit "Puck ")] ∅.
Proof.
  apply parse_speakers_render.
  repeat constructor; vm_compute; intros H;
    repeat (destruct H as [H|H]; [discriminate H|]); exact H.
Defined.

End CliExamples.

(** *** [build_script]: what it writes *)

Module ScriptFile.

Import Ingest BuildScript.

(** The events of a generation call: requests and waits. *)
Definition llm_event (ev : event) : Prop :=
  match ev with
  | LLMRequest _ | Sleep _ => True
  | _ => False
  end.

Lemma before_llm (prompt : str) (j : nat) :
  Forall llm_event (RetryFacts.before (LLMRequest prompt) j).
Proof.
  unfold RetryFacts.before. induction j as [|j IH]; [constructor|].
  rewrite seq_S, flat_map_app. apply Forall_app. split; [exact IH|].
  simpl. repeat constructor.
Qed.

(** A generation call adds requests and waits to the history, nothing
    else. *)
Lemma generate_llm_events (c : LLMClient.t) (prompt : str) (max_retries : Z)
    (tr : trace) :
  exists evs,
    fst (LLMClient.generate c prompt max_retries tr) = tr ++ evs
    /\ Forall llm_event evs.
Proof.
  unfold LLMClient.generate.
  destruct (Z_lt_le_dec max_retries 1) as [Hn|Hn].
  - rewrite RetryFacts.retry_no_attempt by lia. exists []. split; [now rewrite app_nil_r|].
    constructor.
  - destruct (RetryShape.retry_decided (LLMClient.generate_attempt c prompt)
                (Exception "LLM生成に失敗しました") max_retries tr Hn)
      as [j [_ [Hres _]]].
    rewrite Hres. cbn [fst LLMClient.generate_attempt].
    rewrite (RetryFacts.history_single_event _ (LLMRequest prompt)) by reflexivity.
    exists (RetryFacts.before (LLMRequest prompt) j ++ [LLMRequest prompt]).
    split; [now rewrite <- app_assoc|].
    apply Forall_app. split; [apply before_llm | repeat constructor].
Qed.

Section Stage.

Variable lower : str -> str.
Variable speakers : Type.
Variable build_script_prompt : str -> str -> Z -> speakers -> str.
Variable _post_process_script : str -> str.
Variable config : Config.t.
Variable llm_client : LLMClient.t.

Lemma generate_parts_events (chunks : list str) (n : Z) (language : str)
    (target_length : Z) (spk : speakers) :
  forall (tr : trace) (called parts : list str),
  exists evs,
    fst (fst (generate_parts build_script_prompt llm_client chunks n language
                target_length spk tr called parts)) = tr ++ evs
    /\ Forall llm_event evs.
Proof using Type.
  induction chunks as [|chunk rest IH]; intros tr called parts.
  - exists []. split; [simpl; now rewrite app_nil_r | constructor].
  - cbn [generate_parts].
    destruct (generate_llm_events llm_client
                (build_script_prompt chunk language (target_length / n) spk)
                LLMClient.default_max_retries tr) as [evs [He Hf]].
    destruct (LLMClient.generate llm_client _ _ tr) as [tr' [part|e]];
      cbn [fst] in He; subst tr'.
    + destruct (IH (tr ++ evs)
                   (called ++ [build_script_prompt chunk language
                                 (target_length / n) spk])
                   (parts ++ [part])) as [evs' [He' Hf']].
      exists (evs ++ evs'). rewrite He'. split; [now rewrite app_assoc|].
      apply Forall_app. now split.
    + exists evs. now split.
Qed.

(** [build_script] writes one file, [script.md] in the output directory,
    as its last action and only when every generation call has returned;
    the path it returns is the path of that file. Before that, and in a run
    that raises, it only sends requests and waits. *)
Theorem script_written_last (doc : IngestedDoc) (output_dir language : str)
    (target_length : Z) (spk : speakers) (tr : trace) :
  let r := build_script lower build_script_prompt _post_process_script
                        config llm_client doc output_dir language
                        target_length spk tr in
  exists evs,
    Forall llm_event evs
    /\ match result r with
       | Ok script_path =>
           script_path = output_dir ++ lit "/script.md"
           /\ exists script,
                history r
                = tr ++ evs ++ [WriteFile script_path (_post_process_script script)]
       | Raise _ => history r = tr ++ evs
       end.
Proof using Type.
  cbv zeta. unfold build_script.
  destruct (LLMClient.is_token_limit_exceeded llm_client
              (get_content_without_metadata doc) LLMClient.default_limit).
  - destruct (generate_parts_events
                (TextSplitter.split_by_tokens (TextSplitter.init config None)
                   (Some llm_client) (get_content_without_metadata doc))
                (Z.of_nat (length (TextSplitter.split_by_tokens
                   (TextSplitter.init config None) (Some llm_client)
                   (get_content_without_metadata doc))))
                language target_length spk tr [] []) as [evs [He Hf]].
    destruct (generate_parts build_script_prompt llm_client _ _ language
                target_length spk tr [] []) as [[tr' called] [parts|e]];
      cbn [fst] in He; subst tr'; exists evs; (split; [exact Hf|]).
    + cbn [save_script result history]. split; [reflexivity|].
      eexists. now rewrite <- app_assoc.
    + reflexivity.
  - destruct (generate_llm_events llm_client
                (build_script_prompt (get_content_without_metadata doc) language
                   target_length spk)
                LLMClient.default_max_retries tr) as [evs [He Hf]].
    destruct (LLMClient.generate llm_client _ _ tr) as [tr' [script|e]];
      cbn [fst] in He; subst tr'; exists evs; (split; [exact Hf|]).
    + cbn [save_script result history]. split; [reflexivity|].
      eexists. now rewrite <- app_assoc.
    + reflexivity.
Qed.

End Stage.

End ScriptFile.

(* ===================================================================== *)
(** ** pipeline/build_script.py: the generation calls of the stage *)
(* ===================================================================== *)

Module ScriptCalls.

Import Ingest BuildScript.

(** The prompts of the generation requests of a history, in order. *)
Definition llm_requests (evs : list event) : list str :=
  flat_map (fun ev => match ev with LLMRequest prompt => [prompt] | _ => [] end)
           evs.

(** [generate] called on each prompt in turn, each call from the history
    the call before has left, until a call raises: the history at the end
    and the texts returned. *)
Fixpoint generate_all (c : LLMClient.t) (prompts : list str) (tr : trace)
    : trace * outcome (list str) :=
  match prompts with
  | [] => (tr, Ok [])
  | prompt :: rest =>
      match LLMClient.generate c prompt LLMClient.default_max_retries tr with
      | (tr', Ok text) =>
          match generate_all c rest tr' with
          | (tr'', Ok texts) => (tr'', Ok (text :: texts))
          | (tr'', Raise e) => (tr'', Raise e)
          end
      | (tr', Raise e) => (tr', Raise e)
      end
  end.

(** The events [evs] are those of generation calls on the first prompts of
    [prompts], one call after the other: each call sends its prompt
    [n] times, [1 <= n <= 3] (the first request and its retries), and besides
    the requests there are only waits. With [complete] every prompt has had
    its call; without, at least one call was made. *)
Definition served (prompts : list str) (evs : list event) (complete : bool)
    : Prop :=
  exists counts : list nat,
    Forall (fun n => (1 <= n <= 3)%nat) counts
    /\ (length counts <= length prompts)%nat
    /\ (if complete then length counts = length prompts else counts <> [])
    /\ llm_requests evs
       = flat_map (fun pn => repeat (fst pn) (snd pn)) (combine prompts counts)
    /\ Forall ScriptFile.llm_event evs.

Lemma llm_requests_app (a b : list event) :
  llm_requests (a ++ b) = llm_requests a ++ llm_requests b.
Proof. apply flat_map_app. Qed.

Lemma llm_requests_before (prompt : str) (j : nat) :
  llm_requests (RetryFacts.before (LLMRequest prompt) j) = repeat prompt j.
Proof.
  unfold RetryFacts.before. induction j as [|j IH]; [reflexivity|].
  rewrite seq_S, flat_map_app, llm_requests_app, IH. simpl.
  now rewrite <- repeat_cons.
Qed.

(** A call sends its prompt between one and three times. *)
Lemma generate_sends (c : LLMClient.t) (prompt : str) (tr : trace) :
  exists evs n,
    fst (LLMClient.generate c prompt LLMClient.default_max_retries tr) = tr ++ evs
    /\ (1 <= n <= 3)%nat
    /\ llm_requests evs = repeat prompt n
    /\ Forall ScriptFile.llm_event evs.
Proof.
  unfold LLMClient.generate.
  destruct (RetryShape.retry_decided (LLMClient.generate_attempt c prompt)
              (Exception "LLM生成に失敗しました") LLMClient.default_max_retries tr)
    as [j [Hj [Hres _]]]; [unfold LLMClient.default_max_retries; lia|].
  change (Z.to_nat LLMClient.default_max_retries) with 3%nat in Hj.
  rewrite Hres. cbn [fst LLMClient.generate_attempt].
  rewrite (RetryFacts.history_single_event _ (LLMRequest prompt)) by reflexivity.
  exists (RetryFacts.before (LLMRequest prompt) j ++ [LLMRequest prompt]), (S j).
  split; [now rewrite <- app_assoc|]. split; [lia|]. split.
  - rewrite llm_requests_app, llm_requests_before. simpl.
    now rewrite <- repeat_cons.
  - apply Forall_app. split; [apply ScriptFile.before_llm | repeat constructor].
Qed.

Lemma generate_all_served (c : LLMClient.t) (prompts : list str) :
  forall tr : trace,
  exists evs,
    fst (generate_all c prompts tr) = tr ++ evs
    /\ match snd (generate_all c prompts tr) with
       | Ok texts => served prompts evs true /\ length texts = length prompts
       | Raise _ => served prompts evs false
       end.
Proof.
  induction prompts as [|prompt rest IH]; intros tr.
  - exists []. simpl. rewrite app_nil_r. split; [reflexivity|].
    split; [|reflexivity]. exists []. repeat split; constructor.
  - cbn [generate_all].
    destruct (generate_sends c prompt tr) as [evs [n [He [Hn [Hr Hf]]]]].
    destruct (LLMClient.generate c prompt LLMClient.default_max_retries tr)
      as [tr1 [text|e]]; cbn [fst] in He; subst tr1.
    + destruct (IH (tr ++ evs)) as [evs' [He' Hs]].
      assert (Happ : forall complete,
                served rest evs' complete ->
                served (prompt :: rest) (evs ++ evs') complete).
      { intros complete [counts [Hc [Hl [Hk [Hq Hf']]]]].
        exists (n :: counts). split; [now constructor|].
        split; [simpl; lia|]. split.
        - destruct complete; [simpl; now rewrite Hk | discriminate].
        - split; [|apply Forall_app; now split].
          rewrite llm_requests_app, Hr, Hq. reflexivity. }
      destruct (generate_all c rest (tr ++ evs)) as [tr2 [texts|e]];
        cbn [fst snd] in He', Hs |- *; subst tr2;
        exists (evs ++ evs'); (split; [now rewrite app_assoc|]).
      * destruct Hs as [Hs Hl]. split; [now apply Happ | simpl; now rewrite Hl].
      * now apply Happ.
    + exists evs. cbn [fst snd]. split; [reflexivity|].
      exists [n]. split; [now constructor|]. split; [simpl; lia|].
      split; [discriminate|]. split; [|exact Hf].
      rewrite Hr. destruct rest; simpl; now rewrite app_nil_r.
Qed.

Section Stage.

Variable lower : str -> str.
Variable speakers : Type.
Variable build_script_prompt : str -> str -> Z -> speakers -> str.
Variable _post_process_script : str -> str.
Variable config : Config.t.
Variable llm_client : LLMClient.t.

(** The loop of the stage makes the calls of [generate_all], on the prompts
    of the chunks. *)
Lemma generate_parts_all (chunks : list str) (n : Z) (language : str)
    (target_length : Z) (spk : speakers) :
  forall (tr : trace) (called parts : list str),
    let prompts :=
      List.map (fun chunk =>
                  build_script_prompt chunk language (target_length / n) spk)
               chunks in
    let done :=
      generate_parts build_script_prompt llm_client chunks n language
                     target_length spk tr called parts in
    fst (fst done) = fst (generate_all llm_client prompts tr)
    /\ snd done = match snd (generate_all llm_client prompts tr) with
                  | Ok texts => Ok (parts ++ texts)
                  | Raise e => Raise e
                  end.
Proof using Type.
  cbv zeta. induction chunks as [|chunk rest IH]; intros tr called parts.
  - simpl. now rewrite app_nil_r.
  - cbn [generate_parts List.map generate_all].
    destruct (LLMClient.generate llm_client
                (build_script_prompt chunk language (target_length / n) spk)
                LLMClient.default_max_retries tr) as [tr1 [part|e]];
      [|now split].
    destruct (IH tr1
                 (called ++ [build_script_prompt chunk language
                               (target_length / n) spk])
                 (parts ++ [part])) as [H1 H2].
    rewrite H1, H2.
    destruct (generate_all llm_client _ tr1) as [tr2 [texts|e]]; cbn [fst snd];
      [|now split].
    split; [reflexivity|]. now rewrite <- app_assoc.
Qed.

(** What a run of the stage on [prompts] looks like from outside: the
    requests sent, and then, when every call has returned, the one file
    written, which holds [script_of] the texts returned, cleaned. *)
Definition stage_ran (r : run) (tr : trace) (output_dir : str)
    (prompts : list str) (script_of : list str -> str) : Prop :=
  let script_path := output_dir ++ lit "/script.md" in
  exists evs,
    fst (generate_all llm_client prompts tr) = tr ++ evs
    /\ match snd (generate_all llm_client prompts tr) with
       | Ok texts =>
           served prompts evs true
           /\ length texts = length prompts
           /\ result r = Ok script_path
           /\ history r
              = tr ++ evs
                ++ [WriteFile script_path (_post_process_script (script_of texts))]
       | Raise e =>
           served prompts evs false
           /\ result r = Raise e
           /\ history r = tr ++ evs
       end.

(** C6, as the code has it. The script stage generates by chunks exactly
    when the cost of the prepared content exceeds the default limit of
    [is_token_limit_exceeded], 30000, whatever the chunk budget. Within
    that limit it makes one generation call, on the whole content with the
    whole target length: the history gains between one and three requests
    for that prompt (the call and its retries) and, when the call returns,
    [script.md] holds the cleaned answer. Over the limit it makes one call
    per chunk of [split_by_tokens], in order, each with the target length
    divided by the number of chunks, until a call raises; when all have
    returned, [script.md] holds the cleaned merge of the answers. *)
Theorem script_stage_calls (doc : IngestedDoc) (output_dir language : str)
    (target_length : Z) (spk : speakers) (tr : trace) :
  let text := get_content_without_metadata doc in
  let chunks :=
    TextSplitter.split_by_tokens (TextSplitter.init config None)
                                 (Some llm_client) text in
  let chunk_prompt chunk :=
    build_script_prompt chunk language
                        (target_length / Z.of_nat (length chunks)) spk in
  let r := build_script lower build_script_prompt _post_process_script
                        config llm_client doc output_dir language
                        target_length spk tr in
  (LLMClient.count_tokens llm_client text <= LLMClient.default_limit ->
     stage_ran r tr output_dir
       [build_script_prompt text language target_length spk]
       (fun texts => nth 0 texts []))
  /\ (LLMClient.default_limit < LLMClient.count_tokens llm_client text ->
     stage_ran r tr output_dir (List.map chunk_prompt chunks)
       (ScriptMerger._merge_script_parts lower)).
Proof using Type.
  cbv zeta. unfold build_script, LLMClient.is_token_limit_exceeded, stage_ran.
  cbv zeta. split.
  - intros Hle. apply Z.ltb_ge in Hle. rewrite Hle.
    set (prompt := build_script_prompt (get_content_without_metadata doc)
                     language target_length spk).
    destruct (generate_all_served llm_client [prompt] tr) as [evs [He Hs]].
    exists evs. split; [exact He|].
    cbn [generate_all] in He, Hs |- *.
    destruct (LLMClient.generate llm_client prompt
                LLMClient.default_max_retries tr) as [tr1 [script|e]];
      cbn [fst snd] in He, Hs |- *; subst tr1.
    + destruct Hs as [Hs Hl]. cbn [save_script result history nth].
      repeat split; [exact Hs | now rewrite <- app_assoc].
    + cbn [result history]. now repeat split.
  - intros Hgt. apply Z.ltb_lt in Hgt. rewrite Hgt.
    set (chunks := TextSplitter.split_by_tokens (TextSplitter.init config None)
                     (Some llm_client) (get_content_without_metadata doc)).
    destruct (generate_parts_all chunks (Z.of_nat (length chunks)) language
                target_length spk tr [] []) as [H1 H2].
    set (prompts := List.map _ chunks) in *.
    destruct (generate_all_served llm_client prompts tr) as [evs [He Hs]].
    exists evs. split; [exact He|].
    destruct (generate_parts build_script_prompt llm_client chunks _ language
                target_length spk tr [] []) as [[tr1 called] res].
    cbn [fst snd] in H1, H2. subst tr1 res. rewrite He.
    destruct (snd (generate_all llm_client prompts tr)) as [texts|e].
    + destruct Hs as [Hs Hl]. cbn [save_script result history app].
      repeat split; [exact Hs | exact Hl | now rewrite <- app_assoc].
    + cbn [result history]. now repeat split.
Qed.

End Stage.

End ScriptCalls.

Module ScriptCallsExamples.

Import Ingest BuildScript ScriptCalls BuildScriptExamples.

Lemma script_stage_calls_witness :
  stage_ran (fun s => s) (toy_client 600) (stage 600) [] (lit "out")
    [lit "a

a|20"] (fun texts => nth 0 texts [])
  /\ stage_ran (fun s => s) (toy_client 20000) (stage 20000) [] (lit "out")
       [lit "a。|10"; lit "a。|10"] (ScriptMerger._merge_script_parts ascii_lower).
Proof.
  split.
  - apply (proj1 (script_stage_calls ascii_lower unit toy_prompt (fun s => s)
                    Config.default (toy_client 600) two_paragraphs (lit "out")
                    (lit "ja") 20 tt [])).
    vm_compute. discriminate.
  - apply (proj2 (script_stage_calls ascii_lower unit toy_prompt (fun s => s)
                    Config.default (toy_client 20000) two_paragraphs (lit "out")
                    (lit "ja") 20 tt [])).
    vm_compute. reflexivity.
Defined.

End ScriptCallsExamples.

(* ===================================================================== *)
(** ** pipeline/build_audio.py *)
(* ===================================================================== *)

Module BuildAudio.

Import Ingest.

(** What a run of the stage leaves: the history, the list [audio_files]
    after the loop over the chunks, and the path returned ([None] when there
    is no audio) or the exception raised. *)
Record run : Type := {
  history : trace;
  audio_files : list str;
  result : outcome (option str)
}.

(** The content of a file after the writes of a history. *)
Definition file_content (tr : trace) (path : str) : option (list Z) :=
  fold_left (fun found ev =>
               match ev with
               | WriteFile name data => if str_eqb name path then Some data else found
               | _ => found
               end) tr None.

Section Stage.

Variable lower : str -> str.
Variable guess_extension : str -> option str.
Variable config : Config.t.
Variable tts_client : TTSClient.t.

(** The tools of the stage, given the history so far:
    - [pydub_combine files]: the bytes [AudioSegment] exports for the
      concatenation of the files, or the exception raised on the way;
    - [ffmpeg wav mp3]: the return code of the [ffmpeg] process, or the
      exception [subprocess.run] raises;
    - [pydub_to_mp3 wav mp3]: the exception raised by the conversion with
      [AudioSegment], if any;
    - [rmtree dir]: the exception raised by [shutil.rmtree], if any.
    The files the two converters write are not recorded in the history. *)
Variable pydub_combine : trace -> list str -> outcome (list Z).
Variable ffmpeg : trace -> str -> str -> outcome Z.
Variable pydub_to_mp3 : trace -> str -> str -> option exc.
Variable rmtree : trace -> str -> option exc.

Definition chunks_dir (output_dir : str) : str := output_dir ++ lit "/chunks".

(** The loop over the chunks of the script: an [Exception] of a chunk is
    logged and the loop goes on. *)
Fixpoint audio_loop (output_dir : str) (script_chunks : list str)
    (tr : trace) (audio_files : list str) : trace * outcome (list str) :=
  match script_chunks with
  | [] => (tr, Ok audio_files)
  | chunk :: rest =>
      match TTSClient.generate_audio lower guess_extension tts_client chunk
              (chunks_dir output_dir) TTSClient.default_max_retries tr with
      | (tr', Ok chunk_audio_files) =>
          audio_loop output_dir rest tr' (audio_files ++ chunk_audio_files)
      | (tr', Raise e) =>
          if is_Exception e then audio_loop output_dir rest tr' audio_files
          else (tr', Raise e)
      end
  end.

(** [_combine_audio_files] *)
Definition _combine_audio_files (audio_files : list str) (output_dir : str)
    (tr : trace) : trace * outcome (option str) :=
  let combined_path := output_dir ++ lit "/podcast.wav" in
  match audio_files with
  | [] => (tr, Ok None)
  | [audio_file] =>
      match file_content tr audio_file with
      | Some data => (tr ++ [WriteFile combined_path data], Ok (Some combined_path))
      | None => (tr, Raise (FileNotFoundError "read_bytes"))
      end
  | _ :: _ :: _ =>
      match pydub_combine tr audio_files with
      | Ok data => (tr ++ [WriteFile combined_path data], Ok (Some combined_path))
      | Raise e => if is_Exception e then (tr, Ok None) else (tr, Raise e)
      end
  end.

(** [_convert_with_ffmpeg] *)
Definition _convert_with_ffmpeg (wav_path mp3_path : str) (tr : trace)
    : outcome bool :=
  match ffmpeg tr wav_path mp3_path with
  | Ok returncode => Ok (returncode =? 0)
  | Raise e => if is_Exception e then Ok false else Raise e
  end.

(** [_convert_with_pydub] *)
Definition _convert_with_pydub (wav_path mp3_path : str) (tr : trace)
    : outcome bool :=
  match pydub_to_mp3 tr wav_path mp3_path with
  | None => Ok true
  | Some e => if is_Exception e then Ok false else Raise e
  end.

(** [_convert_to_mp3] *)
Definition _convert_to_mp3 (wav_path output_dir : str) (tr : trace)
    : outcome (option str) :=
  let mp3_path := output_dir ++ lit "/podcast.mp3" in
  match _convert_with_ffmpeg wav_path mp3_path tr with
  | Raise e => Raise e
  | Ok true => Ok (Some mp3_path)
  | Ok false =>
      match _convert_with_pydub wav_path mp3_path tr with
      | Raise e => Raise e
      | Ok true => Ok (Some mp3_path)
      | Ok false => Ok None
      end
  end.

(** [_cleanup_temp_files]: an [Exception] is logged. *)
Definition _cleanup_temp_files (temp_dir : str) (tr : trace) : outcome unit :=
  match rmtree tr temp_dir with
  | None => Ok tt
  | Some e => if is_Exception e then Ok tt else Raise e
  end.

(** [build_audio(script_path, output_dir, speaker_configs)];
    [script_content] is the result of [script_path.read_text]. The speaker
    settings go into the requests and do not bear on what follows. *)
Definition build_audio (script_content : outcome str) (output_dir : str)
    (tr : trace) : run :=
  match script_content with
  | Raise e => {| history := tr; audio_files := []; result := Raise e |}
  | Ok script =>
      let splitter := TextSplitter.init config None in
      let script_chunks := ScriptSplitter.split_script_for_tts splitter script in
      match audio_loop output_dir script_chunks tr [] with
      | (tr1, Raise e) =>
          {| history := tr1; audio_files := []; result := Raise e |}
      | (tr1, Ok files) =>
          match files with
          | [] => {| history := tr1; audio_files := files; result := Ok None |}
          | _ :: _ =>
              match _combine_audio_files files output_dir tr1 with
              | (tr2, Raise e) =>
                  {| history := tr2; audio_files := files; result := Raise e |}
              | (tr2, Ok None) =>
                  {| history := tr2; audio_files := files; result := Ok None |}
              | (tr2, Ok (Some combined_audio_path)) =>
                  match _convert_to_mp3 combined_audio_path output_dir tr2 with
                  | Raise e =>
                      {| history := tr2; audio_files := files; result := Raise e |}
                  | Ok mp3_path =>
                      match _cleanup_temp_files (chunks_dir output_dir) tr2 with
                      | Raise e =>
                          {| history := tr2; audio_files := files;
                             result := Raise e |}
                      | Ok _ =>
                          {| history := tr2; audio_files := files;
                             result :=
                               Ok (Some match mp3_path with
                                        | Some p => p
                                        | None => combined_audio_path
                                        end) |}
                      end
                  end
              end
          end
      end
  end.

End Stage.

End BuildAudio.

Module BuildAudioFacts.

Import TTSClient AudioFiles BuildAudio.

(** The texts of the speech requests and the waits of a history. *)
Definition tts_requests (evs : list event) : list str :=
  flat_map (fun ev => match ev with TTSRequest text => [text] | _ => [] end) evs.

Definition waits (evs : list event) : list Z :=
  flat_map (fun ev => match ev with Sleep s => [s] | _ => [] end) evs.

Definition is_write (ev : event) : Prop :=
  match ev with WriteFile _ _ => True | _ => False end.

Lemma writes_no_request (ws : list event) :
  Forall is_write ws -> tts_requests ws = [] /\ waits ws = [].
Proof.
  induction 1 as [|ev ws Hev _ [IH1 IH2]]; [now split|].
  destruct ev; try destruct Hev. simpl. now split.
Qed.

Section Stage.

Variable lower : str -> str.
Variable guess_extension : str -> option str.
Variable config : Config.t.
Variable tts_client : TTSClient.t.
Variable pydub_combine : trace -> list str -> outcome (list Z).
Variable ffmpeg : trace -> str -> str -> outcome Z.
Variable pydub_to_mp3 : trace -> str -> str -> option exc.
Variable rmtree : trace -> str -> option exc.





(** *** When the speech service is down *)

Lemma stream_loop_events (output_dir : str) (chunks : list stream_chunk)
    (stream_error : option exc) :
  forall st : list str * nat * list event,
  exists ws,
    fst (stream_loop lower guess_extension output_dir chunks stream_error st)
    = snd st ++ ws
    /\ Forall is_write ws.
Proof using Type.
  induction chunks as [|chunk rest IH]; intros [[files index] evs].
  - exists []. simpl. rewrite app_nil_r. split; [|constructor].
    destruct stream_error; [reflexivity|]. now destruct files.
  - cbn [stream_loop].
    destruct (chunk_step lower guess_extension output_dir (files, index, evs) chunk)
      as [[[files' index'] evs']|e] eqn:Ec.
    + assert (Hevs : exists ws0, evs' = evs ++ ws0 /\ Forall is_write ws0).
      { unfold chunk_step in Ec.
        destruct chunk as [| |data mime_type|];
          try (injection Ec as _ _ <-; exists []; rewrite app_nil_r;
               split; [reflexivity | constructor]);
          try discriminate.
        destruct data as [|b data];
          [injection Ec as _ _ <-; exists []; rewrite app_nil_r;
           split; [reflexivity | constructor]|].
        destruct (guess_extension mime_type) as [ext|].
        - injection Ec as _ _ <-. eexists. split; [reflexivity|].
          repeat constructor.
        - destruct (_convert_to_wav lower (b :: data) mime_type) as [wav|e];
            [|discriminate].
          injection Ec as _ _ <-. eexists. split; [reflexivity|].
          repeat constructor. }
      destruct Hevs as [ws0 [-> Hw0]].
      destruct (IH (files', index', evs ++ ws0)) as [ws [He Hw]].
      exists (ws0 ++ ws). rewrite He. cbn [snd]. split; [now rewrite app_assoc|].
      apply Forall_app. now split.
    + exists []. cbn [fst snd]. rewrite app_nil_r. split; [reflexivity|constructor].
Qed.

(** An attempt sends one request and then only writes files. *)
Lemma attempt_events (text output_dir : str) (h : trace) :
  let evs := fst (audio_attempt lower guess_extension tts_client text output_dir h) in
  tts_requests evs = [text] /\ waits evs = [].
Proof using Type.
  cbv zeta. unfold audio_attempt.
  destruct (generate_content_stream tts_client h text) as [chunks stream_error].
  destruct (stream_loop_events output_dir chunks stream_error
              ([], 0%nat, [TTSRequest text])) as [ws [He Hw]].
  rewrite He. cbn [snd app]. destruct (writes_no_request ws Hw) as [H1 H2].
  simpl. now rewrite H1, H2.
Qed.

Lemma tts_requests_app (a b : list event) :
  tts_requests (a ++ b) = tts_requests a ++ tts_requests b.
Proof. apply flat_map_app. Qed.

Lemma waits_app (a b : list event) : waits (a ++ b) = waits a ++ waits b.
Proof. apply flat_map_app. Qed.

(** Every attempt on every chunk fails with an [Exception]. *)
Definition service_down (output_dir : str) : Prop :=
  forall (text : str) (h : trace),
  exists e,
    snd (audio_attempt lower guess_extension tts_client text
           (chunks_dir output_dir) h) = Raise e
    /\ is_Exception e = true.

Lemma generate_audio_down (output_dir text : str) (tr : trace) :
  service_down output_dir ->
  exists evs e,
    generate_audio lower guess_extension tts_client text (chunks_dir output_dir)
                   default_max_retries tr = (tr ++ evs, Raise e)
    /\ is_Exception e = true
    /\ tts_requests evs = [text; text; text]
    /\ waits evs = [1; 2].
Proof using Type.
  intros Hdown.
  set (attempt := audio_attempt lower guess_extension tts_client text
                    (chunks_dir output_dir)).
  set (errs := fun j : nat =>
         match snd (attempt (RetryFacts.history attempt tr j)) with
         | Raise e => e
         | Ok _ => Exception ""
         end).
  assert (Hf : forall j, RetryFacts.fails_with attempt
                           (RetryFacts.history attempt tr j) (errs j)).
  { intros j. destruct (Hdown text (RetryFacts.history attempt tr j)) as [e [He Hx]].
    unfold RetryFacts.fails_with, errs. fold attempt in He. now rewrite He. }
  unfold generate_audio. fold attempt.
  rewrite (RetryFacts.retry_all_fail attempt _ default_max_retries errs tr);
    [|unfold default_max_retries; lia | intros j _; apply Hf].
  change (Z.to_nat default_max_retries - 1)%nat with 2%nat.
  destruct (Hf 2%nat) as [_ Hx].
  pose proof (attempt_events text (chunks_dir output_dir) tr) as A0.
  pose proof (attempt_events text (chunks_dir output_dir)
                (RetryFacts.history attempt tr 1)) as A1.
  pose proof (attempt_events text (chunks_dir output_dir)
                (RetryFacts.history attempt tr 2)) as A2.
  cbv zeta in A0, A1, A2. fold attempt in A0, A1, A2.
  destruct A0 as [R0 W0], A1 as [R1 W1], A2 as [R2 W2].
  exists ((fst (attempt tr) ++ [Sleep 1])
          ++ (fst (attempt (RetryFacts.history attempt tr 1)) ++ [Sleep 2])
          ++ fst (attempt (RetryFacts.history attempt tr 2))), (errs 2%nat).
  split; [|split; [exact Hx|split]].
  - f_equal. cbn [RetryFacts.history]. change (2 ^ Z.of_nat 0) with 1.
    change (2 ^ Z.of_nat 1) with 2. now rewrite <- !app_assoc.
  - rewrite !tts_requests_app, R0, R1, R2. reflexivity.
  - rewrite !waits_app, W0, W1, W2. reflexivity.
Qed.

Lemma audio_loop_down (output_dir : str) (script_chunks : list str) :
  service_down output_dir ->
  forall (tr : trace) (audio_files : list str),
  exists evs,
    audio_loop lower guess_extension tts_client output_dir script_chunks tr
               audio_files = (tr ++ evs, Ok audio_files)
    /\ tts_requests evs = flat_map (fun chunk => [chunk; chunk; chunk]) script_chunks
    /\ waits evs = flat_map (fun _ => [1; 2]) script_chunks.
Proof using Type.
  intros Hdown. induction script_chunks as [|chunk rest IH]; intros tr audio_files.
  - exists []. simpl. now rewrite app_nil_r.
  - cbn [audio_loop].
    destruct (generate_audio_down output_dir chunk tr Hdown)
      as [evs [e [Hg [Hx [Hr Hw]]]]].
    rewrite Hg, Hx.
    destruct (IH (tr ++ evs) audio_files) as [evs' [Hl [Hr' Hw']]].
    exists (evs ++ evs'). rewrite Hl, app_assoc. split; [reflexivity|].
    rewrite tts_requests_app, waits_app, Hr, Hw, Hr', Hw'. now split.
Qed.

(** When every attempt of the speech service fails with an [Exception],
    [build_audio] does not raise: it asks three times for every chunk of the
    script, in order, waits 1 and 2 seconds between the attempts of a chunk,
    and returns [None]. *)
Theorem service_down_gives_none (output_dir script : str) (tr : trace) :
  service_down output_dir ->
  let script_chunks :=
    ScriptSplitter.split_script_for_tts (TextSplitter.init config None) script in
  let r := build_audio lower guess_extension config tts_client pydub_combine
                       ffmpeg pydub_to_mp3 rmtree (Ok script) output_dir tr in
  result r = Ok None
  /\ audio_files r = []
  /\ exists evs,
       history r = tr ++ evs
       /\ tts_requests evs
          = flat_map (fun chunk => [chunk; chunk; chunk]) script_chunks
       /\ waits evs = flat_map (fun _ => [1; 2]) script_chunks.
Proof using Type.
  intros Hdown script_chunks r. subst r. unfold build_audio.
  destruct (audio_loop_down output_dir script_chunks Hdown tr [])
    as [evs [Hl [Hr Hw]]].
  fold script_chunks. rewrite Hl. cbn [result audio_files history].
  split; [reflexivity|]. split; [reflexivity|]. now exists evs.
Qed.

End Stage.

End BuildAudioFacts.

Module BuildAudioExamples.

Import BuildAudio BuildAudioFacts.

(** A speech model that answers every request with one segment: the text
    of the request as bytes. *)
Definition echo : TTSClient.t :=
  {| TTSClient.generate_content_stream := fun _ text =>
       ([TTSClient.InlineData text (lit "audio/L16;rate=24000")], None) |}.

Definition two_turns : str := lit "Speaker 1: aaaaaaaaaaaaaaaaaaaa
Speaker 2: bbbbbbbbbbbbbbbbbbbb".

Definition toy_stage (c : TTSClient.t) : run :=
  build_audio ascii_lower (fun _ => Some (lit ".wav")) {| Config.chunk_size := 20 |}
    c (fun _ files => Ok (List.concat files)) (fun _ _ _ => Ok 0)
    (fun _ _ _ => None) (fun _ _ => None) (Ok two_turns) (lit "out") [].

(** Two chunks, one file each: both files have the same name, and the
    second write replaces the audio of the first chunk. *)
Example second_chunk_overwrites :
  audio_files (toy_stage echo)
  = [lit "out/chunks/audio_chunk_0.wav"; lit "out/chunks/audio_chunk_0.wav"]
  /\ file_content (history (toy_stage echo)) (lit "out/chunks/audio_chunk_0.wav")
     = Some (lit "Speaker 2: bbbbbbbbbbbbbbbbbbbb")
  /\ result (toy_stage echo) = Ok (Some (lit "out/podcast.mp3")).
Proof. repeat split; reflexivity. Qed.

Lemma service_down_witness :
  result (toy_stage RetryExamples.silent) = Ok None
  /\ audio_files (toy_stage RetryExamples.silent) = [].
Proof.
  destruct (service_down_gives_none ascii_lower (fun _ => Some (lit ".wav"))
              {| Config.chunk_size := 20 |} RetryExamples.silent
              (fun _ files => Ok (List.concat files)) (fun _ _ _ => Ok 0)
              (fun _ _ _ => None) (fun _ _ => None) (lit "out") two_turns [])
    as [Hr [Hf _]].
  - intros text h. exists RetryExamples.no_audio. split; reflexivity.
  - split; [exact Hr | exact Hf].
Defined.

End BuildAudioExamples.

(* ===================================================================== *)
(** ** The estimate [int(len(text) * 0.7)] *)
(* ===================================================================== *)

Module EstimateFacts.

Definition T : Z := 9007199254740992.

Lemma round53_small n : 0 <= n < 2 ^ 53 -> round53 n = (n, 0).
Proof.
  intros H. unfold round53. cbv zeta.
  assert (Z.log2 n + 1 <= 53).
  { destruct (Z.eq_dec n 0) as [->|Hn]; [simpl; lia|].
    assert (Z.log2 n < 53) by (apply Z.log2_lt_pow2; lia). lia. }
  apply Z.leb_le in H0. now rewrite H0.
Qed.

(** The value of a rounded number and its distance to the number. *)
Lemma round53_large (p : Z) :
  2 ^ 53 <= p < 2 ^ 103 ->
  exists m s a,
    round53 p = (m, s) /\ 1 <= s <= 50 /\ a = 2 ^ s /\ 2 <= a <= 2 ^ 50
    /\ 2 * (m * a) <= 2 * p + a /\ 2 * p <= 2 * (m * a) + a.
Proof.
  intros [Hlo Hhi]. unfold round53. cbv zeta.
  assert (Hl1 : 53 <= Z.log2 p) by (apply Z.log2_le_pow2; lia).
  assert (Hl2 : Z.log2 p < 103) by (apply Z.log2_lt_pow2; lia).
  replace (Z.log2 p + 1 <=? 53) with false by (symmetry; apply Z.leb_gt; lia).
  set (s := Z.log2 p + 1 - 53).
  assert (Hs : 1 <= s <= 50) by (unfold s; lia).
  set (a := 2 ^ s).
  assert (Ha : 2 <= a <= 2 ^ 50).
  { unfold a. split.
    - change 2 with (2 ^ 1) at 1. apply Z.pow_le_mono_r; lia.
    - apply Z.pow_le_mono_r; lia. }
  rewrite Z.shiftr_div_pow2 by lia. fold a.
  rewrite !Z.shiftl_mul_pow2 by lia. fold a.
  assert (Hh : 2 * (1 * 2 ^ (s - 1)) = a).
  { unfold a. replace s with (1 + (s - 1)) at 2 by lia.
    rewrite Z.pow_add_r by lia. lia. }
  set (h := 1 * 2 ^ (s - 1)) in *.
  pose proof (Z.div_mod p a ltac:(lia)) as Hdm.
  pose proof (Z.mod_pos_bound p a ltac:(lia)) as Hmb.
  set (q := p / a) in *.
  assert (Hr : p - q * a = p mod a) by lia.
  destruct ((h <? p - q * a) || ((p - q * a =? h) && Z.odd q)) eqn:E.
  - exists (q + 1), s, a. repeat split; lia.
  - exists q, s, a. repeat split; lia.
Qed.

Lemma int_mul_07_bounds (n : Z) :
  0 <= n < 2 ^ 50 -> 7 * n / 10 - 1 <= int_mul_07 n <= 7 * n / 10.
Proof.
  intros Hn. unfold int_mul_07.
  rewrite round53_small by lia.
  pose proof (Z.div_mod (7 * n) 10 ltac:(lia)) as Hdm.
  pose proof (Z.mod_pos_bound (7 * n) 10 ltac:(lia)) as Hmb.
  set (L := 7 * n / 10) in *.
  assert (HT : 2 ^ 53 = T) by reflexivity.
  destruct (Z_lt_le_dec (n * m07) (2 ^ 53)) as [Hp|Hp].
  - rewrite round53_small by (unfold m07 in *; lia).
    change (0 + 0 - 53) with (- 53).
    rewrite Z.shiftl_div_pow2 by lia. change (2 ^ (- - 53)) with T.
    unfold m07, T. split.
    + apply Z.div_le_lower_bound; lia.
    + assert (n * 6305039478318694 / 9007199254740992 < L + 1); [|lia].
      apply Z.div_lt_upper_bound; lia.
  - destruct (round53_large (n * m07)) as [m [s [a [Hr [Hs [Ea [Ha [H1 H2]]]]]]]].
    { split; [exact Hp|]. unfold m07.
      change (2 ^ 103) with (2 ^ 50 * 2 ^ 53). change (2 ^ 53) with T. unfold T. lia. }
    rewrite Hr. replace (0 + s - 53) with (- (53 - s)) by lia.
    rewrite Z.shiftl_div_pow2 by lia. rewrite Z.opp_involutive.
    set (b := 2 ^ (53 - s)).
    assert (Hab : a * b = T).
    { unfold b. rewrite Ea, <- Z.pow_add_r by lia. replace (s + (53 - s)) with 53 by lia.
      reflexivity. }
    assert (Hb : 0 < b) by (unfold b; apply Z.pow_pos_nonneg; lia).
    change (2 ^ 50) with 1125899906842624 in *. unfold m07, T in *.
    split.
    + apply Z.div_le_lower_bound; [lia|].
      (* b * (L - 1) <= m, from a * b * (L - 1) <= m * a *)
      assert (a * (b * (L - 1)) <= a * m); [|nia].
      rewrite Z.mul_assoc, Hab. lia.
    + assert (m / b < L + 1); [|lia].
      apply Z.div_lt_upper_bound; [lia|].
      assert (a * m < a * (b * (L + 1))); [|nia].
      rewrite Z.mul_assoc, Hab. lia.
Qed.

(** The number a rounding stands for. *)
Definition value (p : Z) : Z := let '(m, s) := round53 p in m * 2 ^ s.

Lemma value_small p : 0 <= p < 2 ^ 53 -> value p = p.
Proof. intros H. unfold value. rewrite round53_small by exact H. lia. Qed.

Lemma value_large (p : Z) :
  2 ^ 53 <= p ->
  exists m s,
    round53 p = (m, s) /\ s = Z.log2 p - 52 /\ 1 <= s
    /\ 2 ^ Z.log2 p <= m * 2 ^ s <= 2 ^ (Z.log2 p + 1)
    /\ 2 * (m * 2 ^ s) <= 2 * p + 2 ^ s /\ 2 * p <= 2 * (m * 2 ^ s) + 2 ^ s.
Proof.
  intros Hlo. unfold round53. cbv zeta.
  assert (Hl1 : 53 <= Z.log2 p) by (apply Z.log2_le_pow2; lia).
  destruct (Z.log2_spec p ltac:(lia)) as [He1 He2].
  replace (Z.log2 p + 1 <=? 53) with false by (symmetry; apply Z.leb_gt; lia).
  replace (Z.log2 p + 1 - 53) with (Z.log2 p - 52) by lia.
  set (e := Z.log2 p) in *. set (s := e - 52).
  assert (Hs : 1 <= s) by (unfold s; lia).
  set (a := 2 ^ s).
  assert (Ha : 2 <= a).
  { unfold a. change 2 with (2 ^ 1) at 1. apply Z.pow_le_mono_r; lia. }
  assert (Hea : 2 ^ e = 2 ^ 52 * a).
  { unfold a, s. rewrite <- Z.pow_add_r by lia. f_equal. lia. }
  assert (Hea2 : 2 ^ Z.succ e = 2 ^ 53 * a).
  { unfold a, s. rewrite <- Z.pow_add_r by lia. f_equal. lia. }
  replace (e + 1) with (Z.succ e) by lia.
  rewrite Z.shiftr_div_pow2 by lia. fold a.
  rewrite !Z.shiftl_mul_pow2 by lia. fold a.
  assert (Hh : 2 * (1 * 2 ^ (s - 1)) = a).
  { unfold a. replace s with (1 + (s - 1)) at 2 by lia.
    rewrite Z.pow_add_r by lia. lia. }
  set (h := 1 * 2 ^ (s - 1)) in *.
  pose proof (Z.div_mod p a ltac:(lia)) as Hdm.
  pose proof (Z.mod_pos_bound p a ltac:(lia)) as Hmb.
  set (q := p / a) in *.
  assert (Hq : 2 ^ 52 <= q < 2 ^ 53).
  { split.
    - assert (2 ^ 52 * a <= q * a + p mod a) by lia.
      assert (~ q < 2 ^ 52); [|lia]. intros Hc.
      assert (q * a + a <= 2 ^ 52 * a) by nia. lia.
    - assert (~ 2 ^ 53 <= q); [|lia]. intros Hc.
      assert (2 ^ 53 * a <= q * a) by nia. lia. }
  change (2 ^ 52) with 4503599627370496 in *.
  change (2 ^ 53) with 9007199254740992 in *.
  destruct ((h <? p - q * a) || ((p - q * a =? h) && Z.odd q)) eqn:E.
  - exists (q + 1), s. fold a. rewrite Hea, Hea2.
    repeat split; try lia; nia.
  - exists q, s. fold a. rewrite Hea, Hea2.
    repeat split; try lia; nia.
Qed.

Lemma value_mono (p p' : Z) : 0 <= p <= p' -> value p <= value p'.
Proof.
  intros [H0 Hle].
  destruct (Z_lt_le_dec p (2 ^ 53)) as [Hs|Hl];
    destruct (Z_lt_le_dec p' (2 ^ 53)) as [Hs'|Hl']; try lia.
  - rewrite !value_small by lia. exact Hle.
  - rewrite value_small by lia.
    destruct (value_large p' Hl') as [m' [s' [Hr' [Es' [Hs1' [[Hv1' Hv2'] _]]]]]].
    unfold value. rewrite Hr'.
    assert (2 ^ 53 <= 2 ^ Z.log2 p').
    { apply Z.pow_le_mono_r; [lia|]. apply Z.log2_le_pow2; lia. }
    lia.
  - destruct (Z.eq_dec p p') as [->|Hne]; [lia|].
    destruct (value_large p Hl) as [m [s [Hr [Es [Hs1 [[Hv1 Hv2] [Hu Hd]]]]]]].
    destruct (value_large p' Hl') as [m' [s' [Hr' [Es' [Hs1' [[Hv1' Hv2'] [Hu' Hd']]]]]]].
    unfold value. rewrite Hr, Hr'.
    pose proof (Z.log2_le_mono p p' Hle) as Hlog.
    destruct (Z.eq_dec (Z.log2 p) (Z.log2 p')) as [Ee|Ne].
    + assert (Hss : s' = s) by lia. rewrite Hss in *. clear Hss Es'.
      set (a := 2 ^ s) in *.
      assert (Ha : 0 < a) by (apply Z.pow_pos_nonneg; lia).
      assert (Hm : ~ m' < m).
      { intros Hc. assert (m' * a + a <= m * a) by nia. lia. }
      apply Z.mul_le_mono_nonneg_r; lia.
    + assert (2 ^ (Z.log2 p + 1) <= 2 ^ Z.log2 p').
      { apply Z.pow_le_mono_r; lia. }
      lia.
Qed.

Lemma int_mul_07_value (n : Z) :
  0 <= n < 2 ^ 50 -> int_mul_07 n = value (n * m07) / 2 ^ 53.
Proof.
  intros Hn. unfold int_mul_07, value. rewrite round53_small by lia.
  destruct (Z_lt_le_dec (n * m07) (2 ^ 53)) as [Hp|Hp].
  - rewrite round53_small by (unfold m07 in *; lia).
    change (0 + 0 - 53) with (- 53).
    rewrite Z.shiftl_div_pow2 by lia. rewrite Z.pow_0_r, Z.mul_1_r. reflexivity.
  - destruct (round53_large (n * m07)) as [m [s [a [Hr [Hs [Ea [Ha _]]]]]]].
    { split; [exact Hp|]. unfold m07.
      change (2 ^ 103) with 10141204801825835211973625643008.
      change (2 ^ 50) with 1125899906842624 in Hn. lia. }
    rewrite Hr. replace (0 + s - 53) with (- (53 - s)) by lia.
    rewrite Z.shiftl_div_pow2 by lia. rewrite Z.opp_involutive.
    replace (2 ^ 53) with (2 ^ (53 - s) * 2 ^ s).
    + rewrite Z.div_mul_cancel_r; [reflexivity | |];
        apply Z.pow_nonzero; lia.
    + rewrite <- Z.pow_add_r by lia. f_equal. lia.
Qed.

Lemma int_mul_07_mono (n n' : Z) :
  0 <= n <= n' -> n' < 2 ^ 50 -> int_mul_07 n <= int_mul_07 n'.
Proof.
  intros Hn Hn'. rewrite !int_mul_07_value by lia.
  apply Z.div_le_mono; [reflexivity|].
  apply value_mono. unfold m07. lia.
Qed.

(** For a text of less than 2^50 code points the estimate is the integer
    part of seven tenths of the length, or one less (the product is a
    floating-point product, and [0.7] is slightly less than seven tenths). *)
Theorem estimate_bounds (text : str) :
  let n := Z.of_nat (length text) in
  n < 2 ^ 50 ->
  7 * n / 10 - 1 <= TextSplitter._estimate_tokens text <= 7 * n / 10.
Proof.
  intros n Hn. unfold TextSplitter._estimate_tokens. fold n.
  apply int_mul_07_bounds. lia.
Qed.

Lemma estimate_mono (a b : str) :
  (length a <= length b)%nat -> Z.of_nat (length b) < 2 ^ 50 ->
  TextSplitter._estimate_tokens a <= TextSplitter._estimate_tokens b.
Proof.
  intros Hl Hb. unfold TextSplitter._estimate_tokens.
  apply int_mul_07_mono; lia.
Qed.

End EstimateFacts.

Module EstimateExamples.

Import EstimateFacts.

Lemma estimate_bounds_witness :
  7 * 90 / 10 - 1 <= TextSplitter._estimate_tokens (repeat 97 90) <= 7 * 90 / 10.
Proof.
  apply (estimate_bounds (repeat 97 90)). vm_compute. reflexivity.
Defined.

(** Both values occur. *)
Example estimate_values :
  TextSplitter._estimate_tokens (repeat 97 90) = 62
  /\ TextSplitter._estimate_tokens (repeat 97 100) = 70.
Proof. split; reflexivity. Qed.

End EstimateExamples.

(** *** [split_by_tokens] without a client, on a text within the budget *)

Module SingleChunk.

Import TextSplitter Greedy EstimateFacts.

(** The length of a joined list, with one separator counted for every
    element. *)
Definition footprint (k : nat) (l : list str) : nat :=
  fold_right (fun x acc => (length x + k + acc)%nat) 0%nat l.

Lemma join_length (sep : str) (l : list str) :
  l <> [] -> (length (join sep l) + length sep = footprint (length sep) l)%nat.
Proof.
  induction l as [|x l IH]; [congruence|]. intros _.
  destruct l as [|y l].
  - simpl. lia.
  - change (join sep (x :: y :: l)) with (x ++ sep ++ join sep (y :: l)).
    change (footprint (length sep) (x :: y :: l))
      with (length x + length sep + footprint (length sep) (y :: l))%nat.
    rewrite !length_app, <- IH by congruence. lia.
Qed.

Lemma strip_length (s : str) : (length (strip s) <= length s)%nat.
Proof.
  unfold strip.
  destruct (lstrip_split s) as [ws [E _]].
  destruct (rstrip_split (lstrip s)) as [ws' [E' _]].
  rewrite E at 2. rewrite E' at 2. rewrite !length_app. lia.
Qed.

Lemma strip_nonblank_footprint (k : nat) (pieces : list str) :
  (footprint k (strip_nonblank pieces) <= footprint k pieces)%nat.
Proof.
  unfold strip_nonblank. induction pieces as [|p pieces IH]; [reflexivity|].
  cbn [List.map List.filter]. pose proof (strip_length p).
  destruct (truthy (strip p)); simpl in *; lia.
Qed.

Lemma match_ws_nl_length (s : str) (n : nat) :
  match_ws_nl s = Some n -> (1 <= n <= length s)%nat.
Proof.
  revert n. induction s as [|c s IH]; intros n; simpl; [discriminate|].
  destruct (isspace c); [|discriminate].
  destruct (match_ws_nl s) as [m|].
  - intros [= <-]. specialize (IH m eq_refl). lia.
  - destruct (c =? LF); [|discriminate]. intros [= <-]. lia.
Qed.

Lemma re_split_blank_footprint (s : str) :
  forall (skip : nat) (piece : str),
    (footprint 2 (re_split_blank s skip piece) + skip
     <= length piece + 2 + length s + skip - skip
        + (skip - length s))%nat.
Proof.
  induction s as [|c s IH]; intros skip piece.
  - simpl. lia.
  - destruct skip as [|k].
    + assert (Hplain : (footprint 2 (re_split_blank s 0 (piece ++ [c])) + 0
                        <= length piece + 2 + length (c :: s) + 0 - 0
                           + (0 - length (c :: s)))%nat).
      { specialize (IH 0%nat (piece ++ [c])). rewrite length_app in IH.
        simpl in *. lia. }
      simpl re_split_blank. destruct (c =? LF); [|exact Hplain].
      destruct (match_ws_nl s) as [n|] eqn:Em; [|exact Hplain].
      apply match_ws_nl_length in Em. specialize (IH n []).
      simpl in *. lia.
    + specialize (IH k piece). simpl re_split_blank. simpl in *. lia.
Qed.

(** The paragraphs of a text, glued by blank lines, are not longer than the
    text. *)
Lemma paragraphs_length (text : str) :
  (length (join [LF; LF] (_split_by_paragraphs text)) <= length text)%nat.
Proof.
  unfold _split_by_paragraphs.
  pose proof (strip_nonblank_footprint 2 (re_split_blank text 0 [])) as Hs.
  pose proof (re_split_blank_footprint text 0 []) as Hr.
  destruct (strip_nonblank (re_split_blank text 0 [])) as [|p ps] eqn:E;
    [simpl; lia|].
  pose proof (join_length [LF; LF] (p :: ps) ltac:(congruence)) as J.
  change (length [LF; LF]) with 2%nat in J.
  simpl in Hr. lia.
Qed.

Lemma join_firstn_length (sep : str) (l : list str) (k : nat) :
  (length (join sep (firstn k l)) <= length (join sep l))%nat.
Proof.
  revert k. induction l as [|x l IH]; intros k.
  - now rewrite firstn_nil.
  - destruct k as [|k]; [simpl; lia|].
    cbn [firstn]. specialize (IH k).
    destruct l as [|y l].
    + rewrite firstn_nil. simpl. lia.
    + destruct k as [|k].
      * simpl firstn.
        change (join sep (x :: y :: l)) with (x ++ sep ++ join sep (y :: l)).
        simpl join. rewrite !length_app. lia.
      * change (firstn (S k) (y :: l)) with (y :: firstn k l) in *.
        change (join sep (x :: y :: firstn k l))
          with (x ++ sep ++ join sep (y :: firstn k l)).
        change (join sep (x :: y :: l)) with (x ++ sep ++ join sep (y :: l)).
        rewrite !length_app. lia.
Qed.

(** Units that never exceed the budget, however many are glued, end up in
    one chunk. *)
Lemma greedy_single (sep : str) (fallback : str -> list str) (ex : str -> bool)
    (units : list str) :
  units <> [] ->
  Forall (fun u => stripped u /\ u <> []) units ->
  (forall k, ex (join sep (firstn k units)) = false) ->
  flush (fold_left (greedy_step sep fallback ex) units ([], []))
  = [join sep units].
Proof.
  intros Nu Hu Hex.
  pose (P := fun (done : list str) (st : list str * str) =>
               st = ([], join sep done)).
  assert (Hfin : P units (fold_left (greedy_step sep fallback ex) units ([], []))).
  { apply fold_left_invariant; [reflexivity|].
    intros done x rest st E ->. unfold P, greedy_step.
    assert (Hd : Forall (fun u => u <> []) done).
    { rewrite E in Hu. apply Forall_app in Hu. destruct Hu as [Hu _].
      eapply List.Forall_impl; [|exact Hu]. simpl. tauto. }
    assert (Hk : ex (join sep (done ++ [x])) = false).
    { specialize (Hex (length (done ++ [x]))). rewrite E in Hex.
      change (x :: rest) with ([x] ++ rest) in Hex.
      rewrite app_assoc, firstn_app, firstn_all, Nat.sub_diag in Hex.
      simpl firstn in Hex. now rewrite app_nil_r in Hex. }
    destruct done as [|d done].
    - simpl in *. now rewrite Hk.
    - assert (Hj : join sep (d :: done) <> [])
        by (apply join_nonempty; [exact Hd | congruence]).
      apply truthy_true in Hj. rewrite Hj.
      rewrite <- join_snoc by congruence. now rewrite Hk. }
  unfold P in Hfin. rewrite Hfin. unfold flush.
  assert (Hj : join sep units <> []).
  { apply join_nonempty; [|exact Nu].
    eapply List.Forall_impl; [|exact Hu]. simpl. tauto. }
  apply truthy_true in Hj. rewrite Hj.
  now rewrite strip_id by (now apply stripped_join).
Qed.

(** Without a client, a text that is not blank and whose estimate is
    within the budget comes back as one chunk: its paragraphs, stripped and
    glued by one blank line each. (Texts of less than 2^50 code points.) *)
Theorem within_budget_single_chunk self (text : str) :
  Z.of_nat (length text) < 2 ^ 50 ->
  _estimate_tokens text <= chunk_size self ->
  strip text <> [] ->
  split_by_tokens self None text = [join [LF; LF] (_split_by_paragraphs text)].
Proof.
  intros Hlen Hfit Hnb. unfold split_by_tokens, split_paragraphs.
  rewrite (fold_left_ext _ _ _ _ (paragraph_step_greedy self None)).
  apply greedy_single.
  - intros E. apply Hnb. now apply ChunkShape.paragraphs_nil.
  - apply ChunkBudget.paragraphs_units.
  - intros k. unfold exceeds. apply Z.ltb_ge.
    etransitivity; [|exact Hfit].
    apply estimate_mono; [|exact Hlen].
    etransitivity; [apply join_firstn_length | apply paragraphs_length].
Qed.

End SingleChunk.

Module SingleChunkExamples.

Import TextSplitter.

Lemma within_budget_single_chunk_witness :
  split_by_tokens (init Config.default None) None (lit "  a

 
b
c  

")
  = [join [LF; LF] (_split_by_paragraphs (lit "  a

 
b
c  

"))].
Proof.
  apply SingleChunk.within_budget_single_chunk;
    [vm_compute; reflexivity | vm_compute; discriminate | vm_compute; discriminate].
Defined.

End SingleChunkExamples.

(* ===================================================================== *)
(** ** The substitutions of the clean-up functions ([re.sub]) *)
(* ===================================================================== *)

Module Re.

Section Sub.

(** [match_at s]: the length of the match of the pattern at the head of
    [s], which is not empty, and what replaces it. *)
Variable match_at : str -> option (nat * str).

(** [re.sub(pattern, replacement, s)]: the matches are found from left to
    right and do not overlap; [skip] code points of [s] still belong to the
    match found last. *)
Fixpoint sub (s : str) (skip : nat) : str :=
  match s with
  | [] => []
  | c :: s' =>
      match skip with
      | S k => sub s' k
      | O =>
          match match_at s with
          | Some (n, replacement) => replacement ++ sub s' (n - 1)
          | None => c :: sub s' 0
          end
      end
  end.

End Sub.

(** A literal followed by [\n?], replaced by nothing. *)
Definition literal_opt_lf (literal : str) (s : str) : option (nat * str) :=
  if startswith literal s then
    Some ((length literal
           + match skipn (length literal) s with
             | c :: _ => if (c =? LF)%Z then 1 else 0
             | [] => 0
             end)%nat, [])
  else None.

Definition FENCE : str := [96; 96; 96].                       (* ``` *)

(** [re.sub(r'\n{3,}', '\n\n', s)]: [seen] line feeds precede in the
    run. *)
Fixpoint collapse (s : str) (seen : nat) : str :=
  match s with
  | [] => []
  | c :: s' =>
      if c =? LF then
        if (seen <? 2)%nat then c :: collapse s' (S seen) else collapse s' (S seen)
      else c :: collapse s' 0
  end.

Definition THREE_LF : str := [LF; LF; LF].

(** *** Facts about [contains] and [startswith] *)

Lemma startswith_true (p s : str) :
  startswith p s = true <-> exists rest, s = p ++ rest.
Proof.
  revert s. induction p as [|a p IH]; intros s.
  - simpl. split; [now exists s | reflexivity].
  - destruct s as [|b s]; simpl.
    + split; [discriminate | intros [r H]; discriminate].
    + rewrite andb_true_iff, Z.eqb_eq, IH. split.
      * intros [-> [r ->]]. now exists r.
      * intros [r [= -> ->]]. split; [reflexivity | now exists r].
Qed.

Lemma startswith_prefix (p a b : str) :
  startswith p a = true -> startswith p (a ++ b) = true.
Proof.
  rewrite !startswith_true. intros [r ->]. exists (r ++ b). now rewrite app_assoc.
Qed.

Lemma contains_cons (p : str) (c : char) (s : str) :
  contains p (c :: s) = startswith p (c :: s) || contains p s.
Proof. reflexivity. Qed.

Lemma contains_app_r (p a b : str) :
  contains p (a ++ b) = false -> contains p b = false.
Proof.
  induction a as [|c a IH]; [trivial|].
  change ((c :: a) ++ b) with (c :: a ++ b). rewrite contains_cons.
  intros H. apply orb_false_iff in H. now apply IH.
Qed.

Lemma contains_nil_false (p : str) : p <> [] -> contains p [] = false.
Proof. destruct p; [congruence | reflexivity]. Qed.

Lemma contains_app_l (p a b : str) :
  p <> [] -> contains p (a ++ b) = false -> contains p a = false.
Proof.
  intros Np. induction a as [|c a IH]; intros H.
  - now apply contains_nil_false.
  - change ((c :: a) ++ b) with (c :: a ++ b) in H. rewrite contains_cons in *.
    apply orb_false_iff in H. destruct H as [H1 H2].
    rewrite (IH H2), orb_false_r.
    destruct (startswith p (c :: a)) eqn:E; [|reflexivity].
    apply (startswith_prefix _ _ b) in E. simpl app in E. congruence.
Qed.

Lemma contains_strip (p s : str) :
  p <> [] -> contains p s = false -> contains p (strip s) = false.
Proof.
  intros Np H. unfold strip.
  destruct (lstrip_split s) as [ws [E _]].
  destruct (rstrip_split (lstrip s)) as [ws' [E' _]].
  rewrite E in H. apply contains_app_r in H. rewrite E' in H.
  now apply contains_app_l in H.
Qed.

(** *** A substitution that puts back what it matched *)

Section Identity.

Variable match_at : str -> option (nat * str).
Hypothesis same :
  forall s n r, match_at s = Some (n, r) -> (1 <= n)%nat /\ r = firstn n s.

Lemma sub_skipn (s : str) : forall skip, sub match_at s skip = skipn skip s.
Proof using same.
  induction s as [|c s IH]; intros skip.
  - now destruct skip.
  - destruct skip as [|k]; cbn [sub]; [|apply IH].
    destruct (match_at (c :: s)) as [[n r]|] eqn:E.
    + destruct (same _ _ _ E) as [Hn ->]. rewrite IH.
      destruct n as [|n]; [lia|]. simpl. rewrite Nat.sub_0_r.
      now rewrite firstn_skipn.
    + rewrite IH. reflexivity.
Qed.

Lemma sub_identity (s : str) : sub match_at s 0 = s.
Proof using same. apply sub_skipn. Qed.

End Identity.

(** *** A substitution whose replacements hold no line feed *)

Section NoLineFeed.

Variable match_at : str -> option (nat * str).
Hypothesis replaced :
  forall s n r, match_at s = Some (n, r) -> r <> [] /\ ~ In LF r.

Lemma sub_head_lf (s : str) (out : str) :
  sub match_at s 0 = LF :: out ->
  exists s', s = LF :: s' /\ out = sub match_at s' 0.
Proof using replaced.
  destruct s as [|c s]; [discriminate|]. cbn [sub].
  destruct (match_at (c :: s)) as [[n r]|] eqn:E.
  - destruct (replaced _ _ _ E) as [Nr Hr].
    destruct r as [|x r]; [congruence|]. intros [= -> _].
    exfalso. apply Hr. now left.
  - intros [= -> <-]. now exists s.
Qed.

Lemma sub_two_lf (s : str) :
  startswith [LF; LF] (sub match_at s 0) = true -> startswith [LF; LF] s = true.
Proof using replaced.
  intros H. apply startswith_true in H. destruct H as [rest H].
  change ([LF; LF] ++ rest) with (LF :: LF :: rest) in H.
  apply sub_head_lf in H. destruct H as [s' [-> H]]. symmetry in H.
  apply sub_head_lf in H. destruct H as [s'' [-> _]].
  reflexivity.
Qed.

Lemma no_three_lf_app (r y : str) :
  ~ In LF r -> r <> [] -> contains THREE_LF y = false ->
  contains THREE_LF (r ++ y) = false.
Proof.
  intros Hr _ Hy. induction r as [|x r IH]; [exact Hy|].
  change ((x :: r) ++ y) with (x :: r ++ y). rewrite contains_cons.
  rewrite IH by (intros H; apply Hr; now right). rewrite orb_false_r.
  change (startswith THREE_LF (x :: r ++ y))
    with ((LF =? x) && startswith [LF; LF] (r ++ y)).
  destruct (LF =? x) eqn:E; [|reflexivity].
  apply Z.eqb_eq in E. exfalso. apply Hr. now left.
Qed.

Lemma sub_no_three_lf (s : str) :
  forall skip,
    contains THREE_LF s = false -> contains THREE_LF (sub match_at s skip) = false.
Proof using replaced.
  induction s as [|c s IH]; intros skip H; [reflexivity|].
  rewrite contains_cons in H. apply orb_false_iff in H. destruct H as [H1 H2].
  destruct skip as [|k]; cbn [sub]; [|now apply IH].
  destruct (match_at (c :: s)) as [[n r]|] eqn:E.
  - destruct (replaced _ _ _ E) as [Nr Hr].
    apply no_three_lf_app; [exact Hr | exact Nr | now apply IH].
  - rewrite contains_cons, (IH 0%nat H2), orb_false_r.
    destruct (startswith THREE_LF (c :: sub match_at s 0)) eqn:E3; [|reflexivity].
    exfalso. unfold THREE_LF in E3, H1. cbn [startswith] in E3, H1.
    apply andb_true_iff in E3. destruct E3 as [Ec E3].
    change ((LF =? LF) && startswith [LF] (LF :: ?x)) with true in E3.
    rewrite Ec in H1. cbn [andb] in H1.
    assert (H22 : startswith [LF; LF] s = true) by (apply sub_two_lf; exact E3).
    cbn [startswith] in H22. congruence.
Qed.

End NoLineFeed.

(** *** Runs of line feeds after [collapse] *)

Lemma startswith_cons (a b : char) (p s : str) :
  startswith (a :: p) (b :: s) = (a =? b) && startswith p s.
Proof. reflexivity. Qed.

(** The longest run of line feeds that may open what [collapse] returns,
    plus one. *)
Definition lead_bound (seen : nat) : str :=
  match seen with
  | O => THREE_LF
  | S O => [LF; LF]
  | S (S _) => [LF]
  end.

Lemma startswith_lf_other (p s : str) (c : char) :
  (c =? LF) = false -> startswith (LF :: p) (c :: s) = false.
Proof.
  intros H. rewrite startswith_cons, Z.eqb_sym, H. reflexivity.
Qed.

Lemma collapse_lead (s : str) :
  forall seen,
    contains THREE_LF (collapse s seen) = false
    /\ startswith (lead_bound seen) (collapse s seen) = false.
Proof.
  induction s as [|c s IH]; intros seen.
  - split; [reflexivity|]. destruct seen as [|[|seen]]; reflexivity.
  - cbn [collapse]. destruct (c =? LF) eqn:Ec.
    + apply Z.eqb_eq in Ec. subst c.
      destruct (IH (S seen)) as [IH1 IH2].
      destruct seen as [|[|seen]].
      * change (1 <? 2)%nat with true. change (0 <? 2)%nat with true. cbv iota.
        cbn [lead_bound] in IH2 |- *.
        assert (H3 : startswith THREE_LF (LF :: collapse s 1) = false).
        { unfold THREE_LF. rewrite startswith_cons, IH2. reflexivity. }
        split; [|exact H3]. now rewrite contains_cons, H3, IH1.
      * change (1 <? 2)%nat with true. cbv iota.
        cbn [lead_bound] in IH2 |- *.
        assert (H2 : startswith [LF; LF] (LF :: collapse s 2) = false).
        { rewrite startswith_cons, IH2. reflexivity. }
        split; [|exact H2]. rewrite contains_cons, IH1, orb_false_r.
        unfold THREE_LF. rewrite startswith_cons.
        destruct (collapse s 2) as [|x y]; [reflexivity|].
        rewrite startswith_cons in IH2 |- *.
        change (startswith [] y) with true in IH2. rewrite andb_true_r in IH2.
        now rewrite IH2.
      * change (S (S seen) <? 2)%nat with false. cbv iota.
        split; [exact IH1 | exact IH2].
    + destruct (IH 0%nat) as [IH1 _]. rewrite contains_cons, IH1, orb_false_r.
      split.
      * now apply startswith_lf_other.
      * destruct seen as [|[|seen]]; now apply startswith_lf_other.
Qed.

Lemma collapse_no_three_lf (s : str) : contains THREE_LF (collapse s 0) = false.
Proof. apply collapse_lead. Qed.

Lemma collapse_startswith (p s : str) :
  ~ In LF p -> startswith p (collapse s 0) = startswith p s.
Proof.
  revert s. induction p as [|a p IH]; intros s Hp; [reflexivity|].
  destruct s as [|c s]; [reflexivity|].
  cbn [collapse]. destruct (c =? LF) eqn:Ec.
  - apply Z.eqb_eq in Ec. subst c. simpl.
    destruct (a =? LF) eqn:Ea; [|reflexivity].
    apply Z.eqb_eq in Ea. exfalso. apply Hp. now left.
  - simpl. rewrite IH by (intros H; apply Hp; now right). reflexivity.
Qed.

Lemma collapse_contains (p s : str) :
  ~ In LF p -> p <> [] ->
  forall seen, contains p s = false -> contains p (collapse s seen) = false.
Proof.
  intros Hp Np. induction s as [|c s IH]; intros seen H.
  - simpl. now apply contains_nil_false.
  - rewrite contains_cons in H. apply orb_false_iff in H. destruct H as [H1 H2].
    cbn [collapse]. destruct (c =? LF) eqn:Ec.
    + assert (Hs : forall y, startswith p (c :: y) = false).
      { intros y. destruct p as [|a p]; [congruence|]. simpl.
        destruct (a =? c) eqn:Ea; [|reflexivity].
        apply Z.eqb_eq in Ea, Ec. subst. exfalso. apply Hp. now left. }
      destruct (seen <? 2)%nat; [|now apply IH].
      rewrite contains_cons, Hs. now apply IH.
    + rewrite contains_cons, (IH 0%nat H2), orb_false_r.
      destruct p as [|a p]; [congruence|].
      cbn [startswith] in *. rewrite collapse_startswith; [exact H1|].
      intros H. apply Hp. now right.
Qed.

End Re.

(* ===================================================================== *)
(** ** pipeline/build_questions.py: the clean-up of the generated texts *)
(* ===================================================================== *)

Module Flashcards.

Import Re.

Definition FLASHCARDS : str := lit "flashcards:".

(** One turn of the loop of [_post_process_yaml] on
    [(yaml_lines, in_yaml)]. *)
Definition yaml_step (st : list str * bool) (line : str) : list str * bool :=
  let '(yaml_lines, in_yaml) := st in
  let in_yaml := if startswith FLASHCARDS (strip line) then true else in_yaml in
  if in_yaml then (yaml_lines ++ [line], in_yaml) else (yaml_lines, in_yaml).

(** [_post_process_yaml] *)
Definition _post_process_yaml (yaml_content : str) : str :=
  let yaml_content := sub (literal_opt_lf (lit "```yaml")) yaml_content 0 in
  let yaml_content := sub (literal_opt_lf FENCE) yaml_content 0 in
  let lines := split_char LF yaml_content in
  strip (join [LF] (fst (fold_left yaml_step lines ([], false)))).

End Flashcards.

Module FlashcardsFacts.

Import Re Flashcards LineFacts.

(** *** The lines kept by the loop *)

Definition opens (line : str) : bool := startswith FLASHCARDS (strip line).

Fixpoint drop_until (lines : list str) : list str :=
  match lines with
  | [] => []
  | line :: rest => if opens line then lines else drop_until rest
  end.

Lemma fold_in_yaml (lines acc : list str) :
  fold_left yaml_step lines (acc, true) = (acc ++ lines, true).
Proof.
  revert acc. induction lines as [|l lines IH]; intros acc.
  - simpl. now rewrite app_nil_r.
  - cbn [fold_left yaml_step].
    replace (if startswith FLASHCARDS (strip l) then true else true) with true
      by now destruct (startswith FLASHCARDS (strip l)).
    cbv iota. rewrite IH, <- app_assoc. reflexivity.
Qed.

Lemma fold_yaml_step (lines : list str) :
  fst (fold_left yaml_step lines ([], false)) = drop_until lines.
Proof.
  induction lines as [|l lines IH]; [reflexivity|].
  cbn [fold_left yaml_step drop_until]. unfold opens.
  destruct (startswith FLASHCARDS (strip l)).
  - rewrite fold_in_yaml. reflexivity.
  - exact IH.
Qed.

Lemma drop_until_suffix (lines : list str) :
  exists pre, lines = pre ++ drop_until lines.
Proof.
  induction lines as [|l lines [pre IH]]; [now exists []|].
  simpl. destruct (opens l); [now exists []|].
  exists (l :: pre). simpl. now rewrite <- IH.
Qed.

Lemma drop_until_head (lines : list str) :
  match drop_until lines with
  | [] => True
  | line :: _ => opens line = true
  end.
Proof.
  induction lines as [|l lines IH]; [exact I|].
  simpl. destruct (opens l) eqn:E; [exact E | exact IH].
Qed.

Lemma join_suffix (sep : str) (pre l : list str) :
  exists front, join sep (pre ++ l) = front ++ join sep l.
Proof.
  destruct pre as [|p pre]; [now exists []|].
  destruct l as [|x l].
  - rewrite app_nil_r. exists (join sep (p :: pre)). simpl. now rewrite app_nil_r.
  - exists (join sep (p :: pre) ++ sep).
    rewrite join_app by congruence. now rewrite <- app_assoc.
Qed.

Lemma join_head (sep : str) (x : str) (l : list str) :
  exists tail, join sep (x :: l) = x ++ tail
               /\ (tail = [] \/ exists t, tail = sep ++ t).
Proof.
  destruct l as [|y l].
  - exists []. simpl. rewrite app_nil_r. auto.
  - exists (sep ++ join sep (y :: l)). split; [reflexivity|]. right. eauto.
Qed.

(** *** Stripping a text that opens with a word *)

Lemma lstrip_spaces_app (ws x : str) :
  forallb isspace ws = true -> lstrip (ws ++ x) = lstrip x.
Proof.
  induction ws as [|c ws IH]; [reflexivity|]. simpl.
  intros H. apply andb_true_iff in H. destruct H as [Hc Hws].
  rewrite Hc. now apply IH.
Qed.

Lemma rstrip_keeps_word (word y : str) :
  word <> [] -> head_ok (rev word) = true ->
  startswith word (rstrip (word ++ y)) = true.
Proof.
  intros Nw Hw. destruct (rstrip_split (word ++ y)) as [ws [E Hws]].
  apply startswith_true. symmetry in E.
  apply List.app_eq_app in E. destruct E as [l [[E1 E2]|[E1 E2]]].
  - now exists l.
  - (* [l] would be white space at the end of the word *)
    destruct l as [|c l].
    + rewrite app_nil_r in E1. exists []. now rewrite app_nil_r.
    + exfalso. rewrite E1, rev_app_distr in Hw.
      destruct (exists_last (l := c :: l)) as [l' [z Ez]]; [congruence|].
      rewrite Ez, rev_app_distr in Hw. simpl in Hw.
      rewrite E2, Ez in Hws. rewrite forallb_forall in Hws.
      rewrite (Hws z) in Hw; [discriminate|].
      apply in_or_app. left. apply in_or_app. right. now left.
Qed.

Lemma strip_keeps_word (word a b : str) :
  word <> [] -> head_ok word = true -> head_ok (rev word) = true ->
  startswith word (strip a) = true ->
  startswith word (strip (a ++ b)) = true.
Proof.
  intros Nw Hh Hl H. apply startswith_true in H. destruct H as [z Hz].
  unfold strip in *.
  destruct (lstrip_split a) as [ws0 [E0 Hws0]].
  destruct (rstrip_split (lstrip a)) as [ws1 [E1 _]].
  rewrite Hz in E1.
  assert (Ea : lstrip (a ++ b) = word ++ (z ++ ws1 ++ b)).
  { rewrite E0 at 1. rewrite <- app_assoc, lstrip_spaces_app by exact Hws0.
    rewrite E1, <- !app_assoc. apply lstrip_id.
    destruct word; [congruence | exact Hh]. }
  rewrite Ea. now apply rstrip_keeps_word.
Qed.

Lemma flashcards_word :
  FLASHCARDS <> [] /\ head_ok FLASHCARDS = true
  /\ head_ok (rev FLASHCARDS) = true /\ ~ In LF FLASHCARDS.
Proof.
  repeat split; try discriminate.
  vm_compute. intros H. repeat (destruct H as [H|H]; [discriminate H|]). exact H.
Qed.

(** *** No code fence is left by the second substitution *)

Lemma fence_none (s : str) :
  startswith FENCE s = false -> literal_opt_lf FENCE s = None.
Proof. unfold literal_opt_lf. now intros ->. Qed.

Lemma fence_some (s : str) :
  startswith FENCE s = true -> exists n, literal_opt_lf FENCE s = Some (n, []).
Proof. unfold literal_opt_lf. intros ->. eauto. Qed.

Lemma two_ticks (s : str) :
  startswith FENCE (96 :: s) = false ->
  startswith [96; 96] (sub (literal_opt_lf FENCE) s 0) = false.
Proof.
  unfold FENCE. rewrite startswith_cons. change (96 =? 96) with true.
  rewrite andb_true_l. intros H.
  destruct s as [|d s1]; [reflexivity|].
  rewrite startswith_cons in H. cbn [sub].
  destruct (96 =? d) eqn:Ed.
  - apply Z.eqb_eq in Ed. subst d. rewrite andb_true_l in H.
    rewrite fence_none.
    2:{ unfold FENCE. rewrite startswith_cons. change (96 =? 96) with true.
        rewrite andb_true_l. destruct s1 as [|e s2]; [reflexivity|].
        rewrite startswith_cons in H |- *.
        change (startswith [] s2) with true in H. rewrite andb_true_r in H.
        now rewrite H. }
    rewrite startswith_cons. change (96 =? 96) with true. rewrite andb_true_l.
    destruct s1 as [|e s2]; [reflexivity|].
    rewrite startswith_cons in H. change (startswith [] s2) with true in H.
    rewrite andb_true_r in H. cbn [sub].
    rewrite fence_none by (unfold FENCE; rewrite startswith_cons, H; reflexivity).
    rewrite startswith_cons, H. reflexivity.
  - rewrite fence_none by (unfold FENCE; rewrite startswith_cons, Ed; reflexivity).
    rewrite startswith_cons, Ed. reflexivity.
Qed.

Lemma fence_removed (s : str) :
  forall skip, contains FENCE (sub (literal_opt_lf FENCE) s skip) = false.
Proof.
  induction s as [|c s IH]; intros skip; [reflexivity|].
  destruct skip as [|k]; cbn [sub]; [|apply IH].
  destruct (startswith FENCE (c :: s)) eqn:E.
  - destruct (fence_some _ E) as [n ->]. apply IH.
  - rewrite (fence_none _ E), contains_cons, IH, orb_false_r.
    unfold FENCE at 1. rewrite startswith_cons.
    destruct (96 =? c) eqn:Ec; [|reflexivity].
    apply Z.eqb_eq in Ec. subst c. rewrite andb_true_l.
    now apply two_ticks.
Qed.

(** *** A text without the literal is left as it is *)

Lemma sub_literal_absent (literal s : str) :
  contains literal s = false -> sub (literal_opt_lf literal) s 0 = s.
Proof.
  induction s as [|c s IH]; [reflexivity|].
  rewrite contains_cons. intros H. apply orb_false_iff in H. destruct H as [H1 H2].
  cbn [sub]. unfold literal_opt_lf at 1. rewrite H1, IH by exact H2. reflexivity.
Qed.

Lemma startswith_longer (p q s : str) :
  startswith (p ++ q) s = true -> startswith p s = true.
Proof.
  rewrite !startswith_true. intros [r ->]. exists (q ++ r). now rewrite app_assoc.
Qed.

Lemma contains_longer (p q s : str) :
  contains p s = false -> contains (p ++ q) s = false.
Proof.
  induction s as [|c s IH].
  - simpl. intros H. apply orb_false_iff in H. destruct H as [H _].
    destruct (startswith (p ++ q) []) eqn:E; [|reflexivity].
    apply startswith_longer in E. congruence.
  - rewrite !contains_cons. intros H. apply orb_false_iff in H.
    destruct H as [H1 H2]. rewrite (IH H2), orb_false_r.
    destruct (startswith (p ++ q) (c :: s)) eqn:E; [|reflexivity].
    apply startswith_longer in E. congruence.
Qed.

(** *** The result *)

Lemma kept_lines (yaml_content : str) :
  _post_process_yaml yaml_content
  = strip (join [LF]
             (drop_until
                (split_char LF
                   (sub (literal_opt_lf FENCE)
                      (sub (literal_opt_lf (lit "```yaml")) yaml_content 0) 0)))).
Proof. unfold _post_process_yaml. cbv zeta. now rewrite fold_yaml_step. Qed.

Lemma clean_fixed (r : str) :
  stripped r -> contains FENCE r = false ->
  r = [] \/ startswith FLASHCARDS r = true ->
  _post_process_yaml r = r.
Proof.
  intros Hs Hf Hw. rewrite kept_lines.
  rewrite (sub_literal_absent (lit "```yaml"))
    by (change (lit "```yaml") with (FENCE ++ lit "yaml");
        now apply contains_longer).
  rewrite (sub_literal_absent FENCE) by exact Hf.
  destruct Hw as [->|Hw]; [reflexivity|].
  destruct flashcards_word as [Nw [Hh [Hl Hlf]]].
  pose proof (ScriptMergerFacts.join_split_char LF r) as Hj.
  pose proof (split_char_pieces LF r) as Hp.
  destruct (split_char LF r) as [|l0 rest] eqn:El.
  { exfalso. revert El. apply ScriptMergerFacts.split_on_nonempty. }
  assert (H0 : startswith FLASHCARDS l0 = true).
  { destruct (join_head [LF] l0 rest) as [tail [Et Htail]].
    rewrite Et in Hj. apply startswith_true in Hw. destruct Hw as [z Hz].
    rewrite Hz in Hj. apply List.app_eq_app in Hj.
    apply startswith_true.
    destruct Hj as [l [[E1 E2]|[E1 E2]]].
    - now exists l.
    - destruct l as [|c l]; [exists []; now rewrite E1, !app_nil_r|].
      exfalso. destruct Htail as [->|[t ->]]; [discriminate|].
      injection E2 as <- _. apply Hlf. rewrite E1.
      apply in_or_app. right. now left. }
  assert (Ho : opens l0 = true).
  { unfold opens. apply startswith_true in H0. destruct H0 as [z ->].
    unfold strip. rewrite lstrip_id.
    - now apply rstrip_keeps_word.
    - destruct FLASHCARDS; [congruence | exact Hh]. }
  cbn [drop_until]. rewrite Ho, Hj. now apply strip_id.
Qed.

(** What [_post_process_yaml] returns is empty or opens with
    [flashcards:] (every line in front of the first line that opens with it
    is dropped), holds no code fence, and is left as it is by a second
    call. *)
Theorem post_process_yaml_shape (yaml_content : str) :
  let r := _post_process_yaml yaml_content in
  (r = [] \/ startswith FLASHCARDS r = true)
  /\ contains FENCE r = false
  /\ _post_process_yaml r = r.
Proof.
  cbv zeta.
  assert (Hw : _post_process_yaml yaml_content = []
               \/ startswith FLASHCARDS (_post_process_yaml yaml_content) = true).
  { rewrite kept_lines.
    set (lines := split_char LF _).
    pose proof (drop_until_head lines) as Hh.
    destruct (drop_until lines) as [|l0 rest]; [now left|]. right.
    destruct (join_head [LF] l0 rest) as [tail [-> _]].
    destruct flashcards_word as [Nw [Hh1 [Hl _]]].
    now apply strip_keeps_word. }
  assert (Hf : contains FENCE (_post_process_yaml yaml_content) = false).
  { rewrite kept_lines.
    set (text := sub (literal_opt_lf FENCE) _ 0).
    assert (Ht : contains FENCE text = false) by apply fence_removed.
    destruct (drop_until_suffix (split_char LF text)) as [pre Hpre].
    destruct (join_suffix [LF] pre (drop_until (split_char LF text)))
      as [front Hfront].
    rewrite <- Hpre, ScriptMergerFacts.join_split_char in Hfront.
    rewrite Hfront in Ht. apply contains_app_r in Ht.
    apply contains_strip; [discriminate | exact Ht]. }
  split; [exact Hw|]. split; [exact Hf|].
  apply clean_fixed; [|exact Hf | exact Hw].
  unfold _post_process_yaml. cbv zeta. apply stripped_strip.
Qed.

End FlashcardsFacts.

Module FlashcardsExamples.

Import Flashcards.

Example yaml_cleaned :
  _post_process_yaml (lit "Here you are:
```yaml
  flashcards:
  - id: k1
```
")
  = lit "flashcards:
  - id: k1".
Proof. reflexivity. Qed.

Example yaml_without_key : _post_process_yaml (lit "- id: k1") = [].
Proof. reflexivity. Qed.

End FlashcardsExamples.

Module Questions.

Import Re ScriptSplitter Ingest.

Definition HEADER : str := lit "# Q&Aセット

このドキュメントは、ポッドキャスト内容の理解度を確認するためのQ&Aセットです。
各問題には回答が付いているので、自己採点に活用してください。

---

".

(** [\*\*Q(\d+):\*\*] and its replacement [**Q\1:**] *)
Definition question_marker (s : str) : option (nat * str) :=
  match strip_prefix (lit "**Q") s with
  | Some rest =>
      let number := take_while isdecimal rest in
      if truthy number && startswith (lit ":**") (skipn (length number) rest)
      then Some ((3 + length number + 3)%nat, lit "**Q" ++ number ++ lit ":**")
      else None
  | None => None
  end.

(** [\*\*A:\*\*] and its replacement [**A:**] *)
Definition answer_marker (s : str) : option (nat * str) :=
  if startswith (lit "**A:**") s then Some (6%nat, lit "**A:**") else None.

(** [_post_process_qa] *)
Definition _post_process_qa (qa_content : str) : str :=
  let header := HEADER in
  let qa_content := strip qa_content in
  let qa_content := sub (literal_opt_lf (lit "```markdown")) qa_content 0 in
  let qa_content := sub (literal_opt_lf FENCE) qa_content 0 in
  let qa_content := sub question_marker qa_content 0 in
  let qa_content := sub answer_marker qa_content 0 in
  let qa_content := collapse qa_content 0 in
  header ++ qa_content.

Definition KEYWORD_HEADING : str := lit "## Keyword Q&A".
Definition SECTION_MARK : str := lit "## ".

(** [(.*?)(?=## |$)] under [re.DOTALL]: the shortest text in front of
    [## ], of the end of the text, or of a line feed that ends the text. *)
Fixpoint until_section (s : str) : str :=
  match s with
  | [] => []
  | c :: s' =>
      if startswith SECTION_MARK s then []
      else
        match s' with
        | [] => if c =? LF then [] else [c]
        | _ :: _ => c :: until_section s'
        end
  end.

(** The group of a match of [## Keyword Q&A\s*\n(.*?)(?=## |$)] at the head
    of [s]. *)
Definition keyword_at (s : str) : option str :=
  match strip_prefix KEYWORD_HEADING s with
  | Some rest =>
      match TextSplitter.match_ws_nl rest with
      | Some n => Some (until_section (skipn n rest))
      | None => None
      end
  | None => None
  end.

(** [re.search]: the leftmost match. *)
Fixpoint search (s : str) : option str :=
  match keyword_at s with
  | Some group => Some group
  | None =>
      match s with
      | [] => None
      | _ :: s' => search s'
      end
  end.

(** [_extract_keyword_qa] *)
Definition _extract_keyword_qa (qa_content : str) : str :=
  match search qa_content with
  | Some group => strip group
  | None => []
  end.

End Questions.

Module QuestionsFacts.

Import Re Questions ScriptSplitter Ingest FlashcardsFacts.

(** *** The two marker substitutions put back what they matched *)

Lemma strip_prefix_app (p s rest : str) :
  strip_prefix p s = Some rest -> s = p ++ rest.
Proof.
  revert s. induction p as [|a p IH]; intros s H.
  - simpl in H. now injection H as ->.
  - destruct s as [|b s]; [discriminate|]. simpl in H.
    destruct (a =? b) eqn:E; [|discriminate].
    apply Z.eqb_eq in E. subst b. simpl. f_equal. now apply IH.
Qed.

Lemma take_while_skipn (p : char -> bool) (s : str) :
  take_while p s ++ skipn (length (take_while p s)) s = s.
Proof.
  induction s as [|c s IH]; [reflexivity|]. simpl.
  destruct (p c); [|reflexivity]. simpl. now rewrite IH.
Qed.

Lemma firstn_exact (a b : str) (n : nat) :
  n = length a -> firstn n (a ++ b) = a.
Proof.
  intros ->. induction a as [|x a IH]; [reflexivity|]. simpl. now rewrite IH.
Qed.

Lemma question_same (s : str) (n : nat) (r : str) :
  question_marker s = Some (n, r) -> (1 <= n)%nat /\ r = firstn n s.
Proof.
  unfold question_marker.
  destruct (strip_prefix (lit "**Q") s) as [rest|] eqn:Ep; [|discriminate].
  apply strip_prefix_app in Ep. subst s. cbv zeta.
  destruct (truthy (take_while isdecimal rest)
            && startswith (lit ":**")
                 (skipn (length (take_while isdecimal rest)) rest)) eqn:E;
    [|discriminate].
  apply andb_true_iff in E. destruct E as [_ E].
  apply startswith_true in E. destruct E as [tail E].
  intros [= <- <-]. split; [lia|].
  pose proof (take_while_skipn isdecimal rest) as Hr. rewrite E in Hr.
  set (number := take_while isdecimal rest) in *.
  rewrite <- Hr.
  replace (lit "**Q" ++ number ++ lit ":**" ++ tail)
    with ((lit "**Q" ++ number ++ lit ":**") ++ tail)
    by now rewrite <- !app_assoc.
  symmetry. apply firstn_exact. simpl. rewrite length_app. simpl. lia.
Qed.

Lemma answer_same (s : str) (n : nat) (r : str) :
  answer_marker s = Some (n, r) -> (1 <= n)%nat /\ r = firstn n s.
Proof.
  unfold answer_marker. destruct (startswith (lit "**A:**") s) eqn:E; [|discriminate].
  apply startswith_true in E. destruct E as [tail ->].
  intros [= <- <-]. split; [lia | reflexivity].
Qed.

(** *** A text without three line feeds in a row is left as it is *)

Lemma collapse_absent (s : str) :
  forall seen,
    startswith (lead_bound seen) s = false -> contains THREE_LF s = false ->
    collapse s seen = s.
Proof.
  induction s as [|c s IH]; intros seen H1 H2; [reflexivity|].
  rewrite contains_cons in H2. apply orb_false_iff in H2. destruct H2 as [H2 H3].
  cbn [collapse]. destruct (c =? LF) eqn:Ec.
  - apply Z.eqb_eq in Ec. subst c.
    destruct seen as [|[|seen]].
    + change (0 <? 2)%nat with true. cbv iota. f_equal. apply IH; [|exact H3].
      exact H1.
    + change (1 <? 2)%nat with true. cbv iota. f_equal. apply IH; [|exact H3].
      exact H1.
    + discriminate H1.
  - f_equal. apply IH; [|exact H3].
    unfold lead_bound. destruct s as [|d s]; [reflexivity|].
    rewrite contains_cons in H3. apply orb_false_iff in H3. apply H3.
Qed.

(** [_post_process_qa] puts the header in front of a body: the stripped
    text without the two kinds of code fence and with every run of three or
    more line feeds cut to two. The two substitutions of the question and
    answer markers change nothing. The body holds no code fence and no three
    line feeds in a row, and a stripped text that has neither is the body
    itself. *)
Theorem post_process_qa_shape (qa_content : str) :
  let body :=
    collapse
      (sub (literal_opt_lf FENCE)
         (sub (literal_opt_lf (lit "```markdown")) (strip qa_content) 0) 0) 0 in
  _post_process_qa qa_content = HEADER ++ body
  /\ contains THREE_LF body = false
  /\ contains FENCE body = false
  /\ (stripped qa_content -> contains FENCE qa_content = false ->
      contains THREE_LF qa_content = false -> body = qa_content).
Proof.
  cbv zeta. split; [|split; [|split]].
  - unfold _post_process_qa. cbv zeta.
    rewrite (sub_identity answer_marker answer_same).
    rewrite (sub_identity question_marker question_same). reflexivity.
  - apply collapse_no_three_lf.
  - apply collapse_contains; [|discriminate | apply fence_removed].
    intros H. repeat (destruct H as [H|H]; [discriminate H|]). exact H.
  - intros Hs Hf Ht. rewrite (strip_id _ Hs).
    rewrite (sub_literal_absent (lit "```markdown"))
      by (change (lit "```markdown") with (FENCE ++ lit "markdown");
          now apply contains_longer).
    rewrite (sub_literal_absent FENCE) by exact Hf.
    apply collapse_absent; [|exact Ht].
    destruct qa_content as [|c s]; [reflexivity|].
    rewrite contains_cons in Ht. apply orb_false_iff in Ht. apply Ht.
Qed.

(** *** The search for the keyword section *)

Lemma strip_prefix_startswith (p s : str) :
  strip_prefix p s = if startswith p s then Some (skipn (length p) s) else None.
Proof.
  revert s. induction p as [|a p IH]; intros s; [reflexivity|].
  destruct s as [|b s]; [reflexivity|]. simpl.
  destruct (a =? b); [apply IH | reflexivity].
Qed.

Lemma strip_prefix_self (p x : str) : strip_prefix p (p ++ x) = Some x.
Proof.
  induction p as [|a p IH]; [reflexivity|]. simpl. now rewrite Z.eqb_refl.
Qed.

Lemma startswith_cut (p a b : str) :
  (length p <= length a)%nat -> startswith p (a ++ b) = startswith p a.
Proof.
  revert a. induction p as [|x p IH]; intros a H; [reflexivity|].
  destruct a as [|y a]; simpl in H; [lia|].
  simpl. rewrite IH by lia. reflexivity.
Qed.

Lemma keyword_at_none (s : str) :
  startswith KEYWORD_HEADING s = false -> keyword_at s = None.
Proof. unfold keyword_at. rewrite strip_prefix_startswith. now intros ->. Qed.

Lemma search_here (s group : str) :
  keyword_at s = Some group -> search s = Some group.
Proof. intros H. destruct s; cbn [search]; now rewrite H. Qed.

Lemma search_absent (s : str) :
  contains KEYWORD_HEADING s = false -> search s = None.
Proof.
  induction s as [|c s IH]; [reflexivity|].
  rewrite contains_cons. intros H. apply orb_false_iff in H. destruct H as [H1 H2].
  cbn [search]. rewrite (keyword_at_none _ H1). now apply IH.
Qed.

Lemma search_skip (pre x : str) :
  contains KEYWORD_HEADING (pre ++ lit "## Keyword Q&") = false ->
  search (pre ++ KEYWORD_HEADING ++ x) = search (KEYWORD_HEADING ++ x).
Proof.
  induction pre as [|c pre IH]; [reflexivity|]. intros H.
  rewrite <- app_comm_cons in *.
  rewrite contains_cons in H. apply orb_false_iff in H. destruct H as [H1 H2].
  cbn [search]. rewrite keyword_at_none; [now apply IH|].
  change KEYWORD_HEADING with (lit "## Keyword Q&" ++ lit "A") at 2.
  rewrite <- app_assoc, app_assoc, app_comm_cons.
  rewrite startswith_cut; [exact H1|].
  simpl length. rewrite length_app. simpl. lia.
Qed.

(** *** The white space after the heading *)

Lemma match_ws_nl_run (ws y : str) :
  forallb isspace ws = true ->
  TextSplitter.match_ws_nl (ws ++ LF :: y)
  = Some (length ws + 1
          + match TextSplitter.match_ws_nl y with Some k => k | None => 0 end)%nat.
Proof.
  induction ws as [|c ws IH]; intros H.
  - simpl app. cbn [TextSplitter.match_ws_nl].
    change (isspace LF) with true. cbv iota.
    destruct (TextSplitter.match_ws_nl y); reflexivity.
  - simpl in H. apply andb_true_iff in H. destruct H as [Hc Hws].
    simpl app. cbn [TextSplitter.match_ws_nl]. rewrite Hc, (IH Hws). reflexivity.
Qed.

Lemma match_ws_nl_lead (y : str) :
  forall k, TextSplitter.match_ws_nl y = Some k ->
            exists ws, y = ws ++ skipn k y /\ forallb isspace ws = true.
Proof.
  induction y as [|c y IH]; intros k H; [discriminate|].
  cbn [TextSplitter.match_ws_nl] in H.
  destruct (isspace c) eqn:Hc; [|discriminate].
  destruct (TextSplitter.match_ws_nl y) as [n|] eqn:E.
  - injection H as <-. destruct (IH n eq_refl) as [ws [E1 E2]].
    exists (c :: ws). simpl. rewrite Hc, E2, <- E1. auto.
  - destruct (c =? LF); [|discriminate]. injection H as <-.
    exists [c]. simpl. rewrite Hc. auto.
Qed.

Lemma skipn_past (a : str) (c : char) (y : str) (k : nat) :
  skipn (length a + 1 + k) (a ++ c :: y) = skipn k y.
Proof. induction a as [|x a IH]; [reflexivity | exact IH]. Qed.

Lemma after_heading (ws body next : str) :
  forallb isspace ws = true ->
  next = [] \/ startswith SECTION_MARK next = true ->
  exists n lead b,
    TextSplitter.match_ws_nl (ws ++ LF :: body ++ next) = Some n
    /\ skipn n (ws ++ LF :: body ++ next) = b ++ next
    /\ body = lead ++ b /\ forallb isspace lead = true.
Proof.
  intros Hws Hnext. rewrite (match_ws_nl_run _ _ Hws).
  destruct (TextSplitter.match_ws_nl (body ++ next)) as [k|] eqn:E.
  - destruct (match_ws_nl_lead _ _ E) as [lead [E1 E2]].
    apply List.app_eq_app in E1. destruct E1 as [l [[E3 E4]|[E3 E4]]].
    + exists (length ws + 1 + k)%nat, lead, l. rewrite skipn_past. auto.
    + destruct l as [|c l].
      * rewrite app_nil_r in E3. subst lead. simpl in E4.
        exists (length ws + 1 + k)%nat, body, []. rewrite skipn_past.
        rewrite <- E4, app_nil_r. auto.
      * exfalso. destruct Hnext as [->|Hn]; [discriminate E4|].
        apply startswith_true in Hn. destruct Hn as [r Hr].
        rewrite Hr in E4. injection E4 as <- _.
        rewrite E3, forallb_app in E2. apply andb_true_iff in E2.
        destruct E2 as [_ E2]. discriminate E2.
  - exists (length ws + 1 + 0)%nat, [], body. rewrite skipn_past. auto.
Qed.

(** *** The end of the section *)

Lemma until_section_mark (b r : str) :
  contains SECTION_MARK (b ++ lit "##") = false ->
  until_section (b ++ SECTION_MARK ++ r) = b.
Proof.
  induction b as [|c b IH]; intros H; [reflexivity|].
  rewrite <- app_comm_cons in *.
  rewrite contains_cons in H. apply orb_false_iff in H. destruct H as [H1 H2].
  cbn [until_section].
  assert (Hs : startswith SECTION_MARK (c :: b ++ SECTION_MARK ++ r) = false).
  { change SECTION_MARK with (lit "##" ++ lit " ") at 2.
    rewrite <- app_assoc, app_assoc, app_comm_cons.
    rewrite startswith_cut; [exact H1|].
    simpl length. rewrite length_app. simpl. lia. }
  rewrite Hs, (IH H2).
  destruct (b ++ SECTION_MARK ++ r) eqn:E; [|reflexivity].
  apply app_eq_nil in E. destruct E as [_ E]. discriminate E.
Qed.

Lemma until_section_end (b : str) :
  contains SECTION_MARK b = false ->
  until_section b = b \/ b = until_section b ++ [LF].
Proof.
  induction b as [|c b IH]; intros H; [now left|].
  rewrite contains_cons in H. apply orb_false_iff in H. destruct H as [H1 H2].
  cbn [until_section]. rewrite H1.
  destruct b as [|d b].
  - destruct (c =? LF) eqn:Ec; [|now left].
    apply Z.eqb_eq in Ec. subst c. now right.
  - destruct (IH H2) as [E|E].
    + left. now rewrite E.
    + right. rewrite E at 1. reflexivity.
Qed.

(** *** White space at the ends is stripped *)

Lemma strip_spaces_app (ws x : str) :
  forallb isspace ws = true -> strip (ws ++ x) = strip x.
Proof. intros H. unfold strip. now rewrite lstrip_spaces_app. Qed.

Lemma rstrip_app_spaces (x ws : str) :
  forallb isspace ws = true -> rstrip (x ++ ws) = rstrip x.
Proof.
  intros H. unfold rstrip. rewrite rev_app_distr, lstrip_spaces_app; [reflexivity|].
  rewrite forallb_forall in *. intros c Hc. apply H. now apply in_rev.
Qed.

Lemma lstrip_app_keep (x y : str) :
  lstrip x <> [] -> lstrip (x ++ y) = lstrip x ++ y.
Proof.
  induction x as [|c x IH]; simpl; [congruence|].
  destruct (isspace c); [exact IH | reflexivity].
Qed.

Lemma strip_app_spaces (x ws : str) :
  forallb isspace ws = true -> strip (x ++ ws) = strip x.
Proof.
  intros H. unfold strip. destruct (lstrip x) as [|c l] eqn:E.
  - destruct (lstrip_split x) as [w [Ex Hw]]. rewrite E, app_nil_r in Ex. subst w.
    rewrite <- (app_nil_r (x ++ ws)), lstrip_spaces_app; [reflexivity|].
    rewrite forallb_app, Hw, H. reflexivity.
  - rewrite lstrip_app_keep, E by congruence. now apply rstrip_app_spaces.
Qed.

(** [_extract_keyword_qa] returns the empty string for a text without the
    heading [## Keyword Q&A]. For a text whose first such heading is
    followed by white space, a line feed, a body and then the end of the
    text or the next [## ], it returns the stripped body. *)
Theorem keyword_section_extracted (qa_content : str) :
  (contains KEYWORD_HEADING qa_content = false ->
   _extract_keyword_qa qa_content = [])
  /\ (forall pre ws body next : str,
        qa_content = pre ++ KEYWORD_HEADING ++ ws ++ [LF] ++ body ++ next ->
        contains KEYWORD_HEADING (pre ++ lit "## Keyword Q&") = false ->
        forallb isspace ws = true ->
        contains SECTION_MARK (body ++ lit "##") = false ->
        next = [] \/ startswith SECTION_MARK next = true ->
        _extract_keyword_qa qa_content = strip body).
Proof.
  split.
  - intros H. unfold _extract_keyword_qa. now rewrite search_absent.
  - intros pre ws body next -> Hpre Hws Hbody Hnext.
    unfold _extract_keyword_qa. rewrite (search_skip _ _ Hpre).
    destruct (after_heading ws body next Hws Hnext)
      as [n [lead [b [Hn [Hk [Eb Hlead]]]]]].
    change ([LF] ++ body ++ next) with (LF :: body ++ next).
    rewrite (search_here _ (until_section (b ++ next))).
    2:{ unfold keyword_at. now rewrite strip_prefix_self, Hn, Hk. }
    rewrite Eb, (strip_spaces_app _ _ Hlead).
    rewrite Eb, <- app_assoc in Hbody. apply contains_app_r in Hbody.
    destruct Hnext as [->|Hn2].
    + rewrite app_nil_r. apply contains_app_l in Hbody; [|discriminate].
      destruct (until_section_end _ Hbody) as [E|E]; [now rewrite E|].
      rewrite E at 2. now rewrite strip_app_spaces.
    + apply startswith_true in Hn2. destruct Hn2 as [r ->].
      now rewrite until_section_mark.
Qed.

End QuestionsFacts.

Module QuestionsExamples.

Import Re Questions QuestionsFacts.

Definition clean_qa : str := lit "## Keyword Q&A

**Q1:** What is a chunk?
**A:** A part of the text.

## Why Q&A

**Q2:** Why?
**A:** Because.".

Lemma post_process_qa_witness : _post_process_qa clean_qa = HEADER ++ clean_qa.
Proof.
  destruct (post_process_qa_shape clean_qa) as [E [_ [_ H]]].
  rewrite E, H; [reflexivity | split; reflexivity | reflexivity | reflexivity].
Defined.

Lemma keyword_section_witness :
  _extract_keyword_qa (_post_process_qa clean_qa)
  = lit "**Q1:** What is a chunk?
**A:** A part of the text.".
Proof.
  destruct (keyword_section_extracted (_post_process_qa clean_qa)) as [_ H].
  rewrite (H HEADER [] (lit "
**Q1:** What is a chunk?
**A:** A part of the text.

") (lit "## Why Q&A

**Q2:** Why?
**A:** Because.")).
  - reflexivity.
  - reflexivity.
  - reflexivity.
  - reflexivity.
  - reflexivity.
  - right. reflexivity.
Defined.

(** The header ends with a blank line: a body that starts with a line feed
    gives three line feeds in a row in the whole text. *)
Example header_and_body :
  _post_process_qa (lit "```

**Q1:** x")
  = HEADER ++ lit "
**Q1:** x"
  /\ contains THREE_LF (_post_process_qa (lit "```

**Q1:** x")) = true.
Proof. split; reflexivity. Qed.

Example keyword_section_examples :
  _extract_keyword_qa (lit "## Keyword Q&A (basics)
**Q1:** x") = []
  /\ _extract_keyword_qa (lit "## Keyword Q&A
**Q1:** C# or F#? ### x") = lit "**Q1:** C# or F#? #".
Proof. split; reflexivity. Qed.

End QuestionsExamples.

(* ===================================================================== *)
(** ** pipeline/build_script.py: the clean-up of the generated script *)
(* ===================================================================== *)

Module ScriptCleanup.

Import Re ScriptSplitter Ingest.

Definition FULLWIDTH_COLON : char := 65306.                     (* ： *)

(** One turn of the loop of [_post_process_script] on [cleaned_lines]. *)
Definition blank_step (cleaned_lines : list str) (line : str) : list str :=
  if str_eqb (strip line) [] then
    if match rev cleaned_lines with
       | [] => true                                 (* not cleaned_lines *)
       | l :: _ => negb (str_eqb l [])              (* cleaned_lines[-1] != "" *)
       end
    then cleaned_lines ++ [[]]
    else cleaned_lines
  else cleaned_lines ++ [line].

(** A speaker label at the head of [s]: one of [prefixes], [\s*] when [gap]
    holds, then [(\d+)\s*[:：]]; it is replaced by [Speaker \d:]. *)
Definition label_at (prefixes : list str) (gap : bool) (s : str)
    : option (nat * str) :=
  match List.find (fun p => startswith p s) prefixes with
  | Some p =>
      let rest := skipn (length p) s in
      let ws := if gap then take_while isspace rest else [] in
      let rest := skipn (length ws) rest in
      let number := take_while isdecimal rest in
      let rest := skipn (length number) rest in
      let ws' := take_while isspace rest in
      match skipn (length ws') rest with
      | c :: _ =>
          if truthy number && ((c =? COLON) || (c =? FULLWIDTH_COLON))
          then Some ((length p + length ws + length number + length ws' + 1)%nat,
                     lit "Speaker " ++ number ++ [COLON])
          else None
      | [] => None
      end
  | None => None
  end.

(** [_post_process_script] *)
Definition _post_process_script (script : str) : str :=
  let lines := split_char LF script in
  let cleaned_lines := fold_left blank_step lines [] in
  let script := join [LF] cleaned_lines in
  let script := sub (label_at [lit "話者"; lit "スピーカー"] true) script 0 in
  let script := sub (label_at [lit "S"] false) script 0 in
  strip script.

End ScriptCleanup.

Module ScriptCleanupFacts.

Import Re ScriptCleanup ScriptSplitter Ingest LineFacts.

(** *** The lines kept by the loop *)

(** No line holds a line feed and no two empty lines follow each other. *)
Fixpoint sparse (lines : list str) : Prop :=
  match lines with
  | [] => True
  | x :: rest =>
      free_of LF x
      /\ (x = [] -> match rest with y :: _ => y <> [] | [] => True end)
      /\ sparse rest
  end.

Lemma sparse_snoc (lines : list str) (z : str) :
  sparse lines -> free_of LF z ->
  (z = [] -> match rev lines with l :: _ => l <> [] | [] => True end) ->
  sparse (lines ++ [z]).
Proof.
  induction lines as [|x rest IH]; intros Hs Hz Hl.
  - simpl. auto.
  - destruct Hs as [Hx [Hh Hs]]. simpl app. cbn [sparse].
    split; [exact Hx|]. split.
    + intros Ex. destruct rest as [|y rest'].
      * simpl. intros Ez. simpl in Hl. now apply (Hl Ez).
      * exact (Hh Ex).
    + apply IH; [exact Hs | exact Hz|]. intros Ez. specialize (Hl Ez).
      simpl rev in Hl. destruct (rev rest) as [|h t]; [exact I | exact Hl].
Qed.

Lemma str_eqb_nil (a : str) : str_eqb a [] = true <-> a = [].
Proof. destruct a; simpl; split; congruence. Qed.

Lemma blank_step_sparse (cleaned_lines : list str) (line : str) :
  sparse cleaned_lines -> free_of LF line ->
  sparse (blank_step cleaned_lines line).
Proof.
  intros Hs Hl. unfold blank_step.
  destruct (str_eqb (strip line) []) eqn:E.
  - destruct (rev cleaned_lines) as [|l t] eqn:Er.
    + apply sparse_snoc; [exact Hs | intros [] |]. now rewrite Er.
    + destruct (str_eqb l []) eqn:El; [exact Hs|]. cbn [negb].
      apply sparse_snoc; [exact Hs | intros [] |]. rewrite Er. intros _ ->.
      discriminate El.
  - apply sparse_snoc; [exact Hs | exact Hl|]. intros ->. discriminate E.
Qed.

Lemma fold_blank_step_sparse (lines : list str) :
  forall cleaned_lines,
    Forall (free_of LF) lines -> sparse cleaned_lines ->
    sparse (fold_left blank_step lines cleaned_lines).
Proof.
  induction lines as [|l lines IH]; intros acc Hf Hs; [exact Hs|].
  apply List.Forall_cons_iff in Hf. destruct Hf as [Hl Hf].
  cbn [fold_left]. apply IH; [exact Hf|]. now apply blank_step_sparse.
Qed.

(** *** Their join holds no three line feeds in a row *)

Lemma free_startswith (x p : str) :
  free_of LF x -> startswith (LF :: p) x = false.
Proof.
  intros H. destruct x as [|c x]; [reflexivity|].
  apply startswith_lf_other. apply Z.eqb_neq. intros ->. apply H. now left.
Qed.

Lemma free_app_startswith (x y p : str) :
  free_of LF x -> x <> [] -> startswith (LF :: p) (x ++ y) = false.
Proof.
  intros H N. destruct x as [|c x]; [congruence|].
  apply startswith_lf_other. apply Z.eqb_neq. intros ->. apply H. now left.
Qed.

Lemma free_app_contains (x y : str) :
  free_of LF x -> contains THREE_LF y = false ->
  contains THREE_LF (x ++ y) = false.
Proof.
  intros H Hy. induction x as [|c x IH]; [exact Hy|].
  rewrite <- app_comm_cons, contains_cons.
  rewrite IH by (intros Hin; apply H; now right). rewrite orb_false_r.
  apply (free_app_startswith (c :: x) y); [exact H | discriminate].
Qed.

Lemma join_sparse (lines : list str) :
  sparse lines ->
  contains THREE_LF (join [LF] lines) = false
  /\ startswith [LF; LF] (join [LF] lines) = false
  /\ match lines with
     | x :: _ => x <> [] -> startswith [LF] (join [LF] lines) = false
     | [] => True
     end.
Proof.
  induction lines as [|x rest IH]; [now repeat split|].
  intros [Hx [Hh Hs]]. specialize (IH Hs).
  destruct rest as [|y rest'].
  - cbn [join]. split; [|split].
    + rewrite <- (app_nil_r x). now apply free_app_contains.
    + now apply free_startswith.
    + intros _. now apply free_startswith.
  - destruct IH as [IH1 [IH2 IH3]].
    change (join [LF] (x :: y :: rest')) with (x ++ LF :: join [LF] (y :: rest')).
    set (J := join [LF] (y :: rest')) in *.
    split; [|split].
    + apply free_app_contains; [exact Hx|].
      rewrite contains_cons, IH1, orb_false_r.
      unfold THREE_LF. rewrite startswith_cons, IH2. reflexivity.
    + destruct x as [|c x].
      * simpl app. rewrite startswith_cons, (IH3 (Hh eq_refl)). reflexivity.
      * now apply free_app_startswith.
    + intros N. now apply free_app_startswith.
Qed.

(** *** The labels that replace hold no line feed *)

Lemma take_while_all (p : char -> bool) (s : str) (c : char) :
  In c (take_while p s) -> p c = true.
Proof.
  induction s as [|d s IH]; [intros []|]. simpl.
  destruct (p d) eqn:E; [|intros []].
  intros [<-|H]; [exact E | now apply IH].
Qed.

Lemma label_replaced (prefixes : list str) (gap : bool) (s : str)
    (n : nat) (r : str) :
  label_at prefixes gap s = Some (n, r) -> r <> [] /\ ~ In LF r.
Proof.
  unfold label_at. destruct (List.find _ prefixes) as [p|]; [|discriminate].
  cbv zeta.
  set (rest1 := skipn (length p) s).
  set (ws := if gap then take_while isspace rest1 else []).
  set (rest2 := skipn (length ws) rest1).
  set (number := take_while isdecimal rest2).
  set (rest3 := skipn (length number) rest2).
  set (ws' := take_while isspace rest3).
  destruct (skipn (length ws') rest3) as [|c t]; [discriminate|].
  destruct (truthy number && _); [|discriminate].
  intros [= _ <-]. split; [discriminate|].
  intros H. change (In LF (lit "Speaker " ++ number ++ [COLON])) in H.
  apply in_app_or in H. destruct H as [H|H].
  - repeat (destruct H as [H|H]; [discriminate H|]). exact H.
  - apply in_app_or in H. destruct H as [H|H].
    + apply take_while_all in H. discriminate H.
    + destruct H as [H|[]]. discriminate H.
Qed.

(** What [_post_process_script] returns has no white space at either end
    and no three line feeds in a row: the blank lines of the script, and
    those that the two label substitutions could bring together, never leave
    more than one empty line between two lines. *)
Theorem post_process_script_tidy (script : str) :
  stripped (_post_process_script script)
  /\ contains THREE_LF (_post_process_script script) = false.
Proof.
  unfold _post_process_script. cbv zeta. split; [apply stripped_strip|].
  apply contains_strip; [discriminate|].
  apply sub_no_three_lf; [apply label_replaced|].
  apply sub_no_three_lf; [apply label_replaced|].
  apply join_sparse. apply fold_blank_step_sparse; [|exact I].
  apply split_char_pieces.
Qed.

End ScriptCleanupFacts.

Module ScriptCleanupExamples.

Import ScriptCleanup.

Example labels_unified :
  _post_process_script (lit "
話者1： こんにちは
  
	

スピーカー 2 : はい
S3
: ok
")
  = lit "Speaker 1: こんにちは

Speaker 2: はい
Speaker 3: ok".
Proof. reflexivity. Qed.

(** The second pattern is not anchored: an [S] inside a word is taken for a
    label. *)
Example label_inside_word :
  _post_process_script (lit "Speaker 1: see CLASS3: types")
  = lit "Speaker 1: see CLASSpeaker 3: types".
Proof. reflexivity. Qed.

End ScriptCleanupExamples.

(* ===================================================================== *)
(** ** pipeline/build_explainer.py: the clean-up of the explanation *)
(* ===================================================================== *)

Module Explainer.

Import Re Ingest.

Definition HEADER : str := lit "# 詳細解説

このドキュメントは、ポッドキャスト台本の内容をより深く理解するための詳細解説です。
台本で触れられた概念や理論について、背景・根拠・実用例を含めて詳しく説明します。

---

".

Section SubMultiline.

(** [match_at s]: the match at the head of [s] of the pattern behind the
    [^], and what replaces it. *)
Variable match_at : str -> option (nat * str).

(** [re.sub('^' + pattern, replacement, s, flags=re.MULTILINE)]: a match
    starts at the start of the text or behind a line feed; [bol] tells
    whether [s] starts there. *)
Fixpoint sub_multiline (s : str) (skip : nat) (bol : bool) : str :=
  match s with
  | [] => []
  | c :: s' =>
      match skip with
      | S k => sub_multiline s' k (c =? LF)
      | O =>
          match (if bol then match_at s else None) with
          | Some (n, replacement) =>
              replacement ++ sub_multiline s' (n - 1) (c =? LF)
          | None => c :: sub_multiline s' 0 (c =? LF)
          end
      end
  end.

End SubMultiline.

Definition H1 : str := lit "# ".

(** [# ] behind the [^], replaced by [## ]. *)
Definition heading_at (s : str) : option (nat * str) :=
  if startswith H1 s then Some (2%nat, lit "## ") else None.

(** The last code point of [ws] other than a line feed, with its index. *)
Fixpoint last_other (ws : str) (index : nat) (found : option (nat * char))
    : option (nat * char) :=
  match ws with
  | [] => found
  | c :: ws' =>
      last_other ws' (S index) (if c =? LF then found else Some (index, c))
  end.

Definition GT : char := 62.                                   (* > *)

(** [>\s*(.+)$] behind the [^], replaced by [> \1]. The white space is
    taken as far as it goes; [.+] then takes the rest of the line. When the
    text ends with that white space, the white space is given back as far as
    its last code point other than a line feed, which is the group. *)
Definition quote_at (s : str) : option (nat * str) :=
  match s with
  | c :: rest =>
      if c =? GT then
        let ws := take_while isspace rest in
        match skipn (length ws) rest with
        | d :: after =>
            let group := take_while not_LF (d :: after) in
            Some ((1 + length ws + length group)%nat, lit "> " ++ group)
        | [] =>
            match last_other ws 0 None with
            | Some (k, d) => Some ((1 + k + 1)%nat, lit "> " ++ [d])
            | None => None
            end
        end
      else None
  | [] => None
  end.

(** [_post_process_explanation] *)
Definition _post_process_explanation (explanation script_content : str) : str :=
  let header := HEADER in
  let explanation := strip explanation in
  let explanation := sub_multiline heading_at explanation 0 true in
  let explanation := sub_multiline quote_at explanation 0 true in
  let explanation := collapse explanation 0 in
  header ++ explanation.

End Explainer.

Module ExplainerFacts.

Import Re Explainer Ingest.

(** A line feed and [# ]: a first-level heading on a line of its own. *)
Definition LINE_H1 : str := LF :: H1.

(** No line of [s] starts with [# ]; [bol] tells whether [s] starts a
    line. *)
Definition h1_free (bol : bool) (s : str) : Prop :=
  contains LINE_H1 s = false /\ (bol = true -> startswith H1 s = false).

Lemma contains_line_h1 (c : char) (s : str) :
  contains LINE_H1 (c :: s)
  = ((c =? LF) && startswith H1 s) || contains LINE_H1 s.
Proof.
  rewrite contains_cons. unfold LINE_H1.
  rewrite startswith_cons, (Z.eqb_sym LF c). reflexivity.
Qed.

Lemma startswith_h1 (c : char) (s : str) :
  startswith H1 (c :: s) = (35 =? c) && startswith [32] s.
Proof. reflexivity. Qed.

Lemma h1_free_tail (bol : bool) (c : char) (s : str) :
  h1_free bol (c :: s) -> h1_free (c =? LF) s.
Proof.
  intros [H _]. rewrite contains_line_h1 in H. apply orb_false_iff in H.
  destruct H as [Ha Hb]. split; [exact Hb|]. intros E. now rewrite E in Ha.
Qed.

Lemma h1_free_cons (bol : bool) (c : char) (s : str) :
  h1_free (c =? LF) s -> (bol = true -> startswith H1 (c :: s) = false) ->
  h1_free bol (c :: s).
Proof.
  intros [Hc Hs] Hb. split; [|exact Hb].
  rewrite contains_line_h1, Hc, orb_false_r.
  destruct (c =? LF); [now apply Hs | reflexivity].
Qed.

Lemma free_app_line (r y : str) :
  ~ In LF r -> contains LINE_H1 (r ++ y) = contains LINE_H1 y.
Proof.
  induction r as [|a r IH]; [reflexivity|]. intros H.
  rewrite <- app_comm_cons, contains_line_h1.
  destruct (a =? LF) eqn:E.
  - apply Z.eqb_eq in E. exfalso. apply H. left. now symmetry.
  - apply IH. intros Hin. apply H. now right.
Qed.

Lemma sub_multiline_inside (match_at : str -> option (nat * str)) (s : str) :
  sub_multiline match_at s 0 false
  = match s with
    | [] => []
    | c :: s' => c :: sub_multiline match_at s' 0 (c =? LF)
    end.
Proof. destruct s; reflexivity. Qed.

Lemma startswith_space_inside (match_at : str -> option (nat * str)) (s : str) :
  startswith [32] (sub_multiline match_at s 0 false) = startswith [32] s.
Proof. rewrite sub_multiline_inside. destruct s; reflexivity. Qed.

(** *** After the first substitution no line starts with [# ] *)

Lemma heading_h1_free (s : str) :
  forall bol, h1_free bol (sub_multiline heading_at s 0 bol).
Proof.
  induction s as [|c s IH]; intros bol.
  - split; [reflexivity | intros _; reflexivity].
  - cbn [sub_multiline]. destruct bol.
    + unfold heading_at at 1. destruct (startswith H1 (c :: s)) eqn:E.
      * apply startswith_true in E. destruct E as [rest E].
        injection E as -> ->.
        change (2 - 1)%nat with 1%nat. cbn [sub_multiline].
        specialize (IH false). rewrite sub_multiline_inside in IH.
        apply h1_free_tail in IH. destruct IH as [IH _].
        split; [|intros _; reflexivity].
        rewrite free_app_line; [exact IH|].
        intros H. repeat (destruct H as [H|H]; [discriminate H|]). exact H.
      * apply h1_free_cons; [apply IH|]. intros _.
        rewrite startswith_h1 in E |- *.
        destruct (35 =? c) eqn:Ec; [|reflexivity].
        apply Z.eqb_eq in Ec. subst c. rewrite andb_true_l in E |- *.
        change (35 =? LF) with false. now rewrite startswith_space_inside.
    + apply h1_free_cons; [apply IH | discriminate].
Qed.

(** *** A substitution that keeps this *)

Section Kept.

Variable match_at : str -> option (nat * str).
Hypothesis replaced :
  forall s n r,
    match_at s = Some (n, r) ->
    ~ In LF r /\ r <> [] /\ head_ok r = true
    /\ forall y, startswith H1 (r ++ y) = false.

Lemma sub_multiline_h1_free (s : str) :
  forall skip bol,
    h1_free bol s ->
    contains LINE_H1 (sub_multiline match_at s skip bol) = false
    /\ (skip = 0%nat -> bol = true ->
        startswith H1 (sub_multiline match_at s skip bol) = false).
Proof using replaced.
  induction s as [|c s IH]; intros skip bol Hf.
  - split; [reflexivity | intros _ _; reflexivity].
  - pose proof (h1_free_tail _ _ _ Hf) as Ht. cbn [sub_multiline].
    destruct skip as [|k].
    + destruct (if bol then match_at (c :: s) else None) as [[n r]|] eqn:E.
      * assert (Hm : match_at (c :: s) = Some (n, r))
          by (destruct bol; [exact E | discriminate]).
        destruct (replaced _ _ _ Hm) as [Hr [_ [_ Hs]]].
        split; [|intros _ _; apply Hs].
        rewrite free_app_line by exact Hr. now apply IH.
      * destruct (IH 0%nat (c =? LF) Ht) as [I1 I2].
        assert (Hc : h1_free bol (c :: sub_multiline match_at s 0 (c =? LF))).
        { apply h1_free_cons; [split; [exact I1 | now apply I2]|].
          intros Hb. destruct Hf as [_ Hf2]. specialize (Hf2 Hb).
          rewrite startswith_h1 in Hf2 |- *.
          destruct (35 =? c) eqn:Ec; [|reflexivity].
          apply Z.eqb_eq in Ec. subst c. rewrite andb_true_l in Hf2 |- *.
          change (35 =? LF) with false. now rewrite startswith_space_inside. }
        destruct Hc as [A B]. split; [exact A | intros _; exact B].
    + split; [now apply IH | discriminate].
Qed.

Lemma sub_multiline_head (s : str) (bol : bool) :
  head_ok s = true -> head_ok (sub_multiline match_at s 0 bol) = true.
Proof using replaced.
  destruct s as [|c s]; [reflexivity|]. intros H. cbn [sub_multiline].
  destruct (if bol then match_at (c :: s) else None) as [[n r]|] eqn:E;
    [|exact H].
  assert (Hm : match_at (c :: s) = Some (n, r))
    by (destruct bol; [exact E | discriminate]).
  destruct (replaced _ _ _ Hm) as [_ [Nr [Hr _]]].
  now apply head_ok_app.
Qed.

End Kept.

Lemma heading_replaced (s : str) (n : nat) (r : str) :
  heading_at s = Some (n, r) ->
  ~ In LF r /\ r <> [] /\ head_ok r = true
  /\ forall y, startswith H1 (r ++ y) = false.
Proof.
  unfold heading_at. destruct (startswith H1 s); [|discriminate].
  intros [= _ <-]. split; [|split; [discriminate | split; reflexivity]].
  intros H. repeat (destruct H as [H|H]; [discriminate H|]). exact H.
Qed.

Lemma take_while_not_lf (s : str) : ~ In LF (take_while not_LF s).
Proof.
  induction s as [|c s IH]; [intros []|]. simpl.
  destruct (not_LF c) eqn:E; [|intros []].
  intros [->|H]; [discriminate E | now apply IH].
Qed.

Lemma last_other_other (ws : str) :
  forall index found k d,
    last_other ws index found = Some (k, d) ->
    (forall k' d', found = Some (k', d') -> d' <> LF) ->
    d <> LF.
Proof.
  induction ws as [|c ws IH]; intros index found k d H Hf.
  - now apply (Hf k d).
  - cbn [last_other] in H. apply IH in H; [exact H|].
    intros k' d'. destruct (c =? LF) eqn:E; [apply Hf|].
    intros [= _ <-]. now apply Z.eqb_neq.
Qed.

Lemma quote_replaced (s : str) (n : nat) (r : str) :
  quote_at s = Some (n, r) ->
  ~ In LF r /\ r <> [] /\ head_ok r = true
  /\ forall y, startswith H1 (r ++ y) = false.
Proof.
  unfold quote_at. destruct s as [|c rest]; [discriminate|].
  destruct (c =? GT); [|discriminate]. cbv zeta.
  assert (Hshape : forall group : str,
            ~ In LF group ->
            ~ In LF (lit "> " ++ group) /\ lit "> " ++ group <> []
            /\ head_ok (lit "> " ++ group) = true
            /\ forall y, startswith H1 ((lit "> " ++ group) ++ y) = false).
  { intros group Hg. split; [|split; [discriminate | split; reflexivity]].
    intros [H|[H|H]]; [discriminate H | discriminate H | now apply Hg]. }
  destruct (skipn _ rest) as [|d after].
  - destruct (last_other _ 0 None) as [[k d]|] eqn:El; [|discriminate].
    intros [= _ <-]. apply Hshape.
    apply last_other_other in El; [|discriminate].
    intros [H|[]]. now apply El.
  - intros [= _ <-]. apply Hshape. exact (take_while_not_lf (d :: after)).
Qed.

(** *** Cutting the runs of line feeds keeps it as well *)

Lemma collapse_h1_free (s : str) :
  forall seen,
    contains LINE_H1 s = false ->
    ((0 < seen)%nat -> startswith H1 s = false) ->
    contains LINE_H1 (collapse s seen) = false
    /\ ((0 < seen)%nat -> startswith H1 (collapse s seen) = false).
Proof.
  induction s as [|c s IH]; intros seen Hc Hs.
  - split; [reflexivity | intros _; reflexivity].
  - rewrite contains_line_h1 in Hc. apply orb_false_iff in Hc.
    destruct Hc as [Hc1 Hc2]. cbn [collapse]. destruct (c =? LF) eqn:Ec.
    + rewrite andb_true_l in Hc1.
      destruct (IH (S seen) Hc2 (fun _ => Hc1)) as [I1 I2].
      specialize (I2 (Nat.lt_0_succ seen)).
      destruct (seen <? 2)%nat.
      * split.
        -- rewrite contains_line_h1, Ec, I1, I2. reflexivity.
        -- intros _. apply Z.eqb_eq in Ec. subst c. reflexivity.
      * split; [exact I1 | intros _; exact I2].
    + assert (H0 : (0 < 0)%nat -> startswith H1 s = false) by lia.
      destruct (IH 0%nat Hc2 H0) as [I1 _]. split.
      * rewrite contains_line_h1, Ec, I1. reflexivity.
      * intros Hseen. specialize (Hs Hseen). rewrite startswith_h1 in Hs |- *.
        destruct (35 =? c); [|reflexivity]. rewrite andb_true_l in Hs |- *.
        rewrite collapse_startswith; [exact Hs|].
        intros [H|[]]. discriminate H.
Qed.

Lemma collapse_head (s : str) :
  head_ok s = true -> head_ok (collapse s 0) = true.
Proof.
  destruct s as [|c s]; [reflexivity|]. intros H. cbn [collapse].
  destruct (c =? LF) eqn:E; [|exact H].
  apply Z.eqb_eq in E. subst c. discriminate H.
Qed.

(** *** Behind the header *)

Lemma glue_three_lf (a : str) (c : char) (b : str) :
  c <> LF ->
  contains THREE_LF (a ++ c :: b)
  = contains THREE_LF a || contains THREE_LF (c :: b).
Proof.
  intros Hc. apply Z.eqb_neq in Hc. rewrite Z.eqb_sym in Hc.
  induction a as [|x a IH]; [reflexivity|].
  rewrite <- app_comm_cons, !(contains_cons _ x), IH, orb_assoc. f_equal. f_equal.
  unfold THREE_LF.
  destruct a as [|y [|z a]]; cbn [app]; rewrite ?startswith_cons, ?Hc;
    cbn [startswith]; rewrite ?andb_false_r; reflexivity.
Qed.

Lemma glue_line_h1 (a body : str) :
  startswith H1 body = false ->
  contains LINE_H1 (a ++ LF :: body)
  = contains LINE_H1 (a ++ [LF]) || contains LINE_H1 body.
Proof.
  intros Hb. induction a as [|x a IH].
  - cbn [app]. rewrite contains_line_h1, Hb. reflexivity.
  - rewrite <- !app_comm_cons, !(contains_cons _ x), IH, orb_assoc. f_equal. f_equal.
    unfold LINE_H1, H1.
    destruct a as [|y [|z a]]; cbn [app]; rewrite ?startswith_cons;
      cbn [startswith]; rewrite ?andb_false_r; reflexivity.
Qed.

Lemma header_lines :
  HEADER = removelast HEADER ++ [LF]
  /\ contains THREE_LF HEADER = false /\ contains LINE_H1 HEADER = false.
Proof. repeat split. Qed.

(** *** What the first substitution does to the lines *)

(** A line that starts with [# ] gets one more [#]. *)
Definition demote_line (line : str) : str :=
  if startswith H1 line then 35 :: line else line.

Lemma sub_multiline_in_line (match_at : str -> option (nat * str))
    (line x : str) :
  ~ In LF line ->
  sub_multiline match_at (line ++ x) 0 false
  = line ++ sub_multiline match_at x 0 false.
Proof.
  induction line as [|c line IH]; intros Hl; [reflexivity|].
  rewrite <- app_comm_cons, sub_multiline_inside.
  assert (Ec : (c =? LF) = false).
  { apply Z.eqb_neq. intros ->. apply Hl. now left. }
  rewrite Ec, IH by (intros H; apply Hl; now right). reflexivity.
Qed.

Lemma startswith_h1_line (line x : str) :
  x = [] \/ (exists rest, x = LF :: rest) ->
  startswith H1 (line ++ x) = startswith H1 line.
Proof.
  intros Hx. destruct line as [|c [|d line]].
  - destruct Hx as [->|[rest ->]]; reflexivity.
  - cbn [app]. rewrite !startswith_h1.
    destruct Hx as [->|[rest ->]]; reflexivity.
  - reflexivity.
Qed.

Lemma heading_line (line x : str) :
  ~ In LF line -> x = [] \/ (exists rest, x = LF :: rest) ->
  sub_multiline heading_at (line ++ x) 0 true
  = demote_line line
    ++ sub_multiline heading_at x 0 match line with [] => true | _ :: _ => false end.
Proof.
  intros Hl Hx. unfold demote_line.
  pose proof (startswith_h1_line line x Hx) as Hs.
  destruct line as [|c line]; [reflexivity|].
  assert (Ec : (c =? LF) = false).
  { apply Z.eqb_neq. intros ->. apply Hl. now left. }
  assert (Hl' : ~ In LF line) by (intros H; apply Hl; now right).
  rewrite <- app_comm_cons in Hs |- *. cbn [sub_multiline].
  unfold heading_at at 1. rewrite Hs.
  destruct (startswith H1 (c :: line)) eqn:E.
  - apply startswith_true in E. destruct E as [tail E].
    injection E as -> ->. change (2 - 1)%nat with 1%nat.
    cbn [app sub_multiline]. change (32 =? LF) with false.
    rewrite sub_multiline_in_line; [reflexivity|].
    intros H. apply Hl'. now right.
  - rewrite Ec, sub_multiline_in_line by exact Hl'. reflexivity.
Qed.

Lemma heading_lines (lines : list str) :
  Forall (fun line => ~ In LF line) lines -> lines <> [] ->
  sub_multiline heading_at (join [LF] lines) 0 true
  = join [LF] (List.map demote_line lines).
Proof.
  induction lines as [|line rest IH]; [congruence|]. intros Hf _.
  apply List.Forall_cons_iff in Hf. destruct Hf as [Hl Hf].
  destruct rest as [|line2 rest].
  - cbn [join List.map]. rewrite <- (app_nil_r line) at 1.
    rewrite heading_line; [|exact Hl | now left].
    destruct line; cbn [sub_multiline]; now rewrite app_nil_r.
  - change (join [LF] (line :: line2 :: rest))
      with (line ++ LF :: join [LF] (line2 :: rest)).
    change (join [LF] (List.map demote_line (line :: line2 :: rest)))
      with (demote_line line
            ++ LF :: join [LF] (List.map demote_line (line2 :: rest))).
    rewrite heading_line; [|exact Hl | right; now eexists].
    rewrite <- IH by (exact Hf || discriminate). f_equal.
    destruct line; reflexivity.
Qed.

(** The first substitution, line by line. *)
Lemma heading_demotes (s : str) :
  sub_multiline heading_at s 0 true
  = join [LF] (List.map demote_line (split_char LF s)).
Proof.
  rewrite <- (ScriptMergerFacts.join_split_char LF s) at 1.
  apply heading_lines.
  - apply LineFacts.split_char_pieces.
  - apply ScriptMergerFacts.split_on_nonempty.
Qed.

(** [_post_process_explanation] returns the header followed by a body.
    The body is the stripped explanation in which every line that starts
    with [# ] has got one more [#] and no other line is changed, after the
    quote substitution and the cut of the runs of line feeds. The whole
    holds no three line feeds in a row, and its only line that starts with
    [# ] is the first one, the title of the header. *)
Theorem post_process_explanation_shape (explanation script_content : str) :
  let r := _post_process_explanation explanation script_content in
  let demoted :=
    join [LF] (List.map demote_line (split_char LF (strip explanation))) in
  r = HEADER ++ collapse (sub_multiline quote_at demoted 0 true) 0
  /\ startswith HEADER r = true
  /\ contains THREE_LF r = false
  /\ contains LINE_H1 r = false.
Proof.
  cbv zeta. unfold _post_process_explanation. cbv zeta.
  split; [now rewrite heading_demotes|].
  set (a := sub_multiline heading_at (strip explanation) 0 true).
  set (b := sub_multiline quote_at a 0 true).
  set (body := collapse b 0).
  assert (Ha : h1_free true a) by apply heading_h1_free.
  assert (Hb : h1_free true b).
  { destruct (sub_multiline_h1_free quote_at quote_replaced a 0%nat true Ha)
      as [B1 B2].
    split; [exact B1 | intros _; now apply B2]. }
  assert (Hbody : h1_free true body).
  { destruct Hb as [B1 B2]. split.
    - apply collapse_h1_free; [exact B1 | lia].
    - intros _. unfold body. rewrite collapse_startswith; [now apply B2|].
      intros H. repeat (destruct H as [H|H]; [discriminate H|]). exact H. }
  assert (Hhead : head_ok body = true).
  { apply collapse_head, (sub_multiline_head quote_at quote_replaced),
      (sub_multiline_head heading_at heading_replaced).
    apply stripped_strip. }
  assert (Ht : contains THREE_LF body = false) by apply collapse_no_three_lf.
  destruct header_lines as [Hsplit [Ht0 Hl0]].
  split; [apply startswith_true; now exists body|].
  destruct Hbody as [Hl Hs]. specialize (Hs eq_refl).
  destruct body as [|c t].
  - rewrite app_nil_r. now split.
  - split.
    + rewrite glue_three_lf, Ht0, Ht; [reflexivity|].
      intros ->. discriminate Hhead.
    + rewrite Hsplit, <- app_assoc.
      change ([LF] ++ c :: t) with (LF :: c :: t).
      rewrite glue_line_h1, <- Hsplit, Hl0, Hl; [reflexivity | exact Hs].
Qed.

End ExplainerFacts.

Module ExplainerExamples.

Import Explainer.

Example explanation_cleaned :
  _post_process_explanation (lit "
# Title
>quoted
>   
# Next



>	") []
  = HEADER ++ lit "## Title
> quoted
> ## Next

>".
Proof. reflexivity. Qed.

End ExplainerExamples.

(* ===================================================================== *)
(** ** pipeline/build_questions.py: the stage *)
(* ===================================================================== *)

Module BuildQuestions.

Import Ingest Questions Flashcards.

(** What a run of the stage leaves: the history, and the two paths
    returned (the second is [None] without flash cards) or the exception
    raised. *)
Record run : Type := {
  history : trace;
  result : outcome (str * option str)
}.

Section Stage.

(** The templates of the stage, [PromptBuilder.build_qa_prompt] and
    [PromptBuilder.build_flashcard_yaml_prompt], f-strings of their
    arguments; [yaml.safe_load]; and [_generate_fallback_yaml], which reads
    the questions and answers of the section with a regular expression and
    writes them with [yaml.dump]. What follows holds for any of them. The
    temperature of a generation call goes into the request. *)
Variable ratios : Type.
Variable build_qa_prompt : str -> Z -> ratios -> str.
Variable build_flashcard_yaml_prompt : str -> str.
Variable safe_load : str -> outcome yaml.
Variable _generate_fallback_yaml : str -> str.

Variable llm_client : LLMClient.t.

(** [_generate_flashcard_yaml(keyword_qa, output_dir, llm_client)] *)
Definition _generate_flashcard_yaml (keyword_qa output_dir : str) (tr : trace)
    : trace * outcome str :=
  let flashcard_prompt := build_flashcard_yaml_prompt keyword_qa in
  match LLMClient.generate llm_client flashcard_prompt
          LLMClient.default_max_retries tr with
  | (tr1, Raise e) => (tr1, Raise e)
  | (tr1, Ok yaml_content) =>
      let yaml_content := _post_process_yaml yaml_content in
      let flashcard_path := output_dir ++ lit "/flashcards.yaml" in
      let tr2 := tr1 ++ [WriteFile flashcard_path yaml_content] in
      match safe_load yaml_content with
      | Ok _ => (tr2, Ok flashcard_path)
      | Raise YAMLError =>
          (tr2 ++ [WriteFile flashcard_path (_generate_fallback_yaml keyword_qa)],
           Ok flashcard_path)
      | Raise e => (tr2, Raise e)
      end
  end.

(** [build_questions(script_path, output_dir, total_questions, ratios)];
    [script_content] is the result of [script_path.read_text]. *)
Definition build_questions (script_content : outcome str) (output_dir : str)
    (total_questions : Z) (rt : ratios) (tr : trace) : run :=
  match script_content with
  | Raise e => {| history := tr; result := Raise e |}
  | Ok script_content =>
      let qa_prompt := build_qa_prompt script_content total_questions rt in
      match LLMClient.generate llm_client qa_prompt
              LLMClient.default_max_retries tr with
      | (tr1, Raise e) => {| history := tr1; result := Raise e |}
      | (tr1, Ok qa_content) =>
          let qa_content := _post_process_qa qa_content in
          let qa_path := output_dir ++ lit "/questions.md" in
          let tr2 := tr1 ++ [WriteFile qa_path qa_content] in
          let keyword_qa := _extract_keyword_qa qa_content in
          if truthy keyword_qa then
            match _generate_flashcard_yaml keyword_qa output_dir tr2 with
            | (tr3, Ok flashcard_path) =>
                {| history := tr3; result := Ok (qa_path, Some flashcard_path) |}
            | (tr3, Raise e) => {| history := tr3; result := Raise e |}
            end
          else {| history := tr2; result := Ok (qa_path, None) |}
      end
  end.

End Stage.

End BuildQuestions.

Module BuildQuestionsFacts.

Import Ingest Questions Flashcards BuildQuestions.

(** The files written in a history, in order. *)
Definition writes (evs : list event) : list (str * list Z) :=
  flat_map (fun ev => match ev with
                      | WriteFile name data => [(name, data)]
                      | _ => []
                      end) evs.

Lemma writes_app (a b : list event) : writes (a ++ b) = writes a ++ writes b.
Proof. apply flat_map_app. Qed.

Lemma llm_events_write_nothing (evs : list event) :
  Forall ScriptFile.llm_event evs -> writes evs = [].
Proof.
  induction 1 as [|ev evs Hev _ IH]; [reflexivity|].
  destruct ev; try destruct Hev; exact IH.
Qed.

(** What a run has left on the disk. *)
Inductive left_behind (safe_load : str -> outcome yaml) (fallback : str -> str)
    (output_dir : str) : outcome (str * option str) -> list (str * list Z) -> Prop :=
  | no_answer (e : exc) :
      left_behind safe_load fallback output_dir (Raise e) []
  | no_keyword_section (answer : str) :
      _extract_keyword_qa (_post_process_qa answer) = [] ->
      left_behind safe_load fallback output_dir
        (Ok (output_dir ++ lit "/questions.md", None))
        [(output_dir ++ lit "/questions.md", _post_process_qa answer)]
  | no_cards (answer : str) (e : exc) :
      _extract_keyword_qa (_post_process_qa answer) <> [] ->
      left_behind safe_load fallback output_dir (Raise e)
        [(output_dir ++ lit "/questions.md", _post_process_qa answer)]
  | cards_loaded (answer cards : str) (v : yaml) :
      _extract_keyword_qa (_post_process_qa answer) <> [] ->
      safe_load (_post_process_yaml cards) = Ok v ->
      left_behind safe_load fallback output_dir
        (Ok (output_dir ++ lit "/questions.md",
             Some (output_dir ++ lit "/flashcards.yaml")))
        [(output_dir ++ lit "/questions.md", _post_process_qa answer);
         (output_dir ++ lit "/flashcards.yaml", _post_process_yaml cards)]
  | cards_rebuilt (answer cards : str) :
      _extract_keyword_qa (_post_process_qa answer) <> [] ->
      safe_load (_post_process_yaml cards) = Raise YAMLError ->
      left_behind safe_load fallback output_dir
        (Ok (output_dir ++ lit "/questions.md",
             Some (output_dir ++ lit "/flashcards.yaml")))
        [(output_dir ++ lit "/questions.md", _post_process_qa answer);
         (output_dir ++ lit "/flashcards.yaml", _post_process_yaml cards);
         (output_dir ++ lit "/flashcards.yaml",
          fallback (_extract_keyword_qa (_post_process_qa answer)))]
  | cards_not_loaded (answer cards : str) (e : exc) :
      _extract_keyword_qa (_post_process_qa answer) <> [] ->
      safe_load (_post_process_yaml cards) = Raise e -> e <> YAMLError ->
      left_behind safe_load fallback output_dir (Raise e)
        [(output_dir ++ lit "/questions.md", _post_process_qa answer);
         (output_dir ++ lit "/flashcards.yaml", _post_process_yaml cards)].

Section Stage.

Variable ratios : Type.
Variable build_qa_prompt : str -> Z -> ratios -> str.
Variable build_flashcard_yaml_prompt : str -> str.
Variable safe_load : str -> outcome yaml.
Variable _generate_fallback_yaml : str -> str.
Variable llm_client : LLMClient.t.

Lemma truthy_nonempty (s : str) : truthy s = true -> s <> [].
Proof. destruct s; [discriminate | discriminate]. Qed.

Lemma not_truthy_empty (s : str) : truthy s = false -> s = [].
Proof. destruct s; [reflexivity | discriminate]. Qed.

(** The files [build_questions] writes, in order, and what it returns:
    - nothing when the first generation call fails;
    - [questions.md], the cleaned answer, and no flash cards when the answer
      has no keyword section or an empty one;
    - [questions.md] alone, in a run that raises, when the second
      generation call fails;
    - [questions.md] and [flashcards.yaml], the cleaned second answer, when
      that loads as YAML;
    - the same and then [flashcards.yaml] again, rebuilt from the keyword
      section, when the load raises [YAMLError];
    - [questions.md] and the [flashcards.yaml] that did not load, in a run
      that raises, when the load raises something else. *)
Theorem build_questions_files (script output_dir : str) (total_questions : Z)
    (rt : ratios) (tr : trace) :
  let r := build_questions ratios build_qa_prompt build_flashcard_yaml_prompt safe_load
             _generate_fallback_yaml llm_client (Ok script) output_dir
             total_questions rt tr in
  exists evs,
    history r = tr ++ evs
    /\ left_behind safe_load _generate_fallback_yaml output_dir
         (result r) (writes evs).
Proof using Type.
  cbv zeta. unfold build_questions.
  destruct (ScriptFile.generate_llm_events llm_client
              (build_qa_prompt script total_questions rt)
              LLMClient.default_max_retries tr) as [evs1 [He1 Hf1]].
  apply llm_events_write_nothing in Hf1.
  destruct (LLMClient.generate llm_client _ _ tr) as [tr1 [answer|e]];
    cbn [fst] in He1; subst tr1.
  2:{ exists evs1. cbn [history result]. split; [reflexivity|].
      rewrite Hf1. constructor. }
  cbv zeta.
  destruct (truthy (_extract_keyword_qa (_post_process_qa answer))) eqn:Ek.
  2:{ eexists. cbn [history result]. split; [now rewrite <- app_assoc|].
      rewrite writes_app, Hf1. apply no_keyword_section.
      now apply not_truthy_empty. }
  apply truthy_nonempty in Ek. unfold _generate_flashcard_yaml.
  set (tr2 := (tr ++ evs1) ++ [WriteFile _ _]).
  destruct (ScriptFile.generate_llm_events llm_client
              (build_flashcard_yaml_prompt
                 (_extract_keyword_qa (_post_process_qa answer)))
              LLMClient.default_max_retries tr2) as [evs2 [He2 Hf2]].
  apply llm_events_write_nothing in Hf2.
  destruct (LLMClient.generate llm_client _ _ tr2) as [tr3 [cards|e]];
    cbn [fst] in He2; subst tr3 tr2.
  2:{ eexists. cbn [history result]. split; [now rewrite <- !app_assoc|].
      rewrite !writes_app, Hf1, Hf2. now apply no_cards. }
  cbv zeta.
  destruct (safe_load (_post_process_yaml cards)) as [v|e] eqn:El.
  - eexists. cbn [history result]. split; [now rewrite <- !app_assoc|].
    rewrite !writes_app, Hf1, Hf2. now apply (cards_loaded _ _ _ _ _ v).
  - assert (Hother : e <> YAMLError ->
              exists evs,
                ((tr ++ evs1) ++ [WriteFile (output_dir ++ lit "/questions.md")
                                    (_post_process_qa answer)]) ++ evs2
                ++ [WriteFile (output_dir ++ lit "/flashcards.yaml")
                      (_post_process_yaml cards)] = tr ++ evs
                /\ left_behind safe_load _generate_fallback_yaml output_dir
                     (Raise e) (writes evs)).
    { intros Ne. eexists. split; [now rewrite <- !app_assoc|].
      rewrite !writes_app, Hf1, Hf2. now apply cards_not_loaded. }
    destruct e; cbn [history result];
      try (rewrite <- app_assoc; apply Hother; discriminate).
    eexists. split; [now rewrite <- !app_assoc|].
    rewrite !writes_app, Hf1, Hf2. now apply cards_rebuilt.
Qed.

End Stage.

End BuildQuestionsFacts.

Module BuildQuestionsExamples.

Import Ingest Questions Flashcards BuildQuestions BuildQuestionsFacts.

(** A model that answers the first prompt with questions and the second
    with flash cards in a code fence, and a loader that rejects them. *)
Definition toy_llm : LLMClient.t :=
  {| LLMClient.count_api := fun _ => None;
     LLMClient.generate_content := fun _ prompt =>
       Ok (Some (if startswith (lit "cards") prompt
                 then lit "```yaml
flashcards:
- id: k1
```"
                 else QuestionsExamples.clean_qa)) |}.

Definition toy_run (safe_load : str -> outcome yaml) : run :=
  build_questions unit (fun script _ _ => lit "qa: " ++ script)
    (fun keyword_qa => lit "cards: " ++ keyword_qa) safe_load
    (fun keyword_qa => lit "flashcards: []") toy_llm
    (Ok (lit "Speaker 1: hello")) (lit "out") 20 tt [].

Example cards_written :
  result (toy_run (fun _ => Ok YNull))
  = Ok (lit "out/questions.md", Some (lit "out/flashcards.yaml"))
  /\ writes (history (toy_run (fun _ => Ok YNull)))
     = [(lit "out/questions.md", Questions.HEADER ++ QuestionsExamples.clean_qa);
        (lit "out/flashcards.yaml", lit "flashcards:
- id: k1")].
Proof. split; reflexivity. Qed.

Example cards_rebuilt_after_yaml_error :
  result (toy_run (fun _ => Raise YAMLError))
  = Ok (lit "out/questions.md", Some (lit "out/flashcards.yaml"))
  /\ List.map fst (writes (history (toy_run (fun _ => Raise YAMLError))))
     = [lit "out/questions.md"; lit "out/flashcards.yaml"; lit "out/flashcards.yaml"]
  /\ BuildAudio.file_content (history (toy_run (fun _ => Raise YAMLError)))
       (lit "out/flashcards.yaml")
     = Some (lit "flashcards: []").
Proof. repeat split; reflexivity. Qed.

Example questions_left_when_load_fails :
  result (toy_run (fun _ => Raise TypeError)) = Raise TypeError
  /\ List.map fst (writes (history (toy_run (fun _ => Raise TypeError))))
     = [lit "out/questions.md"; lit "out/flashcards.yaml"].
Proof. split; reflexivity. Qed.

End BuildQuestionsExamples.

(* ===================================================================== *)
(** ** pipeline/ingest.py: the title *)
(* ===================================================================== *)

Module TitleFacts.

Import Ingest.









End TitleFacts.

Module TitleExamples.

Import Ingest TitleFacts.


(** The white space behind the [#] may run over line feeds: the title is
    then taken from a following line. *)
Example title_from_next_line :
  _extract_title (fun _ => []) (lit "#
# One
") YNull (lit "notes") = Ok (lit "# One").
Proof. reflexivity. Qed.

End TitleExamples.
